(** * Title pipeline of the BibTeX cleaner ([src/main.py])

    A shallow embedding of [split_braces], [brace_entities],
    [brace_entities_preserve_existing], [protect_acronyms_preserve_braces],
    [sentence_case_preserve_braces] and [process_title], together with the
    properties of the title pipeline.

    Modelling choices.
    - A Python [str] is a [list ascii]; a character is read as the code
      point of the same number, so the strings of the model are the
      strings over U+0000..U+00FF.  The classes [\w], [\d], [\s] and
      [str.lower] are the Unicode ones restricted to that range.
    - Every regular expression of the source is embedded as the matcher
      the backtracking engine runs for it: alternatives in order, greedy
      quantifiers longest first, lazy ones shortest first.
    - The spaCy model [nlp] is an argument of the functions that use it:
      a function from a text to the entities found in it.
    - The pipeline is written twice: as the functions it computes, and,
      under the names ending in [_e], with the places where its
      operations raise an exception written out. *)

From Equations Require Import Equations.
From Stdlib Require Import List Ascii Bool Arith Lia.
From Stdlib Require String.
Import ListNotations String.StringSyntax.
Delimit Scope string_scope with string.

(** ** Characters *)

Definition str := list ascii.

Definition lit (s : String.string) : str := String.list_ascii_of_string s.
Arguments lit s%_string.

Definition code (c : ascii) : nat := nat_of_ascii c.

Definition between (lo hi : nat) (c : ascii) : bool :=
  (lo <=? code c) && (code c <=? hi).

Definition lbrace : ascii := "{"%char.
Definition rbrace : ascii := "}"%char.
Definition colon : ascii := ":"%char.

Definition is_lbrace (c : ascii) : bool := Ascii.eqb c lbrace.
Definition is_rbrace (c : ascii) : bool := Ascii.eqb c rbrace.
Definition is_colon (c : ascii) : bool := Ascii.eqb c colon.

(** [[A-Z]], [[a-z]], [[0-9]] and the classes built from them. *)
Definition is_AZ (c : ascii) : bool := between 65 90 c.
Definition is_az (c : ascii) : bool := between 97 122 c.
Definition is_09 (c : ascii) : bool := between 48 57 c.

(** [[A-Za-z]] *)
Definition is_letter (c : ascii) : bool := is_AZ c || is_az c.
(** [[A-Za-z0-9]] *)
Definition is_alnum (c : ascii) : bool := is_letter c || is_09 c.
(** [[A-Z0-9]] *)
Definition is_caps (c : ascii) : bool := is_AZ c || is_09 c.

(** [\d] of a [str] pattern: the decimal digits; below U+0100 these are
    [0-9] only. *)
Definition is_digit (c : ascii) : bool := is_09 c.

(** [\w] of a [str] pattern: alphanumeric characters and the underscore.
    Below U+0100 the alphanumerics outside ASCII are U+00AA, U+00B2,
    U+00B3, U+00B5, U+00B9, U+00BA, U+00BC..U+00BE, U+00C0..U+00D6,
    U+00D8..U+00F6 and U+00F8..U+00FF. *)
Definition is_word (c : ascii) : bool :=
  is_alnum c || (code c =? 95)
  || (code c =? 170) || between 178 179 c || (code c =? 181)
  || between 185 186 c || between 188 190 c
  || between 192 214 c || between 216 246 c || between 248 255 c.

(** [\s] of a [str] pattern: U+0009..U+000D, U+001C..U+0020, U+0085 and
    U+00A0. *)
Definition is_space (c : ascii) : bool :=
  between 9 13 c || between 28 32 c || (code c =? 133) || (code c =? 160).

(** [str.lower] on one character: [A-Z] and U+00C0..U+00DE without
    U+00D7 move up by 32, every other character below U+0100 is kept. *)
Definition lower_char (c : ascii) : ascii :=
  if is_AZ c || between 192 214 c || between 216 222 c
  then ascii_of_nat (code c + 32) else c.

(** [str.upper] on one character matched by [[A-Za-z]], the only place
    where the source calls it. *)
Definition upper_char (c : ascii) : ascii :=
  if is_az c then ascii_of_nat (code c - 32) else c.

(** [str.lower] on a string over U+0000..U+00FF, where it works
    character by character and keeps the length.  Beyond U+00FF it does
    not (a capital sigma is lower-cased by what stands around it); such
    strings are outside this development, and every statement on
    [lower] is a statement on strings over U+0000..U+00FF. *)
Definition lower (s : str) : str := map lower_char s.

(** ** Prefix and suffix tests *)

Fixpoint startswith (pre s : str) : bool :=
  match pre, s with
  | [], _ => true
  | _ :: _, [] => false
  | a :: pre', b :: s' => Ascii.eqb a b && startswith pre' s'
  end.

Definition endswith (suf s : str) : bool := startswith (rev suf) (rev s).

(** The test [p.startswith("{") and p.endswith("}")] of the three passes. *)
Definition is_protected (p : str) : bool :=
  startswith [lbrace] p && endswith [rbrace] p.

(** ** Brace Splitter: [re.split(r"(\{.*?\})", text, flags=re.DOTALL)] *)

(** [.*?\}] at the head of [s]: the lazy quantifier tries the closing
    brace first and takes one more character (any one, by DOTALL) only
    when that fails.  Returns the matched text and what follows it. *)
Fixpoint lazy_close (s : str) : option (str * str) :=
  match s with
  | [] => None
  | c :: r =>
      if is_rbrace c then Some ([c], r)
      else match lazy_close r with
           | Some (m, rest) => Some (c :: m, rest)
           | None => None
           end
  end.

(** [\{.*?\}] at the head of [s]. *)
Definition match_brace_at (s : str) : option (str * str) :=
  match s with
  | [] => None
  | c :: r =>
      if is_lbrace c then
        match lazy_close r with
        | Some (m, rest) => Some (c :: m, rest)
        | None => None
        end
      else None
  end.

(** The leftmost match: the text before it, the match, the text after. *)
Fixpoint search_brace (s : str) : option (str * str * str) :=
  match match_brace_at s with
  | Some (m, rest) => Some ([], m, rest)
  | None =>
      match s with
      | [] => None
      | c :: r =>
          match search_brace r with
          | Some (pre, m, rest) => Some (c :: pre, m, rest)
          | None => None
          end
      end
  end.

Lemma lazy_close_split s m rest :
  lazy_close s = Some (m, rest) -> s = m ++ rest.
Proof.
  revert m rest; induction s as [|c r IH]; simpl; intros m rest H.
  - discriminate.
  - destruct (is_rbrace c).
    + inversion H; reflexivity.
    + destruct (lazy_close r) as [[m' rest']|]; [|discriminate].
      inversion H; subst. simpl. f_equal. apply IH; reflexivity.
Qed.

Lemma lazy_close_nonempty s m rest :
  lazy_close s = Some (m, rest) -> m <> [].
Proof.
  destruct s as [|c r]; simpl; [discriminate|].
  destruct (is_rbrace c).
  - intros H; inversion H; discriminate.
  - destruct (lazy_close r) as [[m' rest']|]; [|discriminate].
    intros H; inversion H; discriminate.
Qed.

Lemma match_brace_at_split s m rest :
  match_brace_at s = Some (m, rest) -> s = m ++ rest /\ 2 <= length m.
Proof.
  destruct s as [|c r]; simpl; [discriminate|].
  destruct (is_lbrace c); [|discriminate].
  destruct (lazy_close r) as [[m' rest']|] eqn:E; [|discriminate].
  intros H; inversion H; subst.
  pose proof (lazy_close_split _ _ _ E). pose proof (lazy_close_nonempty _ _ _ E).
  subst r. split; [reflexivity|]. destruct m'; [congruence|simpl; lia].
Qed.

Lemma search_brace_split s pre m rest :
  search_brace s = Some (pre, m, rest) ->
  s = pre ++ m ++ rest /\ 2 <= length m.
Proof.
  revert pre m rest; induction s as [|c r IH]; intros pre m rest.
  - simpl. discriminate.
  - cbn [search_brace].
    destruct (match_brace_at (c :: r)) as [[m' rest']|] eqn:E.
    + intros H; inversion H; subst. simpl. now apply match_brace_at_split.
    + destruct (search_brace r) as [[[pre' m'] rest']|]; [|discriminate].
      intros H; inversion H; subst.
      destruct (IH _ _ _ eq_refl) as [-> Hl]. split; [reflexivity|assumption].
Qed.

Lemma search_brace_shorter s pre m rest :
  search_brace s = Some (pre, m, rest) -> length rest < length s.
Proof.
  intros H. apply search_brace_split in H. destruct H as [-> Hl].
  rewrite !length_app. lia.
Qed.

Definition inspect {A} (a : A) : {b | a = b} := exist _ a eq_refl.

(** [re.split] with one capturing group around the whole pattern: the
    text before each match and the match itself alternate, and the text
    after the last match closes the list. *)
Equations? split_braces (text : str) : list str by wf (length text) lt :=
  split_braces text with inspect (search_brace text) => {
    | exist _ (Some (pre, m, rest)) _ := pre :: m :: split_braces rest;
    | exist _ None _ := [text] }.
Proof. eapply search_brace_shorter; eauto. Qed.

Example split_braces_ex1 :
  split_braces (lit "a {B c} d{}")
  = [lit "a "; lit "{B c}"; lit " d"; lit "{}"; []].
Proof. reflexivity. Qed.

(** ** Entity Protector *)

(** One entity of [doc.ents]: the character offsets, which spaCy counts
    from 0 and never gives negative, and the label. *)
Record ent := mk_ent
  { start_char : nat; end_char : nat; label_ : String.string }.

(** The Entity Span Provider: the loaded spaCy pipeline [nlp]. *)
Definition provider := str -> list ent.

Definition ENTITY_LABELS : list String.string :=
  ["PERSON"; "GPE"; "LOC"; "ORG"; "NORP"; "WORK_OF_ART"; "EVENT";
   "PRODUCT"]%string.

Definition span := (nat * nat)%type.

Definition in_labels (l : String.string) : bool :=
  existsb (String.eqb l) ENTITY_LABELS.

(** The list comprehension over [doc.ents]. *)
Definition entity_spans (ents : list ent) : list span :=
  map (fun e => (start_char e, end_char e))
      (filter (fun e => in_labels (label_ e)) ents).

(** [spans.sort()]: tuples compare by the first component, then by the
    second. *)
Definition span_leb (x y : span) : bool :=
  (fst x <? fst y) || ((fst x =? fst y) && (snd x <=? snd y)).

Fixpoint insert_span (x : span) (l : list span) : list span :=
  match l with
  | [] => [x]
  | y :: l' => if span_leb x y then x :: l else y :: insert_span x l'
  end.

Fixpoint sort_spans (l : list span) : list span :=
  match l with
  | [] => []
  | x :: l' => insert_span x (sort_spans l')
  end.

(** One round of the merging loop; [rev merged] exposes [merged[-1]]. *)
Definition merge_step (merged : list span) (s : span) : list span :=
  let (a, b) := s in
  match rev merged with
  | [] => merged ++ [(a, b)]
  | (c, d) :: _ =>
      if d <? a then merged ++ [(a, b)]
      else removelast merged ++ [(c, Nat.max d b)]
  end.

Definition merge_spans (spans : list span) : list span :=
  fold_left merge_step spans [].

(** [s[i:j]] and [s[i:]] for offsets that are not negative. *)
Definition slice (i j : nat) (s : str) : str := firstn (j - i) (skipn i s).
Definition slice_from (i : nat) (s : str) : str := skipn i s.

(** One round of the output loop on the pair of [out] and [last]. *)
Definition emit_step (text : str) (st : list str * nat) (s : span)
  : list str * nat :=
  let (out, last) := st in
  let (a, b) := s in
  (out ++ [slice last a text; lbrace :: slice a b text ++ [rbrace]], b).

Definition brace_entities (nlp : provider) (text : str) : str :=
  match entity_spans (nlp text) with
  | [] => text
  | spans =>
      let merged := merge_spans (sort_spans spans) in
      let (out, last) := fold_left (emit_step text) merged ([], 0) in
      concat (out ++ [slice_from last text])
  end.

Definition brace_entities_preserve_existing (nlp : provider) (title : str)
  : str :=
  concat (map (fun p => if is_protected p then p else brace_entities nlp p)
              (split_braces title)).

(** ** Acronym Protector *)

Definition word_opt (c : option ascii) : bool :=
  match c with Some x => is_word x | None => false end.

(** [\b] at a position, from the character before it ([None] at the start
    of the string) and the text from it on. *)
Definition at_boundary (prev : option ascii) (s : str) : bool :=
  xorb (word_opt prev) (word_opt (hd_error s)).

(** [X*\b] for a character class [X]: the greedy star takes the longest
    run first and gives characters back until [\b] holds.  Returns the
    number of characters taken. *)
Fixpoint star_boundary (cls : ascii -> bool) (prev : option ascii) (s : str)
  : option nat :=
  let stop := if at_boundary prev s then Some 0 else None in
  match s with
  | [] => stop
  | c :: r =>
      if cls c then
        match star_boundary cls (Some c) r with
        | Some k => Some (S k)
        | None => stop
        end
      else stop
  end.

(** First alternative with the closing [\b]: [[A-Z0-9]{2,}\b]. *)
Definition caps_token_at (s : str) : option nat :=
  match s with
  | c1 :: c2 :: r =>
      if is_caps c1 && is_caps c2 then
        match star_boundary is_caps (Some c2) r with
        | Some k => Some (2 + k)
        | None => None
        end
      else None
  | _ => None
  end.

(** The lookahead [(?=\w*\d)]. *)
Fixpoint digit_ahead (s : str) : bool :=
  match s with
  | [] => false
  | c :: r => (is_word c && digit_ahead r) || is_digit c
  end.

(** Second alternative with the closing [\b]: [(?=\w*\d)\w+\b]. *)
Definition digit_token_at (s : str) : option nat :=
  if digit_ahead s then
    match s with
    | [] => None
    | c :: r =>
        if is_word c then
          match star_boundary is_word (Some c) r with
          | Some k => Some (1 + k)
          | None => None
          end
        else None
    end
  else None.

(** [_ACRONYM_TOKEN_RE] at a position: the length of the match. *)
Definition acronym_token_at (prev : option ascii) (s : str) : option nat :=
  if at_boundary prev s then
    match caps_token_at s with
    | Some n => Some n
    | None => digit_token_at s
    end
  else None.

(** [re.fullmatch(r"[A-Z0-9]{2,}", tok)] and [re.search(r"\d", tok)]. *)
Definition fullmatch_caps (tok : str) : bool :=
  (2 <=? length tok) && forallb is_caps tok.
Definition search_digit (tok : str) : bool := existsb is_digit tok.

Definition repl (tok : str) : str :=
  if fullmatch_caps tok || search_digit tok
  then lbrace :: tok ++ [rbrace] else tok.

(** [_ACRONYM_TOKEN_RE.sub(repl, p)] from a position on.  The pattern
    matches no empty string; a match of length 0 would leave the text as
    it is, since [repl] of the empty token is empty. *)
Equations? acronym_sub (prev : option ascii) (s : str) : str
  by wf (length s) lt :=
  acronym_sub prev [] := [];
  acronym_sub prev (c :: r) with inspect (acronym_token_at prev (c :: r)) => {
    | exist _ (Some (S k)) _ :=
        repl (c :: firstn k r)
        ++ acronym_sub (Some (last (firstn k r) c)) (skipn k r);
    | exist _ _ _ := c :: acronym_sub (Some c) r }.
Proof. all: cbn [length]; try rewrite length_skipn; lia. Qed.

Definition protect_acronyms_preserve_braces (chunk : str) : str :=
  concat (map (fun p => if is_protected p then p else acronym_sub None p)
              (split_braces chunk)).

(** ** Sentence Caser *)

(** [re.search(r"[a-zA-Z]", s)] *)
Definition search_letter (s : str) : bool := existsb is_letter s.

(** [X*[A-Za-z]] for a character class [X], greedy: the number of
    characters the star keeps. *)
Fixpoint star_letter (cls : ascii -> bool) (s : str) : option nat :=
  match s with
  | [] => None
  | c :: r =>
      let stop := if is_letter c then Some 0 else None in
      if cls c then
        match star_letter cls r with
        | Some k => Some (S k)
        | None => stop
        end
      else stop
  end.

(** The [re.sub] with [count=1] of the pattern [^], group 1
    [[^A-Za-z0-9]*], group 2 [[A-Za-z]]: without MULTILINE it matches at
    the start of [s] or nowhere; group 2 is replaced by its upper case. *)
Definition capitalize_first (s : str) : str :=
  match star_letter (fun c => negb (is_alnum c)) s with
  | Some k =>
      firstn k s ++ map upper_char (firstn 1 (skipn k s)) ++ skipn (S k) s
  | None => s
  end.

(** The pattern of the colon rule at a position: a colon and [\s*] as
    group 1, [[A-Za-z]] as group 2.  Returns the length of [\s*]. *)
Definition colon_letter_at (s : str) : option nat :=
  match s with
  | [] => None
  | c :: r => if is_colon c then star_letter is_space r else None
  end.

(** The [re.sub] of the colon rule: group 2 is replaced by its upper
    case at every match, left to right. *)
Equations? colon_sub (s : str) : str by wf (length s) lt :=
  colon_sub [] := [];
  colon_sub (c :: r) with inspect (colon_letter_at (c :: r)) => {
    | exist _ (Some k) _ :=
        (c :: firstn k r) ++ map upper_char (firstn 1 (skipn k r))
        ++ colon_sub (skipn (S k) r);
    | exist _ None _ := c :: colon_sub r }.
Proof. all: try (destruct r; cbn [length]; try rewrite length_skipn); lia. Qed.

(** One round of the loop on the pair of [out] and [is_first_part]. *)
Definition case_step (st : list str * bool) (p : str) : list str * bool :=
  let (out, is_first_part) := st in
  if is_protected p then (out ++ [p], is_first_part)
  else
    let s := lower p in
    if is_first_part && search_letter s
    then (out ++ [colon_sub (capitalize_first s)], false)
    else (out ++ [colon_sub s], is_first_part).

Definition sentence_case_preserve_braces (text : str) : str :=
  concat (fst (fold_left case_step (split_braces text) ([], true))).

(** ** Title Pipeline *)

Definition str_eqb (a b : str) : bool :=
  if list_eq_dec ascii_dec a b then true else false.

Definition process_title (nlp : provider) (raw : str) : str * bool :=
  let step1 := brace_entities_preserve_existing nlp raw in
  let step2 := protect_acronyms_preserve_braces step1 in
  let step3 := sentence_case_preserve_braces step2 in
  (step3, negb (str_eqb step3 raw)).

(** Providers for examples: no entity at all, and a fixed list of spans
    labelled ORG whatever the text. *)
Definition no_entities : provider := fun _ => [].
Definition fixed_spans (l : list span) : provider :=
  fun _ => map (fun s => mk_ent (fst s) (snd s) "ORG"%string) l.
(** The provider that finds the word LORD and nothing else. *)
Fixpoint find_lord (i : nat) (s : str) : list ent :=
  match s with
  | [] => []
  | _ :: r =>
      (if startswith (lit "LORD") s then [mk_ent i (i + 4) "WORK_OF_ART"%string]
       else []) ++ find_lord (S i) r
  end.
Definition lord_provider : provider := find_lord 0.

Example acronyms_ex :
  protect_acronyms_preserve_braces (lit "NASA and COVID19, the 2nd Of {X1} a_1 B 7")
  = lit "{NASA} and {COVID19}, the {2nd} Of {X1} {a_1} B {7}".
Proof. reflexivity. Qed.

Example sentence_case_ex :
  process_title lord_provider (lit "the LORD of the RINGS: a STORY")
  = (lit "The {LORD} of the {RINGS}: A {STORY}", true).
Proof. reflexivity. Qed.

(** ** Record Rewriter: the substitution of [clean_file]

    [clean_file] reads the input file, runs [_TITLE_FIELD_RE.sub(replace,
    text)] and writes the result; the reading and the writing are left
    out, the substitution with its two counters is [clean_text]. *)

(** One match of [_TITLE_FIELD_RE]: group 1, group 2, group 3 and the
    text after the match. *)
Definition field := (str * str * str * str)%type.

Definition equals_sign : ascii := "="%char.
Definition is_equals (c : ascii) : bool := Ascii.eqb c equals_sign.

(** A letter of the pattern under IGNORECASE: below U+0100 the
    characters that match a small letter of [a-z] are the letter and its
    capital. *)
Definition ci (p c : ascii) : bool := Ascii.eqb (lower_char c) p.

(** The character [c] joins group 1 of the match that follows it. *)
Definition push (c : ascii) (m : option field) : option field :=
  match m with
  | Some (g1, g2, g3, rest) => Some (c :: g1, g2, g3, rest)
  | None => None
  end.

(** One character of a class, then the rest [k] of the pattern. *)
Definition char_then (cls : ascii -> bool) (k : str -> option field)
    (s : str) : option field :=
  match s with
  | [] => None
  | c :: r => if cls c then push c (k r) else None
  end.

(** [X*] for a class [X], then the rest [k] of the pattern: the greedy
    star takes the longest run first and gives characters back as long as
    the rest fails. *)
Fixpoint star_then (cls : ascii -> bool) (k : str -> option field)
    (s : str) : option field :=
  match s with
  | [] => k s
  | c :: r =>
      if cls c then
        match push c (star_then cls k r) with
        | Some m => Some m
        | None => k s
        end
      else k s
  end.

(** Groups 2 and 3: the lazy [.*?] under DOTALL and the closing brace. *)
Fixpoint lazy_group (s : str) : option field :=
  match s with
  | [] => None
  | c :: r =>
      if is_rbrace c then Some ([], [], [c], r)
      else match lazy_group r with
           | Some (g1, g2, g3, rest) => Some (g1, c :: g2, g3, rest)
           | None => None
           end
  end.

(** [_TITLE_FIELD_RE] at a position: [title], [\s*], [=], [\s*] and the
    opening brace as group 1, then groups 2 and 3. *)
Definition title_field_at : str -> option field :=
  char_then (ci "t") (char_then (ci "i") (char_then (ci "t")
    (char_then (ci "l") (char_then (ci "e")
      (star_then is_space (char_then is_equals
        (star_then is_space (char_then is_lbrace lazy_group)))))))).

(** The counters [total] and [changed] of [clean_file]. *)
Definition counters := (nat * nat)%type.

(** The callback [replace]: the new text of the match and the counters
    after the call. *)
Definition replace (nlp : provider) (st : counters) (m : field)
  : str * counters :=
  let '(prefix, content, suffix, _) := m in
  let total := fst st + 1 in
  let (cleaned, did_change) := process_title nlp content in
  let changed := if did_change then snd st + 1 else snd st in
  (prefix ++ cleaned ++ suffix, (total, changed)).

(** A pattern piece cuts the text it is given into the groups and the
    remainder. *)
Definition cuts (k : str -> option field) : Prop :=
  forall s g1 g2 g3 rest,
    k s = Some (g1, g2, g3, rest) -> s = g1 ++ g2 ++ g3 ++ rest.

Lemma lazy_group_some s : forall g1 g2 g3 rest,
  lazy_group s = Some (g1, g2, g3, rest) ->
  g1 = [] /\ s = g2 ++ g3 ++ rest /\ g3 = [rbrace] /\ ~ In rbrace g2.
Proof.
  induction s as [|c r IH]; cbn [lazy_group]; intros g1 g2 g3 rest H.
  - discriminate.
  - destruct (is_rbrace c) eqn:Ec.
    + inversion H; subst. apply Ascii.eqb_eq in Ec. subst c.
      repeat split; auto.
    + destruct (lazy_group r) as [[[[h1 h2] h3] hr]|]; [|discriminate].
      inversion H; subst.
      destruct (IH _ _ _ _ eq_refl) as (E1 & E2 & E3 & E4).
      repeat split; auto; [now rewrite E2|].
      apply Ascii.eqb_neq in Ec. intros [E|E]; [congruence|auto].
Qed.

Lemma lazy_group_cuts : cuts lazy_group.
Proof.
  intros s g1 g2 g3 rest H. apply lazy_group_some in H.
  destruct H as (-> & -> & _). reflexivity.
Qed.

Lemma char_then_cuts cls k : cuts k -> cuts (char_then cls k).
Proof.
  intros Hk [|c r] g1 g2 g3 rest; cbn [char_then]; [discriminate|].
  destruct (cls c); [|discriminate].
  destruct (k r) as [[[[h1 h2] h3] hr]|] eqn:E; cbn [push]; [|discriminate].
  intros H; inversion H; subst. now rewrite (Hk _ _ _ _ _ E).
Qed.

Lemma star_then_cuts cls k : cuts k -> cuts (star_then cls k).
Proof.
  intros Hk s. induction s as [|c r IH]; cbn [star_then];
    intros g1 g2 g3 rest H; [now apply Hk|].
  destruct (cls c); [|now apply Hk].
  destruct (star_then cls k r) as [[[[h1 h2] h3] hr]|] eqn:E; cbn [push] in H;
    [|now apply Hk].
  inversion H; subst. now rewrite (IH _ _ _ _ eq_refl).
Qed.

Lemma title_field_at_cuts : cuts title_field_at.
Proof.
  unfold title_field_at.
  repeat first [apply char_then_cuts | apply star_then_cuts].
  apply lazy_group_cuts.
Qed.

Lemma title_field_at_shorter s g1 g2 g3 rest :
  title_field_at s = Some (g1, g2, g3, rest) -> length rest < length s.
Proof.
  intros H. pose proof (title_field_at_cuts _ _ _ _ _ H) as E.
  destruct s as [|c r]; [discriminate H|].
  unfold title_field_at in H. cbn [char_then] in H.
  destruct (ci "t" c); [|discriminate H].
  destruct g1 as [|x g1].
  - destruct (char_then _ _ r) as [[[[h1 h2] h3] hr]|]; discriminate H.
  - rewrite E. cbn [app length]. rewrite !length_app. lia.
Qed.

(** The text [new] goes to the output, before what the rest of the scan
    produces. *)
Definition emit (new : str) (res : str * counters) : str * counters :=
  (new ++ fst res, snd res).

(** [_TITLE_FIELD_RE.sub(replace, text)] from a position on, with the
    counters threaded through the calls of [replace]. *)
Equations? title_sub (nlp : provider) (st : counters) (s : str)
  : str * counters by wf (length s) lt :=
  title_sub nlp st [] := ([], st);
  title_sub nlp st (c :: r) with inspect (title_field_at (c :: r)) => {
    | exist _ (Some (g1, g2, g3, rest)) _ :=
        emit (fst (replace nlp st (g1, g2, g3, rest)))
             (title_sub nlp (snd (replace nlp st (g1, g2, g3, rest))) rest);
    | exist _ None _ := emit [c] (title_sub nlp st r) }.
Proof.
  all: apply (title_field_at_shorter (c :: r) g1 g2 g3 rest); assumption.
Qed.

(** The text [clean_file] writes and the pair it returns. *)
Definition clean_text (nlp : provider) (text : str) : str * counters :=
  title_sub nlp (0, 0) text.

Example clean_text_ex :
  clean_text lord_provider
    (lit "@book{k, Title = {the LORD of NASA: a STORY}, year = {1954}}")
  = (lit "@book{k, Title = {The {LORD} of {NASA}: A {STORY}}, year = {1954}}",
     (1, 1)).
Proof. reflexivity. Qed.

(** ** The pipeline with its exceptions

    The pipeline once more, with the places where its operations raise
    written out: the call of the provider, the index [merged[-1]], which
    raises on an empty list, the group of a match object, which is [None]
    when the group took no part in the match, and the operations [+],
    [.upper()], [re.fullmatch] and [re.search], which raise on [None].
    Slices, [str.lower], [str.join], [re.split] and the comparison of two
    strings raise on no string. *)

Inductive exn : Type :=
| IndexError
| TypeError
| AttributeError
| ProviderError.

(** What an expression evaluates to, or the exception it raises. *)
Definition exc (A : Type) : Type := (exn + A)%type.

Definition ret {A} (a : A) : exc A := inr a.
Definition raise {A} (e : exn) : exc A := inl e.

Definition bind {A B} (m : exc A) (k : A -> exc B) : exc B :=
  match m with
  | inl e => inl e
  | inr a => k a
  end.

Notation "x <- m ;; k" := (bind m (fun x => k))
  (at level 61, m at next level, right associativity).

(** A provider that may raise. *)
Definition provider_e := str -> exc (list ent).

(** [merged[-1]] *)
Definition last_e (merged : list span) : exc span :=
  match rev merged with
  | [] => raise IndexError
  | x :: _ => ret x
  end.

(** [merged[-1] = x] *)
Definition set_last_e (merged : list span) (x : span) : exc (list span) :=
  match merged with
  | [] => raise IndexError
  | _ :: _ => ret (removelast merged ++ [x])
  end.

(** [not merged or a > merged[-1][1]]: the index is read only when the
    list is not empty. *)
Definition starts_new_e (merged : list span) (a : nat) : exc bool :=
  match merged with
  | [] => ret true
  | _ :: _ => l <- last_e merged ;; ret (snd l <? a)
  end.

(** One round of the merging loop; an exception of an earlier round
    ends the loop. *)
Definition merge_step_e (acc : exc (list span)) (s : span)
  : exc (list span) :=
  merged <- acc ;;
  let (a, b) := s in
  new <- starts_new_e merged a ;;
  if new then ret (merged ++ [(a, b)])
  else
    l1 <- last_e merged ;;
    l2 <- last_e merged ;;
    set_last_e merged (fst l1, Nat.max (snd l2) b).

Definition merge_spans_e (spans : list span) : exc (list span) :=
  fold_left merge_step_e spans (ret []).

Definition brace_entities_e (nlp : provider_e) (text : str) : exc str :=
  ents <- nlp text ;;
  match entity_spans ents with
  | [] => ret text
  | spans =>
      merged <- merge_spans_e (sort_spans spans) ;;
      let (out, last) := fold_left (emit_step text) merged ([], 0) in
      ret (concat (out ++ [slice_from last text]))
  end.

(** A loop that appends one piece per segment and stops at the first
    exception. *)
Fixpoint map_e {A B} (f : A -> exc B) (l : list A) : exc (list B) :=
  match l with
  | [] => ret []
  | x :: l' => y <- f x ;; ys <- map_e f l' ;; ret (y :: ys)
  end.

Definition brace_entities_preserve_existing_e (nlp : provider_e)
    (title : str) : exc str :=
  outs <- map_e (fun p => if is_protected p then ret p
                          else brace_entities_e nlp p)
                (split_braces title) ;;
  ret (concat outs).

(** A match object as the callbacks use it: the text of group 0, the
    whole match, and of the numbered groups, [None] for a group that
    took no part in the match. *)
Definition match_obj := list (option str).

(** [m.group(k)] *)
Definition group (m : match_obj) (k : nat) : exc (option str) :=
  match nth_error m k with
  | Some g => ret g
  | None => raise IndexError
  end.

(** [a + b] for values that are a [str] or [None]. *)
Definition add_e (a b : option str) : exc str :=
  match a, b with
  | Some x, Some y => ret (x ++ y)
  | _, _ => raise TypeError
  end.

(** [a.upper()], called by the source on what [[A-Za-z]] matched. *)
Definition upper_e (a : option str) : exc str :=
  match a with
  | Some x => ret (map upper_char x)
  | None => raise AttributeError
  end.

(** The callback [repl] on a match object. *)
Definition repl_e (m : match_obj) : exc str :=
  tok <- group m 1 ;;
  match tok with
  | None => raise TypeError
  | Some t =>
      if fullmatch_caps t || search_digit t
      then x <- add_e (Some [lbrace]) tok ;; add_e (Some x) (Some [rbrace])
      else ret t
  end.

(** Two pieces of the output of a substitution, one after the other. *)
Definition join_e (a b : exc str) : exc str :=
  x <- a ;; y <- b ;; ret (x ++ y).

(** [_ACRONYM_TOKEN_RE.sub(repl, p)] with the callback on the match
    object of every match; group 1 of the pattern encloses the whole
    match. *)
Equations? acronym_sub_e (prev : option ascii) (s : str) : exc str
  by wf (length s) lt :=
  acronym_sub_e prev [] := ret [];
  acronym_sub_e prev (c :: r)
    with inspect (acronym_token_at prev (c :: r)) => {
    | exist _ (Some (S k)) _ :=
        join_e (repl_e [Some (c :: firstn k r); Some (c :: firstn k r)])
               (acronym_sub_e (Some (last (firstn k r) c)) (skipn k r));
    | exist _ _ _ := join_e (ret [c]) (acronym_sub_e (Some c) r) }.
Proof. all: cbn [length]; try rewrite length_skipn; lia. Qed.

Definition protect_acronyms_preserve_braces_e (chunk : str) : exc str :=
  outs <- map_e (fun p => if is_protected p then ret p
                          else acronym_sub_e None p)
                (split_braces chunk) ;;
  ret (concat outs).

(** The callback of both rules of the Sentence Caser:
    [m.group(1) + m.group(2).upper()]. *)
Definition upper_group_e (m : match_obj) : exc str :=
  g1 <- group m 1 ;;
  g2 <- group m 2 ;;
  u <- upper_e g2 ;;
  add_e g1 (Some u).

Definition capitalize_first_e (s : str) : exc str :=
  match star_letter (fun c => negb (is_alnum c)) s with
  | Some k =>
      new <- upper_group_e [Some (firstn (S k) s); Some (firstn k s);
                            Some (firstn 1 (skipn k s))] ;;
      ret (new ++ skipn (S k) s)
  | None => ret s
  end.

Equations? colon_sub_e (s : str) : exc str by wf (length s) lt :=
  colon_sub_e [] := ret [];
  colon_sub_e (c :: r) with inspect (colon_letter_at (c :: r)) => {
    | exist _ (Some k) _ :=
        join_e (upper_group_e [Some (c :: firstn (S k) r);
                               Some (c :: firstn k r);
                               Some (firstn 1 (skipn k r))])
               (colon_sub_e (skipn (S k) r));
    | exist _ None _ := join_e (ret [c]) (colon_sub_e r) }.
Proof. all: try (destruct r; cbn [length]; try rewrite length_skipn); lia. Qed.

Definition case_step_e (acc : exc (list str * bool)) (p : str)
  : exc (list str * bool) :=
  st <- acc ;;
  let (out, is_first_part) := st in
  if is_protected p then ret (out ++ [p], is_first_part)
  else
    let s := lower p in
    if is_first_part && search_letter s
    then s1 <- capitalize_first_e s ;;
         s2 <- colon_sub_e s1 ;;
         ret (out ++ [s2], false)
    else s2 <- colon_sub_e s ;;
         ret (out ++ [s2], is_first_part).

Definition sentence_case_preserve_braces_e (text : str) : exc str :=
  st <- fold_left case_step_e (split_braces text) (ret ([], true)) ;;
  ret (concat (fst st)).

Definition process_title_e (nlp : provider_e) (raw : str)
  : exc (str * bool) :=
  step1 <- brace_entities_preserve_existing_e nlp raw ;;
  step2 <- protect_acronyms_preserve_braces_e step1 ;;
  step3 <- sentence_case_preserve_braces_e step2 ;;
  ret (step3, negb (str_eqb step3 raw)).

(** An exception of the provider comes out of the pipeline. *)
Example process_title_e_provider_raises :
  process_title_e (fun _ => raise ProviderError) (lit "{a} b")
  = raise ProviderError.
Proof. reflexivity. Qed.

(** ** Unfolding equations of the scanning loops *)

Lemma split_braces_eq text :
  split_braces text =
  match search_brace text with
  | Some (pre, m, rest) => pre :: m :: split_braces rest
  | None => [text]
  end.
Proof.
  funelim (split_braces text); rewrite e; reflexivity.
Qed.

Lemma acronym_sub_eq prev c r :
  acronym_sub prev (c :: r) =
  match acronym_token_at prev (c :: r) with
  | Some (S k) =>
      repl (c :: firstn k r)
      ++ acronym_sub (Some (last (firstn k r) c)) (skipn k r)
  | _ => c :: acronym_sub (Some c) r
  end.
Proof.
  funelim (acronym_sub prev (c :: r)); rewrite e; reflexivity.
Qed.

Lemma colon_sub_eq c r :
  colon_sub (c :: r) =
  match colon_letter_at (c :: r) with
  | Some k =>
      (c :: firstn k r) ++ map upper_char (firstn 1 (skipn k r))
      ++ colon_sub (skipn (S k) r)
  | None => c :: colon_sub r
  end.
Proof.
  funelim (colon_sub (c :: r)); rewrite e; reflexivity.
Qed.

(** ** Facts on characters *)

Lemma is_lbrace_eq c : is_lbrace c = true <-> c = lbrace.
Proof. apply Ascii.eqb_eq. Qed.

Lemma is_rbrace_eq c : is_rbrace c = true <-> c = rbrace.
Proof. apply Ascii.eqb_eq. Qed.

Lemma is_lbrace_neq c : is_lbrace c = false <-> c <> lbrace.
Proof. apply Ascii.eqb_neq. Qed.

Lemma is_rbrace_neq c : is_rbrace c = false <-> c <> rbrace.
Proof. apply Ascii.eqb_neq. Qed.

(** Case analysis over the 256 characters. *)
Ltac by_cases_on c :=
  destruct c as [[] [] [] [] [] [] [] []]; vm_compute; intros;
  try reflexivity; try discriminate; try congruence; auto.

(** ** Shape of the segments *)

(** A protected span as the splitter cuts it: the opening marker, a body
    without closing marker, the closing marker. *)
Definition wrapped (p : str) : Prop :=
  exists body, p = lbrace :: body ++ [rbrace] /\ ~ In rbrace body.

(** No opening marker of [p] is followed by a closing one. *)
Definition no_pair (p : str) : Prop :=
  forall u v w, p <> u ++ lbrace :: v ++ rbrace :: w.

(** Neither marker occurs in [p]. *)
Definition marker_free (p : str) : Prop :=
  ~ In lbrace p /\ ~ In rbrace p.

Lemma lazy_close_some s m rest :
  lazy_close s = Some (m, rest) ->
  exists body, m = body ++ [rbrace] /\ ~ In rbrace body.
Proof.
  revert m rest; induction s as [|c r IH]; simpl; intros m rest H.
  - discriminate.
  - destruct (is_rbrace c) eqn:Ec.
    + inversion H; subst. apply is_rbrace_eq in Ec. subst c.
      exists []. split; [reflexivity|intros []].
    + destruct (lazy_close r) as [[m' rest']|]; [|discriminate].
      inversion H; subst. destruct (IH _ _ eq_refl) as (body & -> & Hb).
      exists (c :: body). split; [reflexivity|].
      apply is_rbrace_neq in Ec. intros [E|E]; [congruence|tauto].
Qed.

Lemma lazy_close_none s : lazy_close s = None -> ~ In rbrace s.
Proof.
  induction s as [|c r IH]; simpl; intros H.
  - intros [].
  - destruct (is_rbrace c) eqn:Ec; [discriminate|].
    destruct (lazy_close r) as [[m' rest']|]; [discriminate|].
    apply is_rbrace_neq in Ec. intros [E|E]; [congruence|]. now apply IH.
Qed.

Lemma match_brace_at_wrapped s m rest :
  match_brace_at s = Some (m, rest) -> wrapped m.
Proof.
  destruct s as [|c r]; simpl; [discriminate|].
  destruct (is_lbrace c) eqn:Ec; [|discriminate].
  destruct (lazy_close r) as [[m' rest']|] eqn:E; [|discriminate].
  intros H; inversion H; subst. apply is_lbrace_eq in Ec. subst c.
  destruct (lazy_close_some _ _ _ E) as (body & -> & Hb). now exists body.
Qed.

Lemma search_brace_wrapped s pre m rest :
  search_brace s = Some (pre, m, rest) -> wrapped m.
Proof.
  revert pre m rest; induction s as [|c r IH]; intros pre m rest.
  - simpl. discriminate.
  - cbn [search_brace].
    destruct (match_brace_at (c :: r)) as [[m' rest']|] eqn:E.
    + intros H; inversion H; subst. eapply match_brace_at_wrapped; eauto.
    + destruct (search_brace r) as [[[pre' m'] rest']|] eqn:E'; [|discriminate].
      intros H; inversion H; subst. eapply IH; eauto.
Qed.

Lemma wrapped_has_rbrace p : wrapped p -> In rbrace p.
Proof.
  intros (body & -> & _). right. apply in_or_app. right. now left.
Qed.

Lemma search_brace_pre s pre m rest :
  search_brace s = Some (pre, m, rest) -> ~ In lbrace pre.
Proof.
  revert pre m rest; induction s as [|c r IH]; intros pre m rest.
  - simpl. discriminate.
  - cbn [search_brace].
    destruct (match_brace_at (c :: r)) as [[m' rest']|] eqn:E.
    + intros H; inversion H; subst. intros [].
    + destruct (search_brace r) as [[[pre' m'] rest']|] eqn:E'; [|discriminate].
      intros H; inversion H; subst. intros [Hc|Hc]; [|eapply IH; eauto].
      subst c. simpl in E. change (is_lbrace lbrace) with true in E.
      destruct (lazy_close r) as [[? ?]|] eqn:El; [discriminate|].
      apply lazy_close_none in El. apply El.
      destruct (search_brace_split _ _ _ _ E') as [-> _].
      apply in_or_app. right. apply in_or_app. left.
      apply wrapped_has_rbrace. eapply search_brace_wrapped; eauto.
Qed.

Lemma search_brace_none s : search_brace s = None -> no_pair s.
Proof.
  induction s as [|c r IH].
  - intros _ u v w H. destruct u; discriminate.
  - cbn [search_brace].
    destruct (match_brace_at (c :: r)) as [[m' rest']|] eqn:E; [discriminate|].
    destruct (search_brace r) as [[[pre' m'] rest']|] eqn:E'; [discriminate|].
    intros _ u v w H. destruct u as [|c' u]; simpl in H; inversion H; subst.
    + simpl in E. change (is_lbrace lbrace) with true in E.
      destruct (lazy_close (v ++ rbrace :: w)) as [[? ?]|] eqn:El; [discriminate|].
      apply lazy_close_none in El. apply El, in_or_app. right. now left.
    + now apply (IH eq_refl u v w).
Qed.

Lemma startswith_lbrace p :
  startswith [lbrace] p = true <-> exists q, p = lbrace :: q.
Proof.
  destruct p as [|c q]; cbn [startswith].
  - split; [discriminate|intros [q H]; discriminate].
  - rewrite andb_true_r, Ascii.eqb_eq. split.
    + intros <-. now exists q.
    + intros [q' H]. now inversion H.
Qed.

Lemma endswith_rbrace p :
  endswith [rbrace] p = true <-> exists q, p = q ++ [rbrace].
Proof.
  unfold endswith. cbn [rev app]. split.
  - destruct (rev p) as [|c q] eqn:E; cbn [startswith]; [discriminate|].
    rewrite andb_true_r, Ascii.eqb_eq. intros <-.
    exists (rev q). rewrite <- (rev_involutive p), E. reflexivity.
  - intros [q ->]. rewrite rev_app_distr. cbn [rev app startswith].
    now rewrite Ascii.eqb_refl.
Qed.

Lemma is_protected_shape p :
  is_protected p = true <-> exists body, p = lbrace :: body ++ [rbrace].
Proof.
  unfold is_protected. rewrite andb_true_iff, startswith_lbrace, endswith_rbrace.
  split.
  - intros [[q ->] [q' H]]. destruct q' as [|c q']; simpl in H.
    + inversion H.
    + inversion H; subst. now exists q'.
  - intros [body ->]. split; [now eexists|]. now exists (lbrace :: body).
Qed.

Lemma wrapped_protected p : wrapped p -> is_protected p = true.
Proof. intros (body & -> & _). apply is_protected_shape. now exists body. Qed.

Lemma no_pair_unprotected p : no_pair p -> is_protected p = false.
Proof.
  intros H. destruct (is_protected p) eqn:E; [|reflexivity].
  apply is_protected_shape in E. destruct E as [body ->].
  exfalso. apply (H [] body []). reflexivity.
Qed.

Lemma no_lbrace_no_pair p : ~ In lbrace p -> no_pair p.
Proof.
  intros H u v w ->. apply H, in_or_app. right. now left.
Qed.

(** Every segment of a split is a protected span or holds no pair. *)
Lemma split_braces_shape s :
  Forall (fun p => wrapped p \/ no_pair p) (split_braces s).
Proof.
  induction s as [s IH] using (induction_ltof1 _ (@length ascii)).
  rewrite split_braces_eq.
  destruct (search_brace s) as [[[pre m] rest]|] eqn:E.
  - constructor; [|constructor].
    + right. apply no_lbrace_no_pair. eapply search_brace_pre; eauto.
    + left. eapply search_brace_wrapped; eauto.
    + apply IH. red. eapply search_brace_shorter; eauto.
  - constructor; [|constructor]. right. now apply search_brace_none.
Qed.

Lemma concat_split_braces (s : str) : concat (split_braces s) = s.
Proof.
  induction s as [s IH] using (induction_ltof1 _ (@length ascii)).
  rewrite split_braces_eq.
  destruct (search_brace s) as [[[pre m] rest]|] eqn:E.
  - destruct (search_brace_split _ _ _ _ E) as [Hs _].
    cbn [concat]. rewrite IH.
    + symmetry. exact Hs.
    + red. eapply search_brace_shorter; eauto.
  - simpl. apply app_nil_r.
Qed.

(** ** Properties of the Brace Splitter *)

(** C2. Concatenation invariant: joining the segments returned by
    [split_braces] in order gives back the input string, for every
    input. *)
Theorem split_braces_concat (s : str) : concat (split_braces s) = s.
Proof. apply concat_split_braces. Qed.

(** Titles whose markers are balanced and not nested: every opening
    marker is closed before the next one opens, and no closing marker
    stands alone.  [inside] tells whether a marker pair is open. *)
Fixpoint flat (inside : bool) (s : str) : bool :=
  match s with
  | [] => negb inside
  | c :: r =>
      if is_lbrace c then negb inside && flat true r
      else if is_rbrace c then inside && flat false r
      else flat inside r
  end.

Lemma flat_inside_closes s : flat true s = true -> In rbrace s.
Proof.
  induction s as [|c r IH]; cbn [flat]; [discriminate|].
  destruct (is_lbrace c); [discriminate|].
  destruct (is_rbrace c) eqn:E.
  - apply is_rbrace_eq in E. subst c. now left.
  - intros H. right. now apply IH.
Qed.

Lemma flat_no_pair s :
  flat false s = true -> no_pair s -> marker_free s.
Proof.
  induction s as [|c r IH]; cbn [flat]; intros H Hn.
  - split; intros [].
  - destruct (is_lbrace c) eqn:El.
    + exfalso. apply is_lbrace_eq in El. subst c. cbn [negb andb] in H.
      apply flat_inside_closes, in_split in H. destruct H as (v & w & ->).
      apply (Hn [] v w). reflexivity.
    + destruct (is_rbrace c) eqn:Er; [discriminate|].
      apply is_lbrace_neq in El. apply is_rbrace_neq in Er.
      destruct IH as [H1 H2]; [assumption| |].
      * intros u v w ->. apply (Hn (c :: u) v w). reflexivity.
      * split; intros [E|E]; congruence || auto.
Qed.

Lemma flat_outside_prefix pre t :
  flat false (pre ++ t) = true -> ~ In lbrace pre ->
  ~ In rbrace pre /\ flat false t = true.
Proof.
  induction pre as [|c pre IH]; cbn [app flat]; intros H Hn.
  - split; [intros []|assumption].
  - destruct (is_lbrace c) eqn:El.
    + exfalso. apply is_lbrace_eq in El. apply Hn. now left.
    + destruct (is_rbrace c) eqn:Er; [discriminate|].
      apply is_rbrace_neq in Er. destruct IH as [H1 H2]; [assumption| |].
      * intros E. apply Hn. now right.
      * split; [|assumption]. intros [E|E]; congruence || auto.
Qed.

Lemma flat_inside_body body t :
  flat true (body ++ rbrace :: t) = true -> ~ In rbrace body ->
  flat false t = true.
Proof.
  induction body as [|c body IH]; cbn [app flat]; intros H Hn.
  - exact H.
  - destruct (is_lbrace c); [discriminate|].
    destruct (is_rbrace c) eqn:Er.
    + exfalso. apply is_rbrace_eq in Er. apply Hn. now left.
    + apply IH; [assumption|]. intros E. apply Hn. now right.
Qed.

Lemma split_braces_flat s :
  flat false s = true ->
  Forall (fun p => wrapped p \/ marker_free p) (split_braces s).
Proof.
  induction s as [s IH] using (induction_ltof1 _ (@length ascii)).
  intros H. rewrite split_braces_eq.
  destruct (search_brace s) as [[[pre m] rest]|] eqn:E.
  - pose proof (search_brace_pre _ _ _ _ E) as Hpre.
    pose proof (search_brace_wrapped _ _ _ _ E) as Hm.
    destruct (search_brace_split _ _ _ _ E) as [Hs _]. subst s.
    destruct (flat_outside_prefix _ _ H Hpre) as [Hpre' H'].
    destruct Hm as (body & Hb & Hnb).
    constructor; [right; now split|].
    constructor; [left; now exists body|].
    apply IH; [red; eapply search_brace_shorter; eauto|].
    rewrite Hb in H'. cbn [app flat] in H'.
    rewrite <- app_assoc in H'. cbn [app negb andb] in H'.
    change (is_lbrace lbrace) with true in H'. cbv iota in H'.
    eapply flat_inside_body; eauto.
  - constructor; [|constructor]. right.
    apply flat_no_pair; [assumption|]. now apply search_brace_none.
Qed.

(** The reading of the segment shape that leaves no marker character
    outside the protected segments. *)
Definition segment_strict (p : str) : Prop :=
  is_protected p = true \/ marker_free p.

(** C9, as stated, fails on a closing marker without opening one: the
    only segment of [a}b] is the text itself, which is not wrapped and
    holds a marker character. *)
Lemma split_braces_stray_marker :
  split_braces (lit "a}b") = [lit "a}b"]
  /\ ~ Forall segment_strict (split_braces (lit "a}b")).
Proof.
  split; [reflexivity|].
  change (split_braces (lit "a}b")) with [lit "a}b"].
  intros H. inversion H as [|? ? [Hp|[_ Hm]] _]; subst.
  - discriminate Hp.
  - apply Hm. vm_compute. tauto.
Qed.

(** C9, amended. For every input, each segment returned by
    [split_braces] is either a protected span, made of the opening
    marker, a body without closing marker (the shortest span from that
    opening marker) and the closing marker, or a text in which no opening
    marker is followed by a closing one, so that unbalanced markers stay
    in it as plain text; when the markers of the input are balanced and
    not nested, the segments of the second kind hold no marker character
    at all; two adjacent protected spans are two segments. *)
Theorem split_braces_segments :
  (forall s, Forall (fun p => wrapped p \/ no_pair p) (split_braces s))
  /\ (forall s, flat false s = true ->
                Forall (fun p => wrapped p \/ marker_free p) (split_braces s))
  /\ split_braces (lit "{A}{B}") = [[]; lit "{A}"; []; lit "{B}"; []].
Proof.
  split; [apply split_braces_shape|].
  split; [apply split_braces_flat|reflexivity].
Qed.

Lemma split_braces_segments_witness :
  flat false (lit "a {B c} d{}") = true
  /\ Forall (fun p => wrapped p \/ marker_free p)
            (split_braces (lit "a {B c} d{}")).
Proof.
  split; [reflexivity|].
  apply (proj1 (proj2 split_braces_segments) (lit "a {B c} d{}")).
  reflexivity.
Defined.

(** ** Entity spans: sorting, merging, wrapping *)

Lemma merge_step_nil s : merge_step [] s = [s].
Proof. destruct s; reflexivity. Qed.

Lemma merge_step_snoc merged c d a b :
  merge_step (merged ++ [(c, d)]) (a, b) =
  if a <=? d then merged ++ [(c, Nat.max d b)]
  else merged ++ [(c, d); (a, b)].
Proof.
  unfold merge_step. rewrite rev_app_distr. cbn [rev app].
  rewrite removelast_last, <- app_assoc. cbn [app].
  destruct (Nat.ltb_spec d a), (Nat.leb_spec a d); try lia; reflexivity.
Qed.

(** Spans in ascending order, none before [lo], none reversed. *)
Fixpoint chain (lo : nat) (l : list span) : Prop :=
  match l with
  | [] => True
  | (a, b) :: m => lo <= a /\ a <= b /\ chain b m
  end.

Lemma chain_snoc lo m c d a b :
  chain lo (m ++ [(c, d)]) -> d <= a -> a <= b ->
  chain lo (m ++ [(c, d); (a, b)]).
Proof.
  revert lo; induction m as [|[x y] m IH]; simpl; intros lo H Hda Hab.
  - tauto.
  - destruct H as (? & ? & H). auto.
Qed.

Lemma chain_widen lo m c d d' :
  chain lo (m ++ [(c, d)]) -> d <= d' -> chain lo (m ++ [(c, d')]).
Proof.
  revert lo; induction m as [|[x y] m IH]; simpl; intros lo H Hd.
  - intuition lia.
  - destruct H as (? & ? & H). eauto.
Qed.

Definition ordered (s : span) : Prop := fst s <= snd s.

Lemma merge_step_chain merged s :
  chain 0 merged -> ordered s -> chain 0 (merge_step merged s).
Proof.
  destruct s as [a b]. unfold ordered. cbn [fst snd]. intros H Hab.
  destruct merged as [|x l] using rev_ind.
  - simpl. lia.
  - clear IHl. destruct x as [c d]. rewrite merge_step_snoc.
    destruct (Nat.leb_spec a d).
    + eapply chain_widen; eauto. lia.
    + apply chain_snoc; auto. lia.
Qed.

Lemma merge_spans_chain spans :
  Forall ordered spans -> chain 0 (merge_spans spans).
Proof.
  unfold merge_spans. assert (H0 : chain 0 []) by exact I. revert H0.
  generalize (@nil span) as acc.
  induction spans as [|s l IH]; simpl; intros acc Hacc Hall; [exact Hacc|].
  inversion Hall; subst. apply IH; [|assumption].
  now apply merge_step_chain.
Qed.

Lemma insert_span_Forall (P : span -> Prop) x l :
  P x -> Forall P l -> Forall P (insert_span x l).
Proof.
  intros Hx; induction 1 as [|y l Hy Hl IH]; simpl.
  - now constructor.
  - destruct (span_leb x y); repeat constructor; auto.
Qed.

Lemma sort_spans_Forall (P : span -> Prop) l :
  Forall P l -> Forall P (sort_spans l).
Proof.
  induction 1; simpl; [constructor|]. now apply insert_span_Forall.
Qed.

(** ** Deleting the marker characters *)

Definition is_marker (c : ascii) : bool := is_lbrace c || is_rbrace c.

Definition strip (s : str) : str := filter (fun c => negb (is_marker c)) s.

Lemma strip_app a b : strip (a ++ b) = strip a ++ strip b.
Proof. apply filter_app. Qed.

Lemma strip_concat l : strip (concat l) = concat (map strip l).
Proof.
  induction l as [|x l IH]; simpl; [reflexivity|].
  now rewrite strip_app, IH.
Qed.

Lemma strip_wrap tok : strip (lbrace :: tok ++ [rbrace]) = strip tok.
Proof.
  change (lbrace :: tok ++ [rbrace]) with ([lbrace] ++ tok ++ [rbrace]).
  rewrite !strip_app. change (strip [lbrace]) with (@nil ascii).
  change (strip [rbrace]) with (@nil ascii). simpl. apply app_nil_r.
Qed.

Lemma slices_join lo a b (t : str) :
  lo <= a -> a <= b ->
  slice lo a t ++ slice a b t ++ slice_from b t = slice_from lo t.
Proof.
  intros H1 H2. unfold slice, slice_from.
  symmetry. etransitivity; [symmetry; apply (firstn_skipn (a - lo))|].
  f_equal. rewrite skipn_skipn. replace (a - lo + lo) with a by lia.
  etransitivity; [symmetry; apply (firstn_skipn (b - a))|].
  f_equal. rewrite skipn_skipn. now replace (b - a + a) with b by lia.
Qed.

Lemma emit_strip text merged : forall out lo,
  chain lo merged ->
  strip (concat (fst (fold_left (emit_step text) merged (out, lo))
                 ++ [slice_from
                       (snd (fold_left (emit_step text) merged (out, lo)))
                       text]))
  = strip (concat out) ++ strip (slice_from lo text).
Proof.
  induction merged as [|[a b] m IH]; intros out lo H.
  - simpl. rewrite concat_app, strip_app. simpl. now rewrite app_nil_r.
  - destruct H as (H1 & H2 & H3). cbn [fold_left emit_step].
    rewrite IH by assumption.
    rewrite concat_app, strip_app. cbn [concat].
    rewrite app_nil_r, strip_app, strip_wrap, <- app_assoc, <- !strip_app.
    now rewrite <- (app_assoc (slice lo a text)), slices_join.
Qed.

(** The contract of the Entity Span Provider on one entity: the offsets
    delimit a non-empty range inside the text. *)
Definition valid_span (text : str) (e : ent) : Prop :=
  start_char e < end_char e /\ end_char e <= length text.

Lemma entity_spans_ordered text ents :
  Forall (valid_span text) ents -> Forall ordered (entity_spans ents).
Proof.
  unfold entity_spans. induction 1 as [|e l He Hl IH]; simpl; [constructor|].
  destruct (in_labels (label_ e)); simpl; [|assumption].
  constructor; [|assumption]. destruct He. unfold ordered. simpl. lia.
Qed.

Lemma brace_entities_strip nlp text :
  Forall (valid_span text) (nlp text) ->
  strip (brace_entities nlp text) = strip text.
Proof.
  intros H. unfold brace_entities.
  apply entity_spans_ordered in H.
  destruct (entity_spans (nlp text)) as [|s l] eqn:E; [reflexivity|].
  pose proof (merge_spans_chain _ (sort_spans_Forall _ _ H)) as Hc.
  pose proof (emit_strip text _ [] 0 Hc) as Hs.
  destruct (fold_left (emit_step text) (merge_spans (sort_spans (s :: l)))
              ([], 0)) as [out lo'].
  exact Hs.
Qed.

Lemma repl_strip tok : strip (repl tok) = strip tok.
Proof.
  unfold repl. destruct (fullmatch_caps tok || search_digit tok);
    [apply strip_wrap|reflexivity].
Qed.

Lemma acronym_sub_strip s : forall prev,
  strip (acronym_sub prev s) = strip s.
Proof.
  induction s as [s IH] using (induction_ltof1 _ (@length ascii)).
  intros prev. destruct s as [|c r]; [reflexivity|].
  rewrite acronym_sub_eq.
  destruct (acronym_token_at prev (c :: r)) as [[|k]|].
  - change (c :: acronym_sub (Some c) r) with ([c] ++ acronym_sub (Some c) r).
    change (c :: r) with ([c] ++ r). rewrite !strip_app. f_equal.
    apply IH. red. simpl. lia.
  - rewrite strip_app, repl_strip, IH.
    + rewrite <- strip_app. simpl. now rewrite firstn_skipn.
    + red. rewrite length_skipn. simpl. lia.
  - change (c :: acronym_sub (Some c) r) with ([c] ++ acronym_sub (Some c) r).
    change (c :: r) with ([c] ++ r). rewrite !strip_app. f_equal.
    apply IH. red. simpl. lia.
Qed.

Lemma protect_acronyms_strip chunk :
  strip (protect_acronyms_preserve_braces chunk) = strip chunk.
Proof.
  unfold protect_acronyms_preserve_braces.
  rewrite <- (concat_split_braces chunk) at 2.
  rewrite !strip_concat, map_map. f_equal. apply map_ext.
  intros p. destruct (is_protected p); [reflexivity|apply acronym_sub_strip].
Qed.

(** ** Properties of the protection passes *)

(** C5. Merge correctness: a span that follows the current merged span
    is coalesced with it exactly when its start is at most the end of the
    merged span; so two spans in start order merge exactly in that case,
    the adjacent spans [0,3) and [3,5) become one protected span, the
    spans [0,3) and [5,8) stay two, and the text between them is kept. *)
Theorem merge_correct :
  (forall merged c d a b,
      merge_step (merged ++ [(c, d)]) (a, b) =
      if a <=? d then merged ++ [(c, Nat.max d b)]
      else merged ++ [(c, d); (a, b)])
  /\ (forall c d a b,
         merge_spans [(c, d); (a, b)] =
         if a <=? d then [(c, Nat.max d b)] else [(c, d); (a, b)])
  /\ brace_entities (fixed_spans [(0, 3); (3, 5)]) (lit "abcdefgh")
     = lit "{abcde}fgh"
  /\ brace_entities (fixed_spans [(3, 5); (0, 3)]) (lit "abcdefgh")
     = lit "{abcde}fgh"
  /\ brace_entities (fixed_spans [(0, 3); (5, 8)]) (lit "abcdefgh")
     = lit "{abc}de{fgh}"
  /\ brace_entities (fixed_spans [(0, 3); (4, 8)]) (lit "abcdefgh")
     = lit "{abc}d{efgh}".
Proof.
  split; [apply merge_step_snoc|].
  split; [|repeat split; reflexivity].
  intros c d a b. unfold merge_spans. cbn [fold_left].
  rewrite merge_step_nil. apply (merge_step_snoc []).
Qed.

(** A span whose end lies before its start makes [brace_entities]
    repeat a part of the text. *)
Example brace_entities_off_contract :
  brace_entities (fixed_spans [(5, 2)]) (lit "abcdefgh")
  = lit "abcde{}cdefgh".
Proof. reflexivity. Qed.

(** C10. The two protection passes only insert marker characters: when
    the spans the provider returns for a text lie inside it, deleting
    every marker character from the output of [brace_entities] gives the
    same string as deleting them from the text, and the same holds for
    [protect_acronyms_preserve_braces] on every text. *)
Theorem protection_only_inserts_markers (nlp : provider) (text : str) :
  Forall (valid_span text) (nlp text) ->
  strip (brace_entities nlp text) = strip text
  /\ strip (protect_acronyms_preserve_braces text) = strip text.
Proof.
  intros H. split; [now apply brace_entities_strip|].
  apply protect_acronyms_strip.
Qed.

Lemma protection_only_inserts_markers_witness :
  Forall (valid_span (lit "the LORD of NASA"))
         (lord_provider (lit "the LORD of NASA"))
  /\ strip (brace_entities lord_provider (lit "the LORD of NASA"))
     = lit "the LORD of NASA"
  /\ strip (protect_acronyms_preserve_braces (lit "the LORD of NASA"))
     = lit "the LORD of NASA".
Proof.
  assert (H : Forall (valid_span (lit "the LORD of NASA"))
                     (lord_provider (lit "the LORD of NASA"))).
  { vm_compute. repeat constructor. }
  split; [exact H|].
  exact (protection_only_inserts_markers lord_provider (lit "the LORD of NASA") H).
Defined.

(** ** The pipeline on every input *)

Lemma str_eqb_eq a b : str_eqb a b = true <-> a = b.
Proof.
  unfold str_eqb. destruct (list_eq_dec ascii_dec a b); split;
    congruence.
Qed.

Lemma valid_span_empty ents : Forall (valid_span []) ents -> ents = [].
Proof.
  destruct ents as [|e l]; [reflexivity|].
  intros H. inversion H as [|? ? [H1 H2] _]; subst. simpl in H2. lia.
Qed.

Lemma split_braces_nil : split_braces [] = [[]].
Proof. reflexivity. Qed.

Lemma process_title_nil nlp :
  nlp [] = [] -> process_title nlp [] = ([], false).
Proof.
  intros E. unfold process_title.
  assert (E1 : brace_entities_preserve_existing nlp [] = []).
  { unfold brace_entities_preserve_existing. rewrite split_braces_nil.
    cbn [map concat]. change (is_protected []) with false. cbv iota.
    unfold brace_entities. rewrite E. reflexivity. }
  rewrite E1. reflexivity.
Qed.

(** A provider that breaks its contract on the empty text, with a span
    from 0 to 0, makes the pipeline wrap nothing in markers. *)
Example process_title_nil_off_contract :
  process_title (fixed_spans [(0, 0)]) [] = (lit "{}", true).
Proof. reflexivity. Qed.

(** ** The Sentence Caser as a recursion over the segments *)

(** The outputs the loop appends for [parts], from the value [first] of
    [is_first_part]. *)
Fixpoint case_parts (first : bool) (parts : list str) : list str :=
  match parts with
  | [] => []
  | p :: ps =>
      if is_protected p then p :: case_parts first ps
      else if first && search_letter (lower p)
           then colon_sub (capitalize_first (lower p)) :: case_parts false ps
           else colon_sub (lower p) :: case_parts first ps
  end.

(** The value of [is_first_part] after the loop has run over [parts]. *)
Fixpoint flag_after (first : bool) (parts : list str) : bool :=
  match parts with
  | [] => first
  | p :: ps =>
      if is_protected p then flag_after first ps
      else if first && search_letter (lower p) then flag_after false ps
           else flag_after first ps
  end.

Lemma case_fold parts : forall out first,
  fold_left case_step parts (out, first)
  = (out ++ case_parts first parts, flag_after first parts).
Proof.
  induction parts as [|p ps IH]; intros out first; cbn [fold_left].
  - now rewrite app_nil_r.
  - unfold case_step at 2. cbn [case_parts flag_after].
    destruct (is_protected p).
    + rewrite IH, <- app_assoc. reflexivity.
    + destruct (first && search_letter (lower p));
        rewrite IH, <- app_assoc; reflexivity.
Qed.

Lemma sentence_case_eq text :
  sentence_case_preserve_braces text
  = concat (case_parts true (split_braces text)).
Proof.
  unfold sentence_case_preserve_braces. now rewrite case_fold.
Qed.

Lemma case_parts_app first l1 l2 :
  case_parts first (l1 ++ l2)
  = case_parts first l1 ++ case_parts (flag_after first l1) l2.
Proof.
  revert first; induction l1 as [|p ps IH]; intros first; [reflexivity|].
  cbn [app case_parts flag_after]. destruct (is_protected p).
  - now rewrite IH.
  - destruct (first && search_letter (lower p)); now rewrite IH.
Qed.

(** ** The two re-capitalization rules *)

Lemma lower_char_letter c : is_letter (lower_char c) = is_letter c.
Proof. by_cases_on c. Qed.

Lemma lower_char_idem c : lower_char (lower_char c) = lower_char c.
Proof. by_cases_on c. Qed.

Lemma lower_upper_char c : lower_char (upper_char c) = lower_char c.
Proof. by_cases_on c. Qed.

Lemma upper_char_idem c : upper_char (upper_char c) = upper_char c.
Proof. by_cases_on c. Qed.

Lemma upper_char_letter c : is_letter (upper_char c) = is_letter c.
Proof. by_cases_on c. Qed.

Lemma lower_char_space c : is_space c = true -> lower_char c = c.
Proof. by_cases_on c. Qed.

Lemma lower_char_alnum c : is_alnum (lower_char c) = is_alnum c.
Proof. by_cases_on c. Qed.

Lemma alnum_not_space c : is_alnum c = true -> is_space c = false.
Proof. by_cases_on c. Qed.

Lemma alnum_not_colon c : is_alnum c = true -> is_colon c = false.
Proof. by_cases_on c. Qed.

Lemma letter_alnum c : is_letter c = true -> is_alnum c = true.
Proof. unfold is_alnum. now intros ->. Qed.

Lemma space_not_letter c : is_space c = true -> is_letter c = false.
Proof. by_cases_on c. Qed.

Lemma space_not_colon c : is_space c = true -> is_colon c = false.
Proof. by_cases_on c. Qed.

Lemma upper_char_other c : is_letter c = false -> upper_char c = c.
Proof. by_cases_on c. Qed.

Lemma is_colon_eq c : is_colon c = true <-> c = colon.
Proof. apply Ascii.eqb_eq. Qed.

Lemma search_letter_lower s : search_letter (lower s) = search_letter s.
Proof.
  unfold search_letter, lower. induction s as [|c r IH]; simpl; [reflexivity|].
  now rewrite lower_char_letter, IH.
Qed.

Lemma firstn_length_app {A} (p q : list A) : firstn (length p) (p ++ q) = p.
Proof. induction p; simpl; congruence. Qed.

Lemma skipn_length_app {A} (p q : list A) : skipn (length p) (p ++ q) = q.
Proof. induction p; simpl; congruence. Qed.

Lemma split_at_char {A} (k : nat) (l : list A) :
  l = firstn k l ++ firstn 1 (skipn k l) ++ skipn (S k) l.
Proof.
  rewrite <- (firstn_skipn k l) at 1. f_equal.
  rewrite <- (firstn_skipn 1 (skipn k l)) at 1. f_equal.
  now rewrite skipn_skipn.
Qed.

Lemma forallb_Forall_true {A} (f : A -> bool) l :
  forallb f l = true <-> Forall (fun x => f x = true) l.
Proof.
  induction l as [|x l IH]; simpl.
  - split; [constructor|reflexivity].
  - rewrite andb_true_iff, IH. split.
    + intros [? ?]. now constructor.
    + intros H. inversion H. tauto.
Qed.

Lemma star_letter_app cls pre c rest :
  Forall (fun x => is_letter x = false) pre -> cls c = false ->
  star_letter cls (pre ++ c :: rest)
  = if forallb cls pre && is_letter c then Some (length pre) else None.
Proof.
  intros Hpre Hc. induction Hpre as [|x pre Hx Hpre IH]; cbn [app star_letter].
  - rewrite Hc. reflexivity.
  - rewrite IH, Hx. cbn [forallb length]. destruct (cls x); [|reflexivity].
    cbn [andb]. destruct (forallb cls pre && is_letter c); reflexivity.
Qed.

(** What a match of [X*[A-Za-z]] looks like. *)
Lemma star_letter_some cls l k :
  star_letter cls l = Some k ->
  exists u c v, l = u ++ c :: v /\ length u = k
                /\ forallb cls u = true /\ is_letter c = true.
Proof.
  revert k; induction l as [|x l IH]; cbn [star_letter]; intros k H.
  - discriminate.
  - assert (Hstop : (if is_letter x then Some 0 else None) = Some k ->
                    exists u c v, x :: l = u ++ c :: v /\ length u = k
                                  /\ forallb cls u = true /\ is_letter c = true).
    { destruct (is_letter x) eqn:E; [|discriminate]. intros H'; inversion H'.
      exists [], x, l. auto. }
    destruct (cls x) eqn:Ex; [|auto].
    destruct (star_letter cls l) as [k'|]; [|auto].
    inversion H; subst. destruct (IH _ eq_refl) as (u & c & v & -> & <- & Hu & Hc).
    exists (x :: u), c, v. cbn [forallb]. rewrite Ex, Hu. auto.
Qed.

Lemma capitalize_first_app pre c rest :
  Forall (fun x => is_alnum x = false) pre -> is_alnum c = true ->
  capitalize_first (pre ++ c :: rest)
  = pre ++ (if is_letter c then upper_char c else c) :: rest.
Proof.
  intros Hpre Hc. unfold capitalize_first.
  rewrite star_letter_app.
  - replace (forallb (fun c0 => negb (is_alnum c0)) pre) with true.
    + cbn [andb]. destruct (is_letter c); [|reflexivity].
      rewrite firstn_length_app, skipn_length_app.
      change (S (length pre)) with (1 + length pre).
      rewrite <- skipn_skipn, skipn_length_app. reflexivity.
    + symmetry. apply forallb_Forall_true.
      eapply Forall_impl; [|exact Hpre]. simpl. now intros a ->.
  - eapply Forall_impl; [|exact Hpre]. intros a Ha.
    destruct (is_letter a) eqn:E; [|reflexivity].
    apply letter_alnum in E. congruence.
  - now rewrite Hc.
Qed.

Lemma capitalize_first_none s :
  search_letter s = false -> capitalize_first s = s.
Proof.
  intros H. unfold capitalize_first.
  destruct (star_letter _ s) as [k|] eqn:E; [|reflexivity].
  apply star_letter_some in E. destruct E as (u & c & v & -> & _ & _ & Hc).
  unfold search_letter in H. rewrite existsb_app in H. simpl in H.
  rewrite Hc, orb_true_r in H. discriminate.
Qed.

Lemma colon_sub_match c0 r k :
  colon_letter_at (c0 :: r) = Some k ->
  exists u c v, r = u ++ c :: v /\ length u = k
                /\ forallb is_space u = true /\ is_letter c = true
                /\ c0 = colon
                /\ colon_sub (c0 :: r) = c0 :: u ++ upper_char c :: colon_sub v.
Proof.
  intros H. rewrite colon_sub_eq, H. cbn [colon_letter_at] in H.
  destruct (is_colon c0) eqn:E0; [|discriminate].
  apply is_colon_eq in E0.
  apply star_letter_some in H. destruct H as (u & c & v & -> & <- & Hu & Hc).
  exists u, c, v. repeat (split; [assumption || reflexivity|]).
  rewrite firstn_length_app, skipn_length_app.
  change (S (length u)) with (1 + length u).
  rewrite <- skipn_skipn, skipn_length_app. reflexivity.
Qed.

Lemma colon_sub_nomatch c0 r :
  colon_letter_at (c0 :: r) = None -> colon_sub (c0 :: r) = c0 :: colon_sub r.
Proof. intros H. now rewrite colon_sub_eq, H. Qed.

(** Text without colon is copied. *)
Lemma colon_sub_skip pre rest :
  Forall (fun x => is_colon x = false) pre ->
  colon_sub (pre ++ rest) = pre ++ colon_sub rest.
Proof.
  induction 1 as [|x pre Hx Hpre IH]; [reflexivity|].
  cbn [app]. rewrite colon_sub_nomatch, IH; [reflexivity|].
  cbn [colon_letter_at]. now rewrite Hx.
Qed.

(** A prefix without letter, closed by a character the rule leaves as it
    is, is copied. *)
Lemma colon_sub_prefix pre c rest :
  Forall (fun x => is_letter x = false) pre ->
  upper_char c = c -> is_colon c = false -> is_space c = false ->
  colon_sub (pre ++ c :: rest) = pre ++ c :: colon_sub rest.
Proof.
  intros Hpre Hu Hc Hs. induction Hpre as [|x pre Hx Hpre IH]; cbn [app].
  - rewrite colon_sub_nomatch; [reflexivity|].
    cbn [colon_letter_at]. now rewrite Hc.
  - destruct (colon_letter_at (x :: pre ++ c :: rest)) as [k|] eqn:E.
    + assert (E' := E). cbn [colon_letter_at] in E'.
      destruct (is_colon x); [|discriminate].
      rewrite star_letter_app in E' by assumption.
      destruct (forallb is_space pre && is_letter c); [|discriminate].
      inversion E'; subst k. rewrite colon_sub_eq, E.
      rewrite firstn_length_app, skipn_length_app.
      change (S (length pre)) with (1 + length pre).
      rewrite <- skipn_skipn, skipn_length_app. cbn [firstn map skipn app].
      rewrite Hu. reflexivity.
    + rewrite colon_sub_nomatch by assumption. now rewrite IH.
Qed.

(** A letter after a colon and white space is upper-cased wherever the
    colon stands in the text. *)
Lemma colon_sub_hits ws c v : forall u,
  forallb is_space ws = true -> is_letter c = true ->
  exists u', length u' = length u
    /\ colon_sub (u ++ colon :: ws ++ c :: v)
       = u' ++ colon :: ws ++ upper_char c :: colon_sub v.
Proof.
  intros u Hws Hc.
  induction u as [u IH] using (induction_ltof1 _ (@length ascii)).
  destruct u as [|x u]; cbn [app].
  - exists []. split; [reflexivity|].
    assert (E : colon_letter_at (colon :: ws ++ c :: v) = Some (length ws)).
    { cbn [colon_letter_at]. change (is_colon colon) with true. cbv iota.
      rewrite star_letter_app, Hws, Hc; [reflexivity| |].
      - apply forallb_Forall_true in Hws.
        eapply Forall_impl; [|exact Hws]. apply space_not_letter.
      - destruct (is_space c) eqn:E; [|reflexivity].
        apply space_not_letter in E. congruence. }
    rewrite colon_sub_eq, E.
    rewrite firstn_length_app, skipn_length_app.
    change (S (length ws)) with (1 + length ws).
    rewrite <- skipn_skipn, skipn_length_app. cbn [firstn map skipn app].
    reflexivity.
  - destruct (colon_letter_at (x :: u ++ colon :: ws ++ c :: v)) as [k|] eqn:E.
    + apply colon_sub_match in E.
      destruct E as (a & l & b & Heq & _ & Ha & Hl & _ & ->).
      apply app_eq_app in Heq. destruct Heq as [m [[Hu Hm]|[Hu Hm]]].
      * destruct m as [|y m]; simpl in Hm; inversion Hm; subst.
        -- discriminate Hl.
        -- destruct (IH m) as (m' & Hlen & Hm').
           { red. simpl. rewrite length_app. simpl. lia. }
           rewrite Hm'. exists (x :: a ++ upper_char y :: m').
           split; [simpl; rewrite !length_app; simpl; lia|].
           simpl. rewrite <- app_assoc. reflexivity.
      * exfalso. destruct m as [|y m]; simpl in Hm; inversion Hm; subst.
        -- discriminate Hl.
        -- rewrite forallb_app in Ha. simpl in Ha.
           rewrite andb_false_r in Ha. discriminate.
    + rewrite colon_sub_nomatch by assumption.
      destruct (IH u) as (u' & Hlen & Hu'); [red; simpl; lia|].
      rewrite Hu'. exists (x :: u'). split; [simpl; lia|reflexivity].
Qed.

(** ** Character-wise view of the Sentence Caser *)

Definition same_or_upper (a b : ascii) : Prop := a = b \/ a = upper_char b.

Lemma same_or_upper_refl s : Forall2 same_or_upper s s.
Proof. induction s; constructor; auto. now left. Qed.

Lemma same_or_upper_map s : Forall2 same_or_upper (map upper_char s) s.
Proof. induction s; constructor; auto. now right. Qed.

Lemma capitalize_first_pointwise s :
  Forall2 same_or_upper (capitalize_first s) s.
Proof.
  unfold capitalize_first.
  destruct (star_letter _ s) as [k|]; [|apply same_or_upper_refl].
  rewrite (split_at_char k s) at 4.
  repeat apply Forall2_app;
    auto using same_or_upper_refl, same_or_upper_map.
Qed.

Lemma colon_sub_pointwise s : Forall2 same_or_upper (colon_sub s) s.
Proof.
  induction s as [s IH] using (induction_ltof1 _ (@length ascii)).
  destruct s as [|c r]; [constructor|].
  rewrite colon_sub_eq. destruct (colon_letter_at (c :: r)) as [k|].
  - rewrite (split_at_char k r) at 4.
    change (c :: firstn k r ++ firstn 1 (skipn k r) ++ skipn (S k) r)
      with ((c :: firstn k r) ++ firstn 1 (skipn k r) ++ skipn (S k) r).
    repeat apply Forall2_app;
      auto using same_or_upper_refl, same_or_upper_map.
    apply IH. red. rewrite length_skipn. simpl. lia.
  - constructor; [now left|]. apply IH. red. simpl. lia.
Qed.

(** ** Segments around the one where the first-letter rule fires *)

(** What the Sentence Caser emits for segments on which the first-letter
    rule does not fire. *)
Definition case_rest (parts : list str) : list str :=
  map (fun q => if is_protected q then q else colon_sub (lower q)) parts.

(** A segment that does not consume the first-letter rule. *)
Definition no_first_letter (q : str) : Prop :=
  is_protected q = true \/ search_letter q = false.

Lemma case_parts_false parts : case_parts false parts = case_rest parts.
Proof.
  induction parts as [|p ps IH]; cbn [case_parts case_rest map]; [reflexivity|].
  fold (case_rest ps). rewrite IH. cbn [andb].
  now destruct (is_protected p).
Qed.

Lemma flag_after_false parts : flag_after false parts = false.
Proof.
  induction parts as [|p ps IH]; cbn [flag_after andb]; [reflexivity|].
  now destruct (is_protected p).
Qed.

Lemma case_parts_before parts :
  Forall no_first_letter parts ->
  case_parts true parts = case_rest parts /\ flag_after true parts = true.
Proof.
  induction 1 as [|p ps Hp Hps [IH1 IH2]];
    cbn [case_parts flag_after case_rest map]; [auto|].
  fold (case_rest ps). destruct (is_protected p) eqn:E.
  - now rewrite IH1.
  - destruct Hp as [Hp|Hp]; [congruence|].
    rewrite search_letter_lower, Hp. cbn [andb]. now rewrite IH1.
Qed.

Lemma flag_after_spent parts first :
  Exists (fun q => is_protected q = false /\ search_letter q = true) parts ->
  flag_after first parts = false.
Proof.
  intros H. revert first.
  induction H as [p ps [Hp Hl]|p ps H IH]; intros first; cbn [flag_after].
  - rewrite Hp, search_letter_lower, Hl.
    destruct first; cbn [andb]; apply flag_after_false.
  - destruct (is_protected p); [apply IH|].
    destruct (first && search_letter (lower p)); apply IH.
Qed.

Lemma lower_app a b : lower (a ++ b) = lower a ++ lower b.
Proof. apply map_app. Qed.

Lemma lower_char_digit c :
  is_alnum c = true -> is_letter c = false -> lower_char c = c.
Proof. by_cases_on c. Qed.

Lemma lower_spaces ws : forallb is_space ws = true -> lower ws = ws.
Proof.
  induction ws as [|x ws IH]; simpl; [reflexivity|].
  rewrite andb_true_iff. intros [Hx Hws].
  now rewrite (lower_char_space _ Hx), IH.
Qed.

Lemma lower_non_alnum pre :
  Forall (fun x => is_alnum x = false) pre ->
  Forall (fun x => is_alnum x = false) (lower pre).
Proof.
  induction 1; simpl; constructor; auto. now rewrite lower_char_alnum.
Qed.

Lemma non_alnum_no_letter pre :
  Forall (fun x => is_alnum x = false) pre ->
  Forall (fun x => is_letter x = false) pre.
Proof.
  apply Forall_impl. intros a Ha. destruct (is_letter a) eqn:E; [|reflexivity].
  apply letter_alnum in E. congruence.
Qed.

(** The segment on which the first-letter rule is spent. *)
Lemma first_segment_cased pre c rest :
  Forall (fun x => is_alnum x = false) pre -> is_alnum c = true ->
  colon_sub (capitalize_first (lower (pre ++ c :: rest)))
  = lower pre
    ++ (if is_letter c then upper_char (lower_char c) else c)
    :: colon_sub (lower rest).
Proof.
  intros Hpre Hc. rewrite lower_app. cbn [lower map]. fold (lower rest).
  rewrite capitalize_first_app;
    [|now apply lower_non_alnum|now rewrite lower_char_alnum].
  rewrite lower_char_letter.
  assert (Hl : Forall (fun x => is_letter x = false) (lower pre))
    by now apply non_alnum_no_letter, lower_non_alnum.
  destruct (is_letter c) eqn:El.
  - assert (Hu : is_letter (upper_char (lower_char c)) = true)
      by now rewrite upper_char_letter, lower_char_letter.
    apply letter_alnum in Hu.
    apply colon_sub_prefix; auto using upper_char_idem, alnum_not_colon,
      alnum_not_space.
  - rewrite (lower_char_digit _ Hc El).
    apply colon_sub_prefix; auto using upper_char_other, alnum_not_colon,
      alnum_not_space.
Qed.

(** ** The colon rule inside and across segments *)

Lemma case_parts_length parts : forall first,
  length (concat (case_parts first parts)) = length (concat parts).
Proof.
  induction parts as [|p ps IH]; intros first; cbn [case_parts]; [reflexivity|].
  destruct (is_protected p).
  - cbn [concat]. now rewrite !length_app, IH.
  - destruct (first && search_letter (lower p)); cbn [concat];
      rewrite !length_app, IH; f_equal;
      rewrite (Forall2_length (colon_sub_pointwise _)).
    + rewrite (Forall2_length (capitalize_first_pointwise _)).
      apply length_map.
    + apply length_map.
Qed.

Lemma same_or_upper_spaces ws' ws :
  forallb is_space ws = true -> Forall2 same_or_upper ws' ws -> ws' = ws.
Proof.
  intros Hws H. induction H as [|a b l l' [Hab|Hab] Hl IH]; [reflexivity| |];
    simpl in Hws; apply andb_true_iff in Hws; destruct Hws as [Hb Hws];
    subst a; f_equal; auto.
  apply upper_char_other. now apply space_not_letter.
Qed.

(** Inside one segment: the letter after a colon and white space comes
    out in upper case, whether or not the first-letter rule has touched
    the segment. *)
Lemma segment_colon_hit s' u ws c v :
  Forall2 same_or_upper s' (lower (u ++ colon :: ws ++ c :: v)) ->
  forallb is_space ws = true -> is_letter c = true ->
  exists u' v',
    colon_sub s' = u' ++ colon :: ws ++ upper_char (lower_char c) :: v'
    /\ length u' = length u /\ length v' = length v.
Proof.
  intros H Hws Hc. rewrite lower_app in H.
  apply Forall2_app_inv_r in H. destruct H as (u2 & t2 & Hu2 & Ht2 & ->).
  cbn [lower map] in Ht2. inversion Ht2 as [|x0 ? t3 ? Hx0 Ht3]; subst.
  fold (lower (ws ++ c :: v)) in Ht3. rewrite lower_app in Ht3.
  apply Forall2_app_inv_r in Ht3. destruct Ht3 as (ws' & t4 & Hws' & Ht4 & ->).
  rewrite (lower_spaces ws Hws) in Hws'.
  apply (same_or_upper_spaces _ _ Hws) in Hws'. subst ws'.
  cbn [lower map] in Ht4. inversion Ht4 as [|c' ? v2 ? Hc' Hv2]; subst.
  assert (Ex : x0 = colon) by (destruct Hx0 as [->| ->]; reflexivity).
  subst x0.
  assert (Hl : is_letter c' = true).
  { destruct Hc' as [->| ->];
      now rewrite ?upper_char_letter, lower_char_letter. }
  assert (Eu : upper_char c' = upper_char (lower_char c)).
  { destruct Hc' as [->| ->]; [reflexivity|apply upper_char_idem]. }
  destruct (colon_sub_hits ws c' v2 u2 Hws Hl) as (u' & Hlen & E).
  exists u', (colon_sub v2). rewrite E, Eu. split; [reflexivity|].
  split.
  - rewrite Hlen, (Forall2_length Hu2). apply length_map.
  - rewrite (Forall2_length (colon_sub_pointwise _)), (Forall2_length Hv2).
    apply length_map.
Qed.

Lemma colon_rule_inside text before p after u ws c v :
  split_braces text = before ++ p :: after ->
  is_protected p = false ->
  p = u ++ colon :: ws ++ c :: v ->
  forallb is_space ws = true -> is_letter c = true ->
  exists x u' v' y,
    sentence_case_preserve_braces text
    = x ++ (u' ++ colon :: ws ++ upper_char (lower_char c) :: v') ++ y
    /\ length x = length (concat before) /\ length u' = length u
    /\ length v' = length v /\ length y = length (concat after).
Proof.
  intros Hs Hp -> Hws Hc. rewrite sentence_case_eq, Hs, case_parts_app.
  cbn [case_parts]. rewrite Hp.
  destruct (flag_after true before
            && search_letter (lower (u ++ colon :: ws ++ c :: v)));
    [ destruct (segment_colon_hit _ u ws c v
                  (capitalize_first_pointwise _) Hws Hc)
        as (u' & v' & E & Hu & Hv)
    | destruct (segment_colon_hit _ u ws c v
                  (same_or_upper_refl _) Hws Hc)
        as (u' & v' & E & Hu & Hv) ];
    rewrite concat_app; cbn [concat]; rewrite E;
    eexists _, u', v', _; (split; [reflexivity|]);
    repeat split; auto using case_parts_length.
Qed.

(** ** The token scan in the words of the specification *)

(** A token qualifies when it has two or more characters, all of them
    letters of [A-Z] or digits of [0-9], as the two patterns of the
    source have it, or when it contains a digit. *)
Definition qualifies (w : str) : bool :=
  ((2 <=? length w) && forallb is_caps w) || existsb is_digit w.

Definition wrap_token (w : str) : str :=
  if qualifies w then lbrace :: w ++ [rbrace] else w.

(** Scan and rebuild: [cur] is the word read so far; a word ends at the
    first character that is no word character, or with the text. *)
Fixpoint wrap_words (cur : str) (s : str) : str :=
  match s with
  | [] => wrap_token cur
  | c :: r =>
      if is_word c then wrap_words (cur ++ [c]) r
      else wrap_token cur ++ c :: wrap_words [] r
  end.

Definition spec_protect_acronyms (chunk : str) : str :=
  concat (map (fun p => if is_protected p then p else wrap_words [] p)
              (split_braces chunk)).

(** The longest prefix in a class, and the text after it. *)
Fixpoint run (cls : ascii -> bool) (s : str) : str :=
  match s with
  | c :: r => if cls c then c :: run cls r else []
  | [] => []
  end.

Fixpoint drop_run (cls : ascii -> bool) (s : str) : str :=
  match s with
  | c :: r => if cls c then drop_run cls r else s
  | [] => []
  end.

Lemma run_drop_run cls s : run cls s ++ drop_run cls s = s.
Proof.
  induction s as [|c r IH]; simpl; [reflexivity|].
  destruct (cls c); simpl; congruence.
Qed.

Lemma drop_run_head cls s : 
  match hd_error (drop_run cls s) with Some x => cls x = false | None => True end.
Proof.
  induction s as [|c r IH]; simpl; [exact I|].
  destruct (cls c) eqn:E; [exact IH|exact E].
Qed.

Lemma drop_run_word_head s : word_opt (hd_error (drop_run is_word s)) = false.
Proof.
  pose proof (drop_run_head is_word s) as H.
  destruct (hd_error (drop_run is_word s)); [exact H|reflexivity].
Qed.

Lemma run_stuck cls s : word_opt (hd_error s) = false ->
  (forall x, cls x = true -> is_word x = true) -> run cls s = [].
Proof.
  destruct s as [|c r]; simpl; [reflexivity|]. intros Hc Hsub.
  destruct (cls c) eqn:E; [|reflexivity]. apply Hsub in E. congruence.
Qed.

Lemma drop_run_stuck cls s : word_opt (hd_error s) = false ->
  (forall x, cls x = true -> is_word x = true) -> drop_run cls s = s.
Proof.
  destruct s as [|c r]; simpl; [reflexivity|]. intros Hc Hsub.
  destruct (cls c) eqn:E; [|reflexivity]. apply Hsub in E. congruence.
Qed.

Lemma firstn_run cls s : firstn (length (run cls s)) s = run cls s.
Proof.
  rewrite <- (run_drop_run cls s) at 2. apply firstn_length_app.
Qed.

Lemma skipn_run cls s : skipn (length (run cls s)) s = drop_run cls s.
Proof.
  rewrite <- (run_drop_run cls s) at 2. apply skipn_length_app.
Qed.

Lemma run_all cls s : forallb cls (run cls s) = true.
Proof.
  induction s as [|c r IH]; simpl; [reflexivity|].
  destruct (cls c) eqn:E; simpl; [now rewrite E|reflexivity].
Qed.

Lemma caps_word c : is_caps c = true -> is_word c = true.
Proof. by_cases_on c. Qed.

Lemma digit_word c : is_digit c = true -> is_word c = true.
Proof. by_cases_on c. Qed.

(** ** The acronym pattern on whole words *)

Lemma star_boundary_run cls s : forall p,
  is_word p = true -> (forall x, cls x = true -> is_word x = true) ->
  star_boundary cls (Some p) s
  = if word_opt (hd_error (drop_run cls s)) then None
    else Some (length (run cls s)).
Proof.
  induction s as [|x r IH]; intros p Hp Hsub; cbn [star_boundary run drop_run].
  - unfold at_boundary. cbn [word_opt hd_error]. now rewrite Hp.
  - destruct (cls x) eqn:Ex.
    + rewrite (IH x (Hsub _ Ex) Hsub).
      destruct (word_opt (hd_error (drop_run cls r))); [|reflexivity].
      unfold at_boundary. cbn [word_opt hd_error].
      now rewrite Hp, (Hsub _ Ex).
    + unfold at_boundary. cbn [word_opt hd_error length]. rewrite Hp.
      now destruct (is_word x).
Qed.

Lemma caps_or_not r :
  if word_opt (hd_error (drop_run is_caps r))
  then forallb is_caps (run is_word r) = false
  else run is_word r = run is_caps r
       /\ forallb is_caps (run is_word r) = true.
Proof.
  induction r as [|x r IH]; cbn [run drop_run]; [now split|].
  destruct (is_caps x) eqn:Ex.
  - rewrite (caps_word _ Ex).
    destruct (word_opt (hd_error (drop_run is_caps r))).
    + cbn [forallb]. now rewrite IH, andb_false_r.
    + destruct IH as [IH1 IH2]. cbn [forallb]. rewrite IH1 in *.
      now rewrite Ex, IH2.
  - cbn [hd_error word_opt]. destruct (is_word x); [|now split].
    cbn [forallb]. now rewrite Ex.
Qed.

Lemma caps_token_at_word s :
  caps_token_at s
  = if fullmatch_caps (run is_word s) then Some (length (run is_word s))
    else None.
Proof.
  unfold caps_token_at, fullmatch_caps.
  destruct s as [|c1 [|c2 r]].
  - reflexivity.
  - cbn [run]. now destruct (is_word c1).
  - destruct (is_caps c1) eqn:E1; cbn [andb].
    + destruct (is_caps c2) eqn:E2.
      * rewrite (star_boundary_run is_caps r c2 (caps_word _ E2) caps_word).
        cbn [run]. rewrite (caps_word _ E1), (caps_word _ E2).
        cbn [length forallb Nat.leb]. rewrite E1, E2. cbn [andb].
        pose proof (caps_or_not r) as H.
        destruct (word_opt (hd_error (drop_run is_caps r))).
        -- now rewrite H.
        -- destruct H as [H1 H2]. now rewrite H2, H1.
      * cbn [run]. rewrite (caps_word _ E1).
        destruct (is_word c2); cbn [length forallb Nat.leb];
          [now rewrite E1, E2|reflexivity].
    + cbn [run]. destruct (is_word c1); [|reflexivity].
      cbn [forallb]. now rewrite E1, andb_false_r.
Qed.

Lemma digit_ahead_word s : digit_ahead s = existsb is_digit (run is_word s).
Proof.
  induction s as [|c r IH]; cbn [digit_ahead run]; [reflexivity|].
  destruct (is_word c) eqn:E; cbn [existsb andb].
  - rewrite IH. apply orb_comm.
  - destruct (is_digit c) eqn:Ed; [|reflexivity].
    apply digit_word in Ed. congruence.
Qed.

Lemma digit_token_at_word s :
  digit_token_at s
  = if search_digit (run is_word s) then Some (length (run is_word s))
    else None.
Proof.
  unfold digit_token_at, search_digit. rewrite digit_ahead_word.
  destruct s as [|c r]; cbn [run]; [reflexivity|].
  destruct (is_word c) eqn:E; [|reflexivity].
  destruct (existsb is_digit (c :: run is_word r)); [|reflexivity].
  rewrite (star_boundary_run is_word r c E (fun x H => H)).
  now rewrite drop_run_word_head.
Qed.

Lemma acronym_token_at_word prev s :
  acronym_token_at prev s
  = if at_boundary prev s && qualifies (run is_word s)
    then Some (length (run is_word s)) else None.
Proof.
  unfold acronym_token_at, qualifies.
  rewrite caps_token_at_word, digit_token_at_word.
  unfold fullmatch_caps, search_digit.
  destruct (at_boundary prev s); [|reflexivity]. cbn [andb].
  destruct ((2 <=? length (run is_word s)) && forallb is_caps (run is_word s));
    reflexivity.
Qed.

Lemma wrap_token_nil : wrap_token [] = [].
Proof. reflexivity. Qed.

Lemma repl_wrap_token w : repl w = wrap_token w.
Proof. reflexivity. Qed.

Lemma wrap_words_run s : forall cur,
  wrap_words cur s
  = wrap_token (cur ++ run is_word s) ++ wrap_words [] (drop_run is_word s).
Proof.
  induction s as [|c r IH]; intros cur; cbn [wrap_words run drop_run].
  - now rewrite !app_nil_r.
  - destruct (is_word c) eqn:E.
    + rewrite IH, <- app_assoc. reflexivity.
    + cbn [wrap_words]. rewrite E, app_nil_r. reflexivity.
Qed.

Lemma last_word l : forall c,
  forallb is_word l = true -> is_word c = true -> is_word (last l c) = true.
Proof.
  induction l as [|x l IH]; intros c Hl Hc; [exact Hc|].
  cbn [forallb] in Hl. apply andb_true_iff in Hl. destruct Hl as [Hx Hl].
  destruct l as [|y l]; [exact Hx|]. apply (IH c Hl Hc).
Qed.

Lemma drop_run_length cls s : length (drop_run cls s) <= length s.
Proof.
  rewrite <- (run_drop_run cls s) at 2. rewrite length_app. lia.
Qed.

(** The substitution loop is the scan of the specification: outside a
    word it wraps the qualifying words; entered inside a word, it copies
    the end of that word first. *)
Lemma acronym_sub_scan s : forall prev,
  acronym_sub prev s
  = if word_opt prev
    then run is_word s ++ wrap_words [] (drop_run is_word s)
    else wrap_words [] s.
Proof.
  induction s as [s IH] using (induction_ltof1 _ (@length ascii)).
  intros prev. destruct s as [|c r].
  - simp acronym_sub. now destruct (word_opt prev).
  - assert (IHr : forall p, acronym_sub p r
                  = if word_opt p
                    then run is_word r ++ wrap_words [] (drop_run is_word r)
                    else wrap_words [] r).
    { apply IH. red. simpl. lia. }
    rewrite acronym_sub_eq, acronym_token_at_word.
    unfold at_boundary. cbn [hd_error word_opt run drop_run].
    destruct (word_opt prev); destruct (is_word c) eqn:Ec; cbn [xorb andb].
    + rewrite IHr. cbn [word_opt]. now rewrite Ec.
    + change (qualifies []) with false. cbv iota.
      rewrite IHr. cbn [word_opt wrap_words app]. now rewrite Ec.
    + rewrite (wrap_words_run (c :: r) []). cbn [run drop_run app].
      rewrite Ec. unfold wrap_token.
      destruct (qualifies (c :: run is_word r)) eqn:Q.
      * cbn [length]. rewrite firstn_run, skipn_run, repl_wrap_token.
        unfold wrap_token. rewrite Q. f_equal.
        rewrite IH by (red; pose proof (drop_run_length is_word r); simpl; lia).
        cbn [word_opt]. rewrite (last_word _ c (run_all is_word r) Ec).
        rewrite run_stuck, drop_run_stuck;
          auto using drop_run_word_head.
      * rewrite IHr. cbn [word_opt]. now rewrite Ec.
    + rewrite IHr. cbn [word_opt wrap_words]. now rewrite Ec.
Qed.

Lemma protect_acronyms_scan chunk :
  protect_acronyms_preserve_braces chunk = spec_protect_acronyms chunk.
Proof.
  unfold protect_acronyms_preserve_braces, spec_protect_acronyms.
  f_equal. apply map_ext. intros p.
  destruct (is_protected p); [reflexivity|]. apply (acronym_sub_scan p None).
Qed.

Lemma wrap_words_after u x :
  is_word x = false ->
  forall cur s,
    wrap_words cur ((u ++ [x]) ++ s)
    = wrap_words cur (u ++ [x]) ++ wrap_words [] s.
Proof.
  intros Hx. induction u as [|c u IH]; intros cur s; cbn [app wrap_words].
  - rewrite Hx, wrap_token_nil, <- app_assoc. reflexivity.
  - destruct (is_word c); [apply IH|].
    rewrite (IH [] s), <- app_assoc. reflexivity.
Qed.

Lemma run_app cls w v :
  forallb cls w = true -> run cls (w ++ v) = w ++ run cls v.
Proof.
  induction w as [|c w IH]; cbn [forallb app run]; [reflexivity|].
  intros H. apply andb_true_iff in H. destruct H as [Hc Hw].
  now rewrite Hc, IH.
Qed.

Lemma drop_run_app cls w v :
  forallb cls w = true -> drop_run cls (w ++ v) = drop_run cls v.
Proof.
  induction w as [|c w IH]; cbn [forallb app drop_run]; [reflexivity|].
  intros H. apply andb_true_iff in H. destruct H as [Hc Hw].
  now rewrite Hc, IH.
Qed.

(** A word between two word boundaries is wrapped exactly when it
    qualifies, whatever stands before and after it. *)
Lemma token_in_context u w v :
  word_opt (hd_error (rev u)) = false ->
  forallb is_word w = true ->
  word_opt (hd_error v) = false ->
  acronym_sub None (u ++ w ++ v)
  = acronym_sub None u
    ++ (if qualifies w then lbrace :: w ++ [rbrace] else w)
    ++ acronym_sub None v.
Proof.
  intros Hu Hw Hv. rewrite !(acronym_sub_scan _ None). cbn [word_opt].
  assert (E : wrap_words [] (w ++ v)
              = (if qualifies w then lbrace :: w ++ [rbrace] else w)
                ++ wrap_words [] v).
  { rewrite wrap_words_run, (run_app _ _ _ Hw), (drop_run_app _ _ _ Hw).
    rewrite (run_stuck _ _ Hv (fun x H => H)).
    rewrite (drop_run_stuck _ _ Hv (fun x H => H)).
    now rewrite app_nil_r. }
  destruct (rev u) as [|x l] eqn:Er;
    apply (f_equal (@rev ascii)) in Er; rewrite rev_involutive in Er;
    subst u; [exact E|].
  cbn [rev hd_error word_opt] in *.
  now rewrite wrap_words_after, E.
Qed.

(** ** Property of the Acronym Protector *)

(** [str.isupper] on one character below U+0100: [A-Z], U+00C0..U+00D6
    and U+00D8..U+00DE. *)
Definition is_upper (c : ascii) : bool :=
  is_AZ c || between 192 214 c || between 216 222 c.

(** The first way to qualify in the words of the claim: two or more
    characters, each an upper-case letter or a digit. *)
Definition upper_token (w : str) : bool :=
  (2 <=? length w) && forallb (fun c => is_upper c || is_09 c) w.

(** The claim as stated, for a word that is the whole text: a word of
    two or more upper-case letters and digits is wrapped. *)
Definition wrapped_when_upper (w : str) : Prop :=
  forallb is_word w = true -> upper_token w = true ->
  protect_acronyms_preserve_braces w = lbrace :: w ++ [rbrace].

(** The word of U+00D6, B, B: three capitals, the first of them outside
    [A-Z]. *)
Definition capitals_outside_ascii : str := ["214"; "B"; "B"]%char.

(** C6, as stated, fails on capitals outside [A-Z]: the two patterns of
    the Acronym Protector name the letters [A-Z], so a word of three
    capitals that starts with U+00D6 is left as it is. *)
Lemma acronym_upper_outside_ascii :
  protect_acronyms_preserve_braces capitals_outside_ascii
  = capitals_outside_ascii
  /\ ~ wrapped_when_upper capitals_outside_ascii.
Proof.
  split; [reflexivity|]. intros H.
  assert (E := H eq_refl eq_refl). vm_compute in E. discriminate E.
Qed.

(** C6, amended.  Acronym qualification: in every unprotected segment
    the words, cut at the word boundaries, are wrapped one by one
    exactly when they have two or more characters that are all letters
    of [A-Z] or digits of [0-9], or contain a digit; the pattern-driven
    substitution of the source is the scan of the specification, and a
    word between two boundaries is wrapped or left alone whatever its
    neighbours are.  NASA, COVID19 and 2nd are protected, each on its
    own; the and Of are left as they are. *)
Theorem acronym_qualification :
  (forall chunk,
      protect_acronyms_preserve_braces chunk = spec_protect_acronyms chunk)
  /\ (forall u w v,
         word_opt (hd_error (rev u)) = false ->
         forallb is_word w = true ->
         word_opt (hd_error v) = false ->
         acronym_sub None (u ++ w ++ v)
         = acronym_sub None u
           ++ (if qualifies w then lbrace :: w ++ [rbrace] else w)
           ++ acronym_sub None v)
  /\ protect_acronyms_preserve_braces (lit "NASA") = lit "{NASA}"
  /\ protect_acronyms_preserve_braces (lit "COVID19") = lit "{COVID19}"
  /\ protect_acronyms_preserve_braces (lit "2nd") = lit "{2nd}"
  /\ protect_acronyms_preserve_braces (lit "the") = lit "the"
  /\ protect_acronyms_preserve_braces (lit "Of") = lit "Of"
  /\ protect_acronyms_preserve_braces (lit "the NASA COVID19 2nd Of")
     = lit "the {NASA} {COVID19} {2nd} Of".
Proof.
  split; [apply protect_acronyms_scan|].
  split; [apply token_in_context|]. repeat split; reflexivity.
Qed.

Lemma acronym_qualification_witness :
  acronym_sub None (lit "the " ++ lit "NASA" ++ lit " Of")
  = lit "the " ++ lit "{NASA}" ++ lit " Of"
  /\ spec_protect_acronyms (lit "a {B2} C3") = lit "a {B2} {C3}".
Proof.
  split.
  - apply (proj1 (proj2 acronym_qualification)
             (lit "the ") (lit "NASA") (lit " Of")); reflexivity.
  - rewrite <- (proj1 acronym_qualification). reflexivity.
Defined.

(** ** Strings with their markers at the same places *)

Definition same_markers (a b : ascii) : Prop :=
  is_lbrace a = is_lbrace b /\ is_rbrace a = is_rbrace b.

Lemma upper_char_markers c : same_markers (upper_char c) c.
Proof. split; by_cases_on c. Qed.

Lemma lower_char_markers c : same_markers (lower_char c) c.
Proof. split; by_cases_on c. Qed.

Lemma same_markers_refl s : Forall2 same_markers s s.
Proof. induction s; constructor; auto. now split. Qed.

Lemma same_markers_trans a b c :
  same_markers a b -> same_markers b c -> same_markers a c.
Proof. intros [? ?] [? ?]. split; congruence. Qed.

Lemma lazy_close_sim y x :
  Forall2 same_markers y x ->
  match lazy_close y, lazy_close x with
  | Some (m, r), Some (m', r') =>
      Forall2 same_markers m m' /\ Forall2 same_markers r r'
  | None, None => True
  | _, _ => False
  end.
Proof.
  induction 1 as [|a b y x [Hl Hr] H IH]; cbn [lazy_close]; [exact I|].
  rewrite Hr. destruct (is_rbrace b) eqn:Eb.
  - split; [|assumption]. constructor; [split; congruence|constructor].
  - destruct (lazy_close y) as [[m r]|], (lazy_close x) as [[m' r']|];
      try contradiction; [|exact I].
    destruct IH. split; [|assumption].
    constructor; [split; congruence|assumption].
Qed.

Lemma match_brace_at_sim y x :
  Forall2 same_markers y x ->
  match match_brace_at y, match_brace_at x with
  | Some (m, r), Some (m', r') =>
      Forall2 same_markers m m' /\ Forall2 same_markers r r'
  | None, None => True
  | _, _ => False
  end.
Proof.
  destruct 1 as [|a b y x [Hl Hr] H]; cbn [match_brace_at]; [exact I|].
  rewrite Hl. destruct (is_lbrace b) eqn:Eb; [|exact I].
  pose proof (lazy_close_sim _ _ H) as Hs.
  destruct (lazy_close y) as [[m r]|], (lazy_close x) as [[m' r']|];
    try contradiction; [|exact I].
  destruct Hs. split; [|assumption].
  constructor; [split; congruence|assumption].
Qed.

Lemma search_brace_sim y x :
  Forall2 same_markers y x ->
  match search_brace y, search_brace x with
  | Some (pre, m, r), Some (pre', m', r') =>
      Forall2 same_markers pre pre' /\ Forall2 same_markers m m'
      /\ Forall2 same_markers r r'
  | None, None => True
  | _, _ => False
  end.
Proof.
  induction 1 as [|a b y x Hab H IH].
  - exact I.
  - pose proof (match_brace_at_sim _ _ (Forall2_cons _ _ Hab H)) as Hm.
    cbn [search_brace].
    destruct (match_brace_at (a :: y)) as [[m r]|],
             (match_brace_at (b :: x)) as [[m' r']|]; try contradiction.
    + destruct Hm. repeat split; [constructor|assumption|assumption].
    + destruct (search_brace y) as [[[pre m] r]|],
               (search_brace x) as [[[pre' m'] r']|]; try contradiction;
        [|exact I].
      destruct IH as (? & ? & ?). repeat split; [constructor|..]; assumption.
Qed.

Lemma split_braces_sim x : forall y,
  Forall2 same_markers y x ->
  Forall2 (Forall2 same_markers) (split_braces y) (split_braces x).
Proof.
  induction x as [x IH] using (induction_ltof1 _ (@length ascii)).
  intros y H. pose proof (search_brace_sim _ _ H) as Hs.
  rewrite (split_braces_eq y), (split_braces_eq x).
  destruct (search_brace y) as [[[pre m] r]|],
           (search_brace x) as [[[pre' m'] r']|] eqn:E; try contradiction.
  - destruct Hs as (? & ? & ?). repeat (constructor; [assumption|]).
    apply IH; [|assumption]. red. eapply search_brace_shorter; eauto.
  - constructor; [assumption|constructor].
Qed.

Lemma app_same_length {A} (a b x y : list A) :
  length a = length b -> a ++ x = b ++ y -> a = b /\ x = y.
Proof.
  revert b; induction a as [|h a IH]; intros [|k b] Hl H; try discriminate.
  - now split.
  - simpl in *. inversion H; subst. destruct (IH b) as [-> ->]; auto.
Qed.

Lemma concat_same_lengths (l1 l2 : list str) :
  Forall2 (fun a b => length a = length b) l1 l2 ->
  concat l1 = concat l2 -> l1 = l2.
Proof.
  induction 1 as [|a b l1 l2 Hab H IH]; [reflexivity|]. cbn [concat]. intros E.
  destruct (app_same_length _ _ _ _ Hab E) as [-> E']. now rewrite IH.
Qed.

Lemma Forall2_concat {A B} (R : A -> B -> Prop) l1 l2 :
  Forall2 (Forall2 R) l1 l2 -> Forall2 R (concat l1) (concat l2).
Proof.
  induction 1; cbn [concat]; [constructor|]. now apply Forall2_app.
Qed.

(** Segments that carry their markers at the places of the segments of a
    split are the split of their concatenation. *)
Lemma split_braces_rebuild outs x :
  Forall2 (Forall2 same_markers) outs (split_braces x) ->
  split_braces (concat outs) = outs.
Proof.
  intros H. pose proof (Forall2_concat _ _ _ H) as Hc.
  rewrite concat_split_braces in Hc. apply split_braces_sim in Hc.
  apply concat_same_lengths; [|apply concat_split_braces].
  clear - H Hc. revert Hc. generalize (split_braces (concat outs)) as l.
  induction H as [|o p outs ps Hop H IH]; intros l Hl;
    inversion Hl; subst; constructor; auto.
  erewrite (Forall2_length Hop). eapply Forall2_length; eauto.
Qed.

Lemma Forall2_rev_both {A B} (R : A -> B -> Prop) l l' :
  Forall2 R l l' -> Forall2 R (rev l) (rev l').
Proof.
  induction 1; cbn [rev]; [constructor|].
  apply Forall2_app; [assumption|]. now repeat constructor.
Qed.

Lemma is_protected_sim o p :
  Forall2 same_markers o p -> is_protected o = is_protected p.
Proof.
  intros H. unfold is_protected, endswith. f_equal.
  - destruct H as [|a b o p [Hl _] H]; cbn [startswith]; [reflexivity|].
    rewrite !andb_true_r. unfold is_lbrace in Hl.
    now rewrite !(Ascii.eqb_sym lbrace).
  - apply Forall2_rev_both in H. cbn [rev app].
    destruct H as [|a b o' p' [_ Hr] H]; cbn [startswith]; [reflexivity|].
    rewrite !andb_true_r. unfold is_rbrace in Hr.
    now rewrite !(Ascii.eqb_sym rbrace).
Qed.

(** ** The Sentence Caser applied twice *)

Lemma lower_idem p : lower (lower p) = lower p.
Proof.
  unfold lower. rewrite map_map. apply map_ext, lower_char_idem.
Qed.

Lemma same_or_upper_lower o q : Forall2 same_or_upper o q -> lower o = lower q.
Proof.
  induction 1 as [|a b o q [->| ->] H IH]; cbn [lower map]; [reflexivity| |];
    fold (lower o) (lower q); rewrite IH, ?lower_upper_char; reflexivity.
Qed.

Lemma cased_markers p : forall o,
  Forall2 same_or_upper o (lower p) -> Forall2 same_markers o p.
Proof.
  induction p as [|c p IH]; intros o H; inversion H as [|a ? o' ? Ha Ho];
    subst; constructor; [|now apply IH].
  eapply same_markers_trans; [|apply lower_char_markers].
  destruct Ha as [->| ->]; [now split|apply upper_char_markers].
Qed.

Lemma same_or_upper_markers o s :
  Forall2 same_or_upper o s -> Forall2 same_markers o s.
Proof.
  induction 1 as [|a b o s Hab H IH]; constructor; [|assumption].
  destruct Hab as [->| ->]; [now split|apply upper_char_markers].
Qed.

Lemma same_markers_all_trans a b : forall c,
  Forall2 same_markers a b -> Forall2 same_markers b c ->
  Forall2 same_markers a c.
Proof.
  intros c H. revert c. induction H as [|x y a b Hxy H IH]; intros c Hc;
    inversion Hc; subst; constructor; eauto using same_markers_trans.
Qed.

(** The piece emitted for an unprotected segment keeps the markers of
    the segment in place and has the same lower-casing. *)
Lemma cased_segment (fire : bool) p :
  let o := colon_sub (if fire then capitalize_first (lower p) else lower p) in
  Forall2 same_markers o p /\ lower o = lower p.
Proof.
  intros o.
  assert (H1 : Forall2 same_or_upper
                 (if fire then capitalize_first (lower p) else lower p)
                 (lower p)).
  { destruct fire; [apply capitalize_first_pointwise|apply same_or_upper_refl]. }
  assert (E : lower o = lower p).
  { unfold o. rewrite (same_or_upper_lower _ _ (colon_sub_pointwise _)).
    exact (eq_trans (same_or_upper_lower _ _ H1) (lower_idem p)). }
  split; [|exact E].
  assert (H2 : Forall2 same_markers
                 (if fire then capitalize_first (lower p) else lower p) p)
    by now apply cased_markers.
  eapply same_markers_all_trans; [|exact H2].
  apply same_or_upper_markers, colon_sub_pointwise.
Qed.

Lemma case_parts_markers parts : forall first,
  Forall2 (Forall2 same_markers) (case_parts first parts) parts.
Proof.
  induction parts as [|p ps IH]; intros first; cbn [case_parts]; [constructor|].
  destruct (is_protected p).
  - constructor; [apply same_markers_refl|apply IH].
  - destruct (first && search_letter (lower p)).
    + constructor; [apply (cased_segment true p)|apply IH].
    + constructor; [apply (cased_segment false p)|apply IH].
Qed.

Lemma case_parts_idem parts : forall first,
  case_parts first (case_parts first parts) = case_parts first parts.
Proof.
  induction parts as [|p ps IH]; intros first; cbn [case_parts]; [reflexivity|].
  destruct (is_protected p) eqn:Ep.
  - cbn [case_parts]. now rewrite Ep, IH.
  - destruct (first && search_letter (lower p)) eqn:Ef.
    + destruct (cased_segment true p) as [Hm Hl]. cbv zeta in Hm, Hl.
      cbn [case_parts]. rewrite (is_protected_sim _ _ Hm), Ep, Hl, Ef.
      now rewrite IH.
    + destruct (cased_segment false p) as [Hm Hl]. cbv zeta in Hm, Hl.
      cbn [case_parts]. rewrite (is_protected_sim _ _ Hm), Ep, Hl, Ef.
      now rewrite IH.
Qed.

Lemma sentence_case_idem x :
  sentence_case_preserve_braces (sentence_case_preserve_braces x)
  = sentence_case_preserve_braces x.
Proof.
  rewrite !sentence_case_eq.
  rewrite (split_braces_rebuild _ x (case_parts_markers _ true)).
  now rewrite case_parts_idem.
Qed.

(** ** Digits after the Acronym Protector *)

Definition nodigit (s : str) : Prop :=
  forallb (fun c => negb (is_digit c)) s = true.

(** Texts in which every digit stands inside a protected span: a text
    without digit, or a text without digit and without opening marker,
    then a protected span, then a text of the same kind. *)
Inductive guarded : str -> Prop :=
| guarded_plain t : nodigit t -> guarded t
| guarded_span plain m y :
    ~ In lbrace plain -> nodigit plain -> wrapped m -> guarded y ->
    guarded (plain ++ m ++ y).

Lemma nodigit_app a b : nodigit (a ++ b) <-> nodigit a /\ nodigit b.
Proof. unfold nodigit. rewrite forallb_app. apply andb_true_iff. Qed.

Lemma nodigit_concat l : nodigit (concat l) -> Forall nodigit l.
Proof.
  induction l as [|x l IH]; cbn [concat]; intros H; constructor;
    apply nodigit_app in H; tauto.
Qed.

Lemma lazy_close_found body y :
  ~ In rbrace body ->
  lazy_close (body ++ rbrace :: y) = Some (body ++ [rbrace], y).
Proof.
  induction body as [|c body IH]; cbn [app lazy_close]; intros H.
  - reflexivity.
  - destruct (is_rbrace c) eqn:E.
    + apply is_rbrace_eq in E. exfalso. apply H. now left.
    + rewrite IH; [reflexivity|]. intros Hin. apply H. now right.
Qed.

Lemma search_brace_found plain m y :
  ~ In lbrace plain -> wrapped m ->
  search_brace (plain ++ m ++ y) = Some (plain, m, y).
Proof.
  intros Hp (body & -> & Hb).
  assert (Em : match_brace_at (lbrace :: (body ++ [rbrace]) ++ y)
               = Some (lbrace :: body ++ [rbrace], y)).
  { cbn [match_brace_at]. change (is_lbrace lbrace) with true. cbv iota.
    rewrite <- app_assoc. cbn [app]. now rewrite lazy_close_found. }
  induction plain as [|c plain IH].
  - cbn [app search_brace]. now rewrite Em.
  - rewrite <- app_comm_cons. cbn [search_brace match_brace_at].
    destruct (is_lbrace c) eqn:Ec.
    + apply is_lbrace_eq in Ec. exfalso. apply Hp. now left.
    + rewrite IH; [reflexivity|]. intros Hin. apply Hp. now right.
Qed.

Lemma guarded_segments y :
  guarded y ->
  Forall (fun p => is_protected p = true \/ nodigit p) (split_braces y).
Proof.
  induction 1 as [t Ht|plain m y Hp Hd Hm Hy IH].
  - rewrite <- (concat_split_braces t) in Ht. apply nodigit_concat in Ht.
    eapply Forall_impl; [|exact Ht]. intros p Hp. now right.
  - rewrite split_braces_eq, search_brace_found by assumption.
    constructor; [now right|].
    constructor; [left; now apply wrapped_protected|exact IH].
Qed.

Lemma first_lbrace s :
  ~ In lbrace s
  \/ exists q1 q2, s = q1 ++ lbrace :: q2 /\ ~ In lbrace q1.
Proof.
  induction s as [|c s IH]; [left; intros []|].
  destruct (is_lbrace c) eqn:E.
  - apply is_lbrace_eq in E. subst c. right. exists [], s. split; [reflexivity|].
    intros [].
  - apply is_lbrace_neq in E. destruct IH as [IH|(q1 & q2 & -> & Hq)].
    + left. intros [H|H]; congruence || auto.
    + right. exists (c :: q1), q2. split; [reflexivity|].
      intros [H|H]; congruence || auto.
Qed.

Lemma no_pair_app a b : no_pair (a ++ b) -> no_pair a /\ no_pair b.
Proof.
  intros H. split; intros u v w ->.
  - apply (H u v (w ++ b)). rewrite <- !app_assoc. cbn [app].
    now rewrite <- app_assoc.
  - apply (H (a ++ u) v w). now rewrite <- app_assoc.
Qed.

(** A protected span after a text without digit in which no marker pair
    is complete: the span may only grow to the left. *)
Lemma guarded_close plain0 m y :
  nodigit plain0 -> no_pair plain0 -> wrapped m -> guarded y ->
  guarded (plain0 ++ m ++ y).
Proof.
  intros Hd Hn Hm Hy. destruct (first_lbrace plain0) as [H|(q1 & q2 & -> & Hq)].
  - now apply guarded_span.
  - destruct Hm as (body & -> & Hb).
    apply nodigit_app in Hd. destruct Hd as [Hd1 _].
    assert (Hq2 : ~ In rbrace q2).
    { intros Hin. apply in_split in Hin. destruct Hin as (v & w & ->).
      apply (Hn q1 v w). reflexivity. }
    replace ((q1 ++ lbrace :: q2) ++ (lbrace :: body ++ [rbrace]) ++ y)
      with (q1 ++ (lbrace :: (q2 ++ lbrace :: body) ++ [rbrace]) ++ y).
    + apply guarded_span; auto.
      exists (q2 ++ lbrace :: body). split; [reflexivity|].
      intros Hin. apply in_app_or in Hin. destruct Hin as [Hin|[Hin|Hin]];
        [auto|discriminate Hin|auto].
    + repeat (rewrite <- ?app_assoc; cbn [app]). reflexivity.
Qed.

Definition closing (Z : str) : Prop :=
  Z = [] \/ exists m y, Z = m ++ y /\ wrapped m /\ guarded y.

Lemma word_not_digit c : is_word c = false -> negb (is_digit c) = true.
Proof. by_cases_on c. Qed.

Lemma word_not_rbrace c : is_word c = true -> c <> rbrace.
Proof. by_cases_on c. Qed.

Lemma run_no_rbrace s : ~ In rbrace (run is_word s).
Proof.
  induction s as [|c r IH]; cbn [run]; [intros []|].
  destruct (is_word c) eqn:E; [|intros []].
  intros [H|H]; [|auto]. now apply (word_not_rbrace _ E).
Qed.

(** The scan of a text in which no marker pair is complete leaves every
    digit inside a protected span. *)
Lemma wrap_guarded u : forall plain0 Z,
  nodigit plain0 -> no_pair (plain0 ++ u) -> closing Z ->
  guarded (plain0 ++ wrap_words [] u ++ Z).
Proof.
  induction u as [u IH] using (induction_ltof1 _ (@length ascii)).
  intros plain0 Z Hd Hn HZ. destruct u as [|c r].
  - rewrite app_nil_r in Hn. cbn [wrap_words]. rewrite wrap_token_nil.
    cbn [app]. destruct HZ as [->|(m & y & -> & Hm & Hy)].
    + rewrite app_nil_r. now apply guarded_plain.
    + now apply guarded_close.
  - destruct (is_word c) eqn:Ec.
    + rewrite wrap_words_run, <- (app_assoc (wrap_token _)).
      change ([] ++ run is_word (c :: r)) with (run is_word (c :: r)).
      pose proof (run_drop_run is_word (c :: r)) as Hu.
      assert (Hlen : ltof _ (@length ascii) (drop_run is_word (c :: r)) (c :: r)).
      { red. cbn [drop_run]. rewrite Ec.
        pose proof (drop_run_length is_word r). simpl. lia. }
      set (w := run is_word (c :: r)) in *.
      set (rest := drop_run is_word (c :: r)) in *.
      unfold wrap_token. destruct (qualifies w) eqn:Q.
      * rewrite <- Hu in Hn. apply no_pair_app in Hn. destruct Hn as [Hn1 Hn2].
        apply no_pair_app in Hn2. destruct Hn2 as [_ Hn2].
        apply (guarded_close plain0 (lbrace :: w ++ [rbrace])
                 (wrap_words [] rest ++ Z)); auto.
        -- exists w. split; [reflexivity|apply run_no_rbrace].
        -- apply (IH rest Hlen [] Z); auto. reflexivity.
      * rewrite (app_assoc plain0 w).
        apply (IH rest Hlen (plain0 ++ w) Z); auto.
        -- apply nodigit_app. split; [assumption|].
           unfold qualifies in Q. apply orb_false_iff in Q. destruct Q as [_ Q].
           unfold nodigit. clear - Q. induction w as [|x w IHw]; [reflexivity|].
           cbn [existsb forallb] in *. apply orb_false_iff in Q.
           destruct Q as [-> Q]. now rewrite IHw.
        -- now rewrite <- app_assoc, Hu.
    + cbn [wrap_words]. rewrite Ec, wrap_token_nil. cbn [app].
      assert (Eq : plain0 ++ c :: wrap_words [] r ++ Z
                   = (plain0 ++ [c]) ++ wrap_words [] r ++ Z)
        by (rewrite <- app_assoc; reflexivity).
      rewrite Eq. apply (IH r); auto.
      * red. simpl. lia.
      * apply nodigit_app. split; [assumption|]. unfold nodigit.
        cbn [forallb]. now rewrite (word_not_digit _ Ec).
      * now rewrite <- app_assoc.
Qed.

Lemma protect_acronyms_guarded x :
  guarded (protect_acronyms_preserve_braces x).
Proof.
  rewrite protect_acronyms_scan.
  induction x as [x IH] using (induction_ltof1 _ (@length ascii)).
  unfold spec_protect_acronyms. rewrite split_braces_eq.
  destruct (search_brace x) as [[[pre m] rest]|] eqn:E.
  - pose proof (search_brace_pre _ _ _ _ E) as Hpre.
    pose proof (search_brace_wrapped _ _ _ _ E) as Hm.
    cbn [map concat].
    rewrite (no_pair_unprotected _ (no_lbrace_no_pair _ Hpre)).
    rewrite (wrapped_protected _ Hm).
    fold (spec_protect_acronyms rest).
    apply (wrap_guarded pre [] (m ++ spec_protect_acronyms rest)).
    + reflexivity.
    + now apply no_lbrace_no_pair.
    + right. exists m, (spec_protect_acronyms rest). repeat split; auto.
      apply IH. red. eapply search_brace_shorter; eauto.
  - apply search_brace_none in E. cbn [map concat].
    rewrite (no_pair_unprotected _ E).
    apply (wrap_guarded x [] []); [reflexivity|exact E|now left].
Qed.

(** Every unprotected segment that reaches the Sentence Caser inside
    [process_title] is free of digits. *)
Lemma caser_input_no_digit x :
  Forall (fun p => is_protected p = true \/ nodigit p)
         (split_braces (protect_acronyms_preserve_braces x)).
Proof. apply guarded_segments, protect_acronyms_guarded. Qed.

(** ** No token is left after the Sentence Caser *)

(** No digit, and no two letters of [A-Z] side by side; [prev_az] tells
    whether the character before the text is a letter of [A-Z]. *)
Fixpoint calm_from (prev_az : bool) (s : str) : bool :=
  match s with
  | [] => true
  | c :: r =>
      negb (is_digit c) && negb (prev_az && is_AZ c) && calm_from (is_AZ c) r
  end.

(** No digit and no letter of [A-Z] at all. *)
Definition low (s : str) : Prop :=
  forallb (fun c => negb (is_digit c) && negb (is_AZ c)) s = true.

Lemma calm_from_false b s : calm_from b s = true -> calm_from false s = true.
Proof.
  destruct s as [|c r]; [reflexivity|]. cbn [calm_from].
  rewrite !andb_true_iff. intros [[H1 _] H2]. auto.
Qed.

Lemma calm_from_app b a t :
  calm_from b (a ++ t) = true ->
  calm_from b a = true /\ calm_from false t = true.
Proof.
  revert b; induction a as [|c a IH]; intros b; cbn [app calm_from].
  - intros H. split; [reflexivity|]. now apply calm_from_false in H.
  - rewrite !andb_true_iff. intros [[H1 H2] H3].
    destruct (IH _ H3). auto.
Qed.

Lemma caps_not_digit c : is_caps c = true -> is_digit c = false -> is_AZ c = true.
Proof. by_cases_on c. Qed.

Lemma calm_not_qualifies b w : calm_from b w = true -> qualifies w = false.
Proof.
  intros H. unfold qualifies. apply orb_false_iff. split.
  - destruct w as [|c1 [|c2 w]]; [reflexivity|reflexivity|].
    cbn [length Nat.leb forallb]. cbn [calm_from] in H.
    rewrite !andb_true_iff, !negb_true_iff in H.
    destruct H as [[D1 _] [[D2 A] _]].
    destruct (is_caps c1) eqn:E1; [|reflexivity].
    destruct (is_caps c2) eqn:E2; [|reflexivity].
    rewrite (caps_not_digit _ E1 D1), (caps_not_digit _ E2 D2) in A.
    discriminate A.
  - revert b H. induction w as [|c w IH]; intros b H; [reflexivity|].
    cbn [calm_from existsb] in *.
    rewrite !andb_true_iff, !negb_true_iff in H. destruct H as [[D _] H].
    rewrite D. cbn [orb]. eapply IH; eauto.
Qed.

(** A calm text holds no qualifying word: the scan returns it as it is. *)
Lemma calm_scan s : forall cur,
  calm_from false (cur ++ s) = true -> wrap_words cur s = cur ++ s.
Proof.
  induction s as [|c r IH]; intros cur H; cbn [wrap_words].
  - rewrite app_nil_r in *. unfold wrap_token.
    now rewrite (calm_not_qualifies _ _ H).
  - destruct (is_word c).
    + rewrite IH; rewrite <- app_assoc; [reflexivity|exact H].
    + destruct (calm_from_app _ _ _ H) as [H1 H2].
      unfold wrap_token. rewrite (calm_not_qualifies _ _ H1).
      f_equal. f_equal. apply (IH []).
      change (c :: r) with ([c] ++ r) in H2.
      now destruct (calm_from_app _ _ _ H2).
Qed.

Lemma low_app a b : low (a ++ b) <-> low a /\ low b.
Proof. unfold low. rewrite forallb_app. apply andb_true_iff. Qed.

Lemma calm_low_app a : forall b t,
  low a -> calm_from false t = true -> calm_from b (a ++ t) = true
  \/ a = [].
Proof.
  induction a as [|c a IH]; intros b t Ha Ht; [now right|]. left.
  unfold low in Ha. cbn [forallb] in Ha.
  rewrite !andb_true_iff in Ha. destruct Ha as [[D A] Ha].
  cbn [app calm_from]. rewrite D. apply negb_true_iff in A. rewrite A.
  rewrite andb_false_r. cbn [negb andb].
  destruct (IH false t Ha Ht) as [H| ->]; [exact H|exact Ht].
Qed.

Lemma calm_after_low a t :
  low a -> calm_from false t = true -> calm_from false (a ++ t) = true.
Proof.
  intros Ha Ht. destruct (calm_low_app a false t Ha Ht) as [H| ->];
    [exact H|exact Ht].
Qed.

Lemma lower_char_low c :
  is_digit c = false ->
  negb (is_digit (lower_char c)) && negb (is_AZ (lower_char c)) = true.
Proof. by_cases_on c. Qed.

Lemma lower_low p : nodigit p -> low (lower p).
Proof.
  unfold nodigit, low. induction p as [|c p IH]; cbn [forallb lower map];
    [reflexivity|].
  rewrite andb_true_iff, negb_true_iff. intros [D H].
  fold (lower p). now rewrite (lower_char_low _ D), IH.
Qed.

Lemma space_low c :
  is_space c = true -> negb (is_digit c) && negb (is_AZ c) = true.
Proof. by_cases_on c. Qed.

Lemma spaces_low u : forallb is_space u = true -> low u.
Proof.
  unfold low. induction u as [|c u IH]; cbn [forallb]; [reflexivity|].
  rewrite andb_true_iff. intros [Hc Hu]. now rewrite (space_low _ Hc), IH.
Qed.

Lemma upper_letter_not_digit c :
  is_letter c = true -> is_digit (upper_char c) = false.
Proof. by_cases_on c. Qed.

(** A letter in upper case after a character that is no letter of
    [A-Z], followed by a calm text. *)
Lemma calm_capital c t :
  is_letter c = true -> calm_from true t = true ->
  calm_from false (upper_char c :: t) = true.
Proof.
  intros Hc Ht. cbn [calm_from].
  rewrite (upper_letter_not_digit _ Hc). cbn [negb andb].
  destruct (is_AZ (upper_char c)); [exact Ht|now apply calm_from_false in Ht].
Qed.

Lemma colon_sub_calm s : forall b, low s -> calm_from b (colon_sub s) = true.
Proof.
  induction s as [s IH] using (induction_ltof1 _ (@length ascii)).
  intros b Hs. destruct s as [|c0 r]; [reflexivity|].
  assert (Hc0 : negb (is_digit c0) && negb (is_AZ c0) = true /\ low r).
  { unfold low in Hs. cbn [forallb] in Hs. now apply andb_true_iff in Hs. }
  destruct Hc0 as [Hc0 Hr].
  assert (Hhead : forall X, calm_from false X = true ->
                            calm_from b (c0 :: X) = true).
  { intros X HX. change (c0 :: X) with ([c0] ++ X).
    destruct (calm_low_app [c0] b X) as [H|H]; auto; [|discriminate H].
    unfold low. cbn [forallb]. now rewrite Hc0. }
  destruct (colon_letter_at (c0 :: r)) as [k|] eqn:E.
  - apply colon_sub_match in E.
    destruct E as (u & c & v & -> & _ & Hu & Hc & _ & ->).
    apply low_app in Hr. destruct Hr as [_ Hr].
    change (c :: v) with ([c] ++ v) in Hr. apply low_app in Hr.
    destruct Hr as [_ Hv].
    apply Hhead, calm_after_low; [now apply spaces_low|].
    apply calm_capital; [assumption|]. apply IH; [|assumption].
    red. simpl. rewrite length_app. simpl. lia.
  - rewrite colon_sub_nomatch by assumption. apply Hhead, IH; [|assumption].
    red. simpl. lia.
Qed.

(** The piece emitted for an unprotected segment without digit is calm. *)
Lemma cased_calm (fire : bool) p :
  nodigit p ->
  calm_from false
    (colon_sub (if fire then capitalize_first (lower p) else lower p))
  = true.
Proof.
  intros Hp. apply lower_low in Hp. destruct fire; [|now apply colon_sub_calm].
  destruct (star_letter (fun c => negb (is_alnum c)) (lower p)) as [k|] eqn:E.
  2:{ unfold capitalize_first. rewrite E. now apply colon_sub_calm. }
  apply star_letter_some in E. destruct E as (u & c & v & Es & _ & Hu & Hc).
  rewrite Es in *. clear Es.
  assert (Hu' : Forall (fun x => is_alnum x = false) u).
  { apply forallb_Forall_true in Hu. eapply Forall_impl; [|exact Hu].
    intros a Ha. now apply negb_true_iff in Ha. }
  rewrite (capitalize_first_app u c v Hu' (letter_alnum _ Hc)), Hc.
  assert (Hl : is_letter (upper_char c) = true)
    by now rewrite upper_char_letter.
  rewrite colon_sub_prefix;
    auto using non_alnum_no_letter, upper_char_idem, alnum_not_colon,
      alnum_not_space, letter_alnum.
  apply low_app in Hp. destruct Hp as [Hlu Hcv].
  change (c :: v) with ([c] ++ v) in Hcv. apply low_app in Hcv.
  destruct Hcv as [_ Hv].
  apply calm_after_low; [assumption|].
  apply calm_capital; [assumption|]. now apply colon_sub_calm.
Qed.

Lemma case_parts_stable parts : forall first,
  Forall (fun p => is_protected p = true \/ nodigit p) parts ->
  Forall (fun o => is_protected o = true \/ acronym_sub None o = o)
         (case_parts first parts).
Proof.
  induction parts as [|p ps IH]; intros first H; cbn [case_parts];
    [constructor|].
  inversion H as [|? ? Hp Hps]; subst.
  destruct (is_protected p) eqn:Ep.
  - constructor; [now left|now apply IH].
  - destruct Hp as [Hp|Hp]; [discriminate Hp|].
    destruct (first && search_letter (lower p));
      (constructor; [right|now apply IH]);
      rewrite (acronym_sub_scan _ None); cbn [word_opt];
      apply (calm_scan _ []).
    + apply (cased_calm true p Hp).
    + apply (cased_calm false p Hp).
Qed.

(** ** Stable detection *)

(** The provider finds no entity with a recognized label in the
    unprotected segments of [r]. *)
Definition entities_stable (nlp : provider) (r : str) : Prop :=
  Forall (fun p => is_protected p = true \/ entity_spans (nlp p) = [])
         (split_braces r).

(** No token of an unprotected segment of [r] is wrapped any more. *)
Definition acronyms_stable (r : str) : Prop :=
  Forall (fun p => is_protected p = true \/ acronym_sub None p = p)
         (split_braces r).

Lemma concat_map_fixed (f : str -> str) parts :
  Forall (fun p => is_protected p = true \/ f p = p) parts ->
  concat (map (fun p => if is_protected p then p else f p) parts)
  = concat parts.
Proof.
  induction 1 as [|p ps Hp H IH]; cbn [map concat]; [reflexivity|].
  rewrite IH. f_equal. destruct (is_protected p); [reflexivity|].
  destruct Hp; [discriminate|assumption].
Qed.

Lemma brace_entities_none nlp p :
  entity_spans (nlp p) = [] -> brace_entities nlp p = p.
Proof. intros H. unfold brace_entities. now rewrite H. Qed.

Lemma entities_stable_fixed nlp r :
  entities_stable nlp r -> brace_entities_preserve_existing nlp r = r.
Proof.
  intros H. unfold brace_entities_preserve_existing.
  rewrite concat_map_fixed; [apply concat_split_braces|].
  eapply Forall_impl; [|exact H]. intros p [Hp|Hp]; [now left|right].
  now apply brace_entities_none.
Qed.

Lemma acronyms_stable_fixed r :
  acronyms_stable r -> protect_acronyms_preserve_braces r = r.
Proof.
  intros H. unfold protect_acronyms_preserve_braces.
  rewrite concat_map_fixed; [apply concat_split_braces|exact H].
Qed.

(** Acronym detection is stable on every output of the Sentence Caser
    that follows the Acronym Protector. *)
Lemma acronyms_always_stable x :
  acronyms_stable
    (sentence_case_preserve_braces (protect_acronyms_preserve_braces x)).
Proof.
  unfold acronyms_stable. rewrite sentence_case_eq.
  rewrite (split_braces_rebuild _ _ (case_parts_markers _ true)).
  apply case_parts_stable, caser_input_no_digit.
Qed.

(** ** Property of the pipeline *)

(** C1. Idempotence: when, on the result of [process_title] for a title,
    the provider finds no entity in the unprotected segments, acronym
    detection is stable as well, since no token of an unprotected segment
    of the result is wrapped any more, and applying [process_title] to
    the result returns the same string. *)
Theorem process_title_idempotent (nlp : provider) (t : str) :
  entities_stable nlp (fst (process_title nlp t)) ->
  acronyms_stable (fst (process_title nlp t))
  /\ fst (process_title nlp (fst (process_title nlp t)))
     = fst (process_title nlp t).
Proof.
  intros He.
  assert (Ha : acronyms_stable (fst (process_title nlp t)))
    by apply acronyms_always_stable.
  split; [exact Ha|]. unfold process_title at 1. cbn [fst].
  rewrite (entities_stable_fixed _ _ He), (acronyms_stable_fixed _ Ha).
  unfold process_title. cbn [fst]. apply sentence_case_idem.
Qed.

Lemma process_title_idempotent_witness :
  fst (process_title lord_provider (lit "the LORD of the RINGS: a STORY"))
  = lit "The {LORD} of the {RINGS}: A {STORY}"
  /\ fst (process_title lord_provider
            (lit "The {LORD} of the {RINGS}: A {STORY}"))
     = lit "The {LORD} of the {RINGS}: A {STORY}".
Proof.
  split; [reflexivity|].
  assert (E : split_braces
                (fst (process_title lord_provider
                        (lit "the LORD of the RINGS: a STORY")))
              = [lit "The "; lit "{LORD}"; lit " of the "; lit "{RINGS}";
                 lit ": A "; lit "{STORY}"; []]) by reflexivity.
  apply (process_title_idempotent lord_provider
           (lit "the LORD of the RINGS: a STORY")).
  unfold entities_stable. rewrite E.
  repeat (constructor; [first [left; reflexivity|right; reflexivity]|]).
  constructor.
Defined.

(** * Further properties of the code *)

(** ** The split as an alternation, and joining before splitting *)

(** The shape of a split: texts without opening marker and protected
    spans in turn, closed by a text in which no marker pair is
    complete. *)
Inductive alternates : list str -> Prop :=
| alternates_last u : no_pair u -> alternates [u]
| alternates_cons pre m l :
    ~ In lbrace pre -> wrapped m -> alternates l ->
    alternates (pre :: m :: l).

(** [b], [negb b], [b], ... of length [n]. *)
Fixpoint zigzag (b : bool) (n : nat) : list bool :=
  match n with
  | 0 => []
  | S k => b :: zigzag (negb b) k
  end.

Lemma split_braces_alt s : alternates (split_braces s).
Proof.
  induction s as [s IH] using (induction_ltof1 _ (@length ascii)).
  rewrite split_braces_eq.
  destruct (search_brace s) as [[[pre m] rest]|] eqn:E.
  - apply alternates_cons.
    + eapply search_brace_pre; eauto.
    + eapply search_brace_wrapped; eauto.
    + apply IH. red. eapply search_brace_shorter; eauto.
  - apply alternates_last. now apply search_brace_none.
Qed.

Lemma alternates_flags l :
  alternates l ->
  map is_protected l = zigzag false (length l)
  /\ Nat.odd (length l) = true.
Proof.
  induction 1 as [u Hu|pre m l Hpre Hm Hl [IH1 IH2]].
  - cbn [map length zigzag]. now rewrite (no_pair_unprotected _ Hu).
  - cbn [map length zigzag negb].
    rewrite (no_pair_unprotected _ (no_lbrace_no_pair _ Hpre)).
    rewrite (wrapped_protected _ Hm), IH1. split; [reflexivity|].
    now rewrite Nat.odd_succ_succ.
Qed.

Lemma no_pair_search u : no_pair u -> search_brace u = None.
Proof.
  intros H. destruct (search_brace u) as [[[pre m] rest]|] eqn:E;
    [|reflexivity].
  exfalso. destruct (search_brace_split _ _ _ _ E) as [Hu _].
  destruct (search_brace_wrapped _ _ _ _ E) as (body & -> & _).
  apply (H pre body rest). rewrite Hu. cbn [app].
  now rewrite <- app_assoc.
Qed.

Lemma alternates_rebuild l : alternates l -> split_braces (concat l) = l.
Proof.
  induction 1 as [u Hu|pre m l Hpre Hm Hl IH].
  - cbn [concat]. rewrite app_nil_r, split_braces_eq.
    now rewrite (no_pair_search _ Hu).
  - cbn [concat]. rewrite split_braces_eq.
    now rewrite (search_brace_found _ _ _ Hpre Hm), IH.
Qed.

(** X1. For every text, [split_braces] returns an odd number of segments
    that alternate between texts without opening marker and protected
    spans, the last segment being a text in which no opening marker is
    followed by a closing one; the test on the first and last character
    that the three passes use is false on the segments at even places and
    true on those at odd places. *)
Theorem split_braces_alternates (s : str) :
  alternates (split_braces s)
  /\ map is_protected (split_braces s)
     = zigzag false (length (split_braces s))
  /\ Nat.odd (length (split_braces s)) = true.
Proof.
  split; [apply split_braces_alt|].
  apply alternates_flags, split_braces_alt.
Qed.

(** X2. Joining then splitting: a list of segments of the alternating
    shape is what [split_braces] returns for its concatenation, so the
    split of a text is the only list of that shape that joins to it. *)
Theorem split_braces_of_concat (l : list str) :
  alternates l -> split_braces (concat l) = l.
Proof. apply alternates_rebuild. Qed.

Lemma split_braces_of_concat_witness :
  alternates [lit "a "; lit "{B{c}"; lit " d}"]
  /\ split_braces (lit "a {B{c} d}") = [lit "a "; lit "{B{c}"; lit " d}"].
Proof.
  assert (H : alternates [lit "a "; lit "{B{c}"; lit " d}"]).
  { apply alternates_cons.
    - vm_compute. intuition discriminate.
    - exists (lit "B{c"). split; [reflexivity|].
      vm_compute. intuition discriminate.
    - apply alternates_last. apply no_lbrace_no_pair.
      vm_compute. intuition discriminate. }
  split; [exact H|].
  exact (split_braces_of_concat [lit "a "; lit "{B{c}"; lit " d}"] H).
Defined.

(** ** What the merged spans are *)

(** The position [i] lies in the span. *)
Definition inside (s : span) (i : nat) : Prop := fst s <= i < snd s.

(** Some span of the list holds the position. *)
Definition covers (l : list span) (i : nat) : Prop :=
  Exists (fun s => inside s i) l.

Definition proper (s : span) : Prop := fst s < snd s.

(** Spans that are not empty, in ascending order, with at least one
    position between two of them; [prev] is the end of the span before
    the list, if any. *)
Fixpoint sep (prev : option nat) (l : list span) : Prop :=
  match l with
  | [] => True
  | (a, b) :: m =>
      match prev with Some e => e < a | None => True end
      /\ a < b /\ sep (Some b) m
  end.

(** Starts in ascending order, none before [lo]. *)
Fixpoint from_start (lo : nat) (l : list span) : Prop :=
  match l with
  | [] => True
  | (a, _) :: m => lo <= a /\ from_start a m
  end.

Lemma from_start_weaken lo lo' l :
  lo' <= lo -> from_start lo l -> from_start lo' l.
Proof. destruct l as [|[a b] m]; simpl; [auto|]. intuition lia. Qed.

Lemma insert_span_from_start x l : forall lo,
  lo <= fst x -> from_start lo l -> from_start lo (insert_span x l).
Proof.
  destruct x as [a b]. induction l as [|[c d] l IH]; intros lo Hlo H;
    cbn [insert_span from_start fst] in *.
  - auto.
  - destruct H as [H1 H2]. unfold span_leb. cbn [fst snd].
    destruct (Nat.ltb_spec a c); cbn [orb from_start].
    + repeat split; auto; lia.
    + destruct (Nat.eqb_spec a c); cbn [andb].
      * destruct (Nat.leb_spec b d); cbn [from_start].
        -- repeat split; auto; lia.
        -- split; [assumption|]. apply IH; [simpl; lia|assumption].
      * split; [assumption|]. apply IH; [simpl; lia|assumption].
Qed.

Lemma sort_spans_from_start l : from_start 0 (sort_spans l).
Proof.
  induction l as [|x l IH]; cbn [sort_spans]; [exact I|].
  apply insert_span_from_start; [lia|assumption].
Qed.

Lemma covers_insert x l i : covers (insert_span x l) i <-> covers (x :: l) i.
Proof.
  unfold covers. induction l as [|y l IH]; cbn [insert_span]; [tauto|].
  destruct (span_leb x y); [tauto|].
  rewrite !Exists_cons, IH, Exists_cons. tauto.
Qed.

Lemma covers_sort l i : covers (sort_spans l) i <-> covers l i.
Proof.
  induction l as [|x l IH]; cbn [sort_spans]; [tauto|].
  rewrite covers_insert. unfold covers in *. rewrite !Exists_cons, IH. tauto.
Qed.

Lemma covers_snoc l x i : covers (l ++ [x]) i <-> covers l i \/ inside x i.
Proof.
  unfold covers. rewrite Exists_app, Exists_cons, Exists_nil. tauto.
Qed.

Lemma sep_snoc prev m c d a b :
  sep prev (m ++ [(c, d)]) -> d < a -> a < b ->
  sep prev (m ++ [(c, d); (a, b)]).
Proof.
  revert prev; induction m as [|[x y] m IH]; simpl; intros prev H Hda Hab.
  - tauto.
  - destruct H as (? & ? & H). auto.
Qed.

Lemma sep_widen prev m c d d' :
  sep prev (m ++ [(c, d)]) -> d <= d' -> sep prev (m ++ [(c, d')]).
Proof.
  revert prev; induction m as [|[x y] m IH]; simpl; intros prev H Hd.
  - intuition lia.
  - destruct H as (? & ? & H). eauto.
Qed.

(** The start of [merged[-1]]. *)
Definition last_start (merged : list span) : nat :=
  match rev merged with
  | (c, _) :: _ => c
  | [] => 0
  end.

Lemma last_start_snoc m c d : last_start (m ++ [(c, d)]) = c.
Proof. unfold last_start. now rewrite rev_app_distr. Qed.

(** The merging loop from any round on: the merged list stays separated
    and holds the positions of what has been merged and of what is still
    to come. *)
Lemma merge_loop rest : forall acc,
  sep None acc -> from_start (last_start acc) rest -> Forall proper rest ->
  sep None (fold_left merge_step rest acc)
  /\ forall i, covers (fold_left merge_step rest acc) i
               <-> covers acc i \/ covers rest i.
Proof.
  induction rest as [|[a b] rest IH]; intros acc Hs Hf Hp; cbn [fold_left].
  - split; [assumption|]. intros i. unfold covers at 3.
    rewrite Exists_nil. tauto.
  - inversion Hp as [|? ? Hab Hp']; subst. unfold proper in Hab.
    cbn [fst snd] in Hab. destruct Hf as [Hca Hf].
    assert (Hcov : forall acc' i,
               (covers acc' i <-> covers acc i \/ inside (a, b) i) ->
               (covers acc' i \/ covers rest i
                <-> covers acc i \/ covers ((a, b) :: rest) i)).
    { intros acc' i H. unfold covers at 4. rewrite Exists_cons.
      fold (covers rest i). tauto. }
    destruct acc as [|[c d] m _] using rev_ind.
    + rewrite merge_step_nil.
      destruct (IH [(a, b)]) as [H1 H2]; auto.
      * simpl. auto.
      * split; [assumption|]. intros i. rewrite H2. apply Hcov.
        unfold covers. rewrite Exists_cons, !Exists_nil. tauto.
    + rewrite last_start_snoc in Hca. rewrite merge_step_snoc.
      destruct (Nat.leb_spec a d).
      * destruct (IH (m ++ [(c, Nat.max d b)])) as [H1 H2]; auto.
        -- eapply sep_widen; eauto. lia.
        -- rewrite last_start_snoc. eapply from_start_weaken; eauto.
        -- split; [assumption|]. intros i. rewrite H2. apply Hcov.
           rewrite !covers_snoc. unfold inside. cbn [fst snd].
           assert (Hi : c <= i < Nat.max d b
                        <-> c <= i < d \/ a <= i < b) by lia.
           tauto.
      * destruct (IH (m ++ [(c, d); (a, b)])) as [H1 H2]; auto.
        -- now apply sep_snoc.
        -- change (m ++ [(c, d); (a, b)]) with (m ++ [(c, d)] ++ [(a, b)]).
           now rewrite app_assoc, last_start_snoc.
        -- split; [assumption|]. intros i. rewrite H2. apply Hcov.
           change (m ++ [(c, d); (a, b)]) with (m ++ [(c, d)] ++ [(a, b)]).
           rewrite app_assoc, !covers_snoc. tauto.
Qed.

Lemma merged_sep spans :
  Forall proper spans ->
  sep None (merge_spans (sort_spans spans))
  /\ forall i, covers (merge_spans (sort_spans spans)) i <-> covers spans i.
Proof.
  intros H. unfold merge_spans.
  destruct (merge_loop (sort_spans spans) []) as [H1 H2].
  - exact I.
  - apply sort_spans_from_start.
  - now apply sort_spans_Forall.
  - split; [assumption|]. intros i. rewrite H2, covers_sort.
    unfold covers at 1. rewrite Exists_nil. tauto.
Qed.

(** X3. For spans that are not empty, whatever their order and their
    overlaps, the list [merged] that [brace_entities] wraps is in
    ascending order with at least one position between two spans, and
    holds exactly the positions the given spans hold. *)
Theorem merged_spans_separated (spans : list span) :
  Forall proper spans ->
  sep None (merge_spans (sort_spans spans))
  /\ forall i, covers (merge_spans (sort_spans spans)) i <-> covers spans i.
Proof. apply merged_sep. Qed.

Lemma merged_spans_separated_witness :
  Forall proper [(4, 6); (0, 3); (2, 4); (8, 9)]
  /\ merge_spans (sort_spans [(4, 6); (0, 3); (2, 4); (8, 9)])
     = [(0, 6); (8, 9)]
  /\ sep None (merge_spans (sort_spans [(4, 6); (0, 3); (2, 4); (8, 9)])).
Proof.
  assert (H : Forall proper [(4, 6); (0, 3); (2, 4); (8, 9)]).
  { repeat constructor. }
  split; [exact H|]. split; [reflexivity|].
  exact (proj1 (merged_spans_separated _ H)).
Defined.

Lemma sep_covers_after b l i : sep (Some b) l -> covers l i -> b < i.
Proof.
  revert b; induction l as [|[c d] l IH]; intros b Hs Hc.
  - inversion Hc.
  - destruct Hs as (H1 & H2 & H3). unfold covers in Hc.
    apply Exists_cons in Hc. destruct Hc as [Hc|Hc].
    + unfold inside in Hc. simpl in Hc. lia.
    + specialize (IH d H3 Hc). lia.
Qed.

Lemma sep_any_prev prev a b l :
  sep prev ((a, b) :: l) -> a < b /\ sep (Some b) l.
Proof. simpl. tauto. Qed.

(** A separated list is determined by the positions it holds. *)
Lemma sep_unique l1 : forall l2 p1 p2,
  sep p1 l1 -> sep p2 l2 ->
  (forall i, covers l1 i <-> covers l2 i) -> l1 = l2.
Proof.
  induction l1 as [|[a1 b1] r1 IH]; intros [|[a2 b2] r2] p1 p2 H1 H2 Hc.
  - reflexivity.
  - exfalso. apply sep_any_prev in H2. destruct H2 as [H2 _].
    assert (Hin : covers ((a2, b2) :: r2) a2).
    { left. unfold inside. simpl. lia. }
    apply Hc in Hin. inversion Hin.
  - exfalso. apply sep_any_prev in H1. destruct H1 as [H1 _].
    assert (Hin : covers ((a1, b1) :: r1) a1).
    { left. unfold inside. simpl. lia. }
    apply Hc in Hin. inversion Hin.
  - apply sep_any_prev in H1. apply sep_any_prev in H2.
    destruct H1 as [Hab1 Hs1]. destruct H2 as [Hab2 Hs2].
    assert (Hlow : forall a b r a' b' r',
               a < b -> a' < b' -> sep (Some b') r' ->
               (forall i, covers ((a, b) :: r) i -> covers ((a', b') :: r') i) ->
               a' <= a).
    { intros a b r a' b' r' Hab Hab' Hs' H.
      assert (Hin : covers ((a, b) :: r) a) by (left; unfold inside; simpl; lia).
      apply H in Hin. unfold covers in Hin. apply Exists_cons in Hin.
      destruct Hin as [Hin|Hin].
      - unfold inside in Hin. simpl in Hin. lia.
      - pose proof (sep_covers_after _ _ _ Hs' Hin). lia. }
    assert (Ea : a1 = a2).
    { apply Nat.le_antisymm.
      - apply (Hlow a2 b2 r2 a1 b1 r1); auto. intros i. apply Hc.
      - apply (Hlow a1 b1 r1 a2 b2 r2); auto. intros i. apply Hc. }
    subst a2.
    assert (Hup : forall b r b' r',
               a1 < b -> a1 < b' -> sep (Some b) r ->
               (forall i, covers ((a1, b') :: r') i -> covers ((a1, b) :: r) i) ->
               b' <= b).
    { intros b r b' r' Hab Hab' Hs H.
      destruct (Nat.le_gt_cases b' b) as [Hle|Hlt]; [assumption|exfalso].
      assert (Hin : covers ((a1, b') :: r') b)
        by (left; unfold inside; simpl; lia).
      apply H in Hin. unfold covers in Hin. apply Exists_cons in Hin.
      destruct Hin as [Hin|Hin].
      - unfold inside in Hin. simpl in Hin. lia.
      - pose proof (sep_covers_after _ _ _ Hs Hin). lia. }
    assert (Eb : b1 = b2).
    { apply Nat.le_antisymm.
      - apply (Hup b2 r2 b1 r1); auto. intros i. apply Hc.
      - apply (Hup b1 r1 b2 r2); auto. intros i. apply Hc. }
    subst b2. f_equal.
    apply (IH r2 (Some b1) (Some b1)); auto.
    intros i. split; intros Hi.
    + pose proof (sep_covers_after _ _ _ Hs1 Hi) as Hlt.
      assert (Hin : covers ((a1, b1) :: r1) i) by now right.
      apply Hc in Hin. unfold covers in Hin. apply Exists_cons in Hin.
      destruct Hin as [Hin|Hin]; [|assumption].
      unfold inside in Hin. simpl in Hin. lia.
    + pose proof (sep_covers_after _ _ _ Hs2 Hi) as Hlt.
      assert (Hin : covers ((a1, b1) :: r2) i) by now right.
      apply Hc in Hin. unfold covers in Hin. apply Exists_cons in Hin.
      destruct Hin as [Hin|Hin]; [|assumption].
      unfold inside in Hin. simpl in Hin. lia.
Qed.

Lemma proper_covers_nil (l : list span) :
  Forall proper l -> (forall i, ~ covers l i) -> l = [].
Proof.
  destruct l as [|[a b] l]; [reflexivity|]. intros H Hc. exfalso.
  inversion H as [|? ? Hab _]; subst. unfold proper in Hab. simpl in Hab.
  apply (Hc a). left. unfold inside. simpl. lia.
Qed.

Lemma brace_entities_by_cover nlp1 nlp2 text :
  Forall proper (entity_spans (nlp1 text)) ->
  Forall proper (entity_spans (nlp2 text)) ->
  (forall i, covers (entity_spans (nlp1 text)) i
             <-> covers (entity_spans (nlp2 text)) i) ->
  brace_entities nlp1 text = brace_entities nlp2 text.
Proof.
  intros H1 H2 Hc. unfold brace_entities.
  destruct (merged_sep _ H1) as [S1 C1]. destruct (merged_sep _ H2) as [S2 C2].
  assert (E : merge_spans (sort_spans (entity_spans (nlp1 text)))
              = merge_spans (sort_spans (entity_spans (nlp2 text)))).
  { apply (sep_unique _ _ None None S1 S2). intros i. now rewrite C1, C2. }
  destruct (entity_spans (nlp1 text)) as [|s1 l1] eqn:E1.
  - rewrite (proper_covers_nil _ H2); [reflexivity|].
    intros i Hi. apply Hc in Hi. inversion Hi.
  - destruct (entity_spans (nlp2 text)) as [|s2 l2] eqn:E2.
    + exfalso. assert (E0 : s1 :: l1 = []); [|discriminate E0].
      apply proper_covers_nil; [assumption|].
      intros i Hi. apply Hc in Hi. inversion Hi.
    + now rewrite E.
Qed.

(** X4. The output of [brace_entities] depends only on the positions
    that the recognized entities hold: two providers whose recognized
    spans on a text are not empty and hold the same positions give the
    same output, whatever the order, the overlaps and the repetitions of
    their spans. *)
Theorem brace_entities_coverage (nlp1 nlp2 : provider) (text : str) :
  Forall proper (entity_spans (nlp1 text)) ->
  Forall proper (entity_spans (nlp2 text)) ->
  (forall i, covers (entity_spans (nlp1 text)) i
             <-> covers (entity_spans (nlp2 text)) i) ->
  brace_entities nlp1 text = brace_entities nlp2 text.
Proof. apply brace_entities_by_cover. Qed.

Lemma brace_entities_coverage_witness :
  brace_entities (fixed_spans [(0, 3); (3, 5); (6, 7)]) (lit "abcdefgh")
  = brace_entities (fixed_spans [(6, 7); (1, 5); (0, 2); (0, 2)])
      (lit "abcdefgh").
Proof.
  apply brace_entities_coverage.
  - vm_compute. repeat constructor.
  - vm_compute. repeat constructor.
  - intros i.
    change (entity_spans (fixed_spans [(0, 3); (3, 5); (6, 7)]
                            (lit "abcdefgh")))
      with [(0, 3); (3, 5); (6, 7)].
    change (entity_spans (fixed_spans [(6, 7); (1, 5); (0, 2); (0, 2)]
                            (lit "abcdefgh")))
      with [(6, 7); (1, 5); (0, 2); (0, 2)].
    unfold covers. rewrite !Exists_cons, !Exists_nil.
    unfold inside. cbn [fst snd]. lia.
Defined.

(** ** Offsets beyond the text *)

Lemma brace_entities_strip_ordered nlp text :
  Forall ordered (entity_spans (nlp text)) ->
  strip (brace_entities nlp text) = strip text.
Proof.
  intros H. unfold brace_entities.
  destruct (entity_spans (nlp text)) as [|s l] eqn:E; [reflexivity|].
  pose proof (merge_spans_chain _ (sort_spans_Forall _ _ H)) as Hc.
  pose proof (emit_strip text _ [] 0 Hc) as Hs.
  destruct (fold_left (emit_step text) (merge_spans (sort_spans (s :: l)))
              ([], 0)) as [out lo'].
  exact Hs.
Qed.

(** X5. Offsets are clamped the way slices are: as long as no recognized
    span ends before it starts, [brace_entities] adds marker characters
    and nothing else, also for spans that are empty or reach beyond the
    end of the text. *)
Theorem brace_entities_clamps (nlp : provider) (text : str) :
  Forall ordered (entity_spans (nlp text)) ->
  strip (brace_entities nlp text) = strip text.
Proof. apply brace_entities_strip_ordered. Qed.

Lemma brace_entities_clamps_witness :
  brace_entities (fixed_spans [(6, 100); (2, 2); (200, 300)]) (lit "abcdefgh")
  = lit "ab{}cdef{gh}{}"
  /\ strip (brace_entities (fixed_spans [(6, 100); (2, 2); (200, 300)])
              (lit "abcdefgh"))
     = lit "abcdefgh".
Proof.
  split; [reflexivity|].
  apply (brace_entities_clamps (fixed_spans [(6, 100); (2, 2); (200, 300)])
           (lit "abcdefgh")).
  change (entity_spans (fixed_spans [(6, 100); (2, 2); (200, 300)]
                          (lit "abcdefgh")))
    with [(6, 100); (2, 2); (200, 300)].
  repeat constructor; unfold ordered; cbn [fst snd]; lia.
Defined.

(** ** Balanced markers stay balanced *)

Lemma flat_app_closed a : forall i t,
  flat i a = true -> flat i (a ++ t) = flat false t.
Proof.
  induction a as [|c a IH]; intros i t; cbn [app flat].
  - destruct i; [discriminate|reflexivity].
  - destruct (is_lbrace c).
    + destruct i; cbn [negb andb]; [discriminate|apply IH].
    + destruct (is_rbrace c); [|apply IH].
      destruct i; cbn [andb]; [apply IH|discriminate].
Qed.

Lemma flat_concat l :
  Forall (fun p => flat false p = true) l -> flat false (concat l) = true.
Proof.
  induction 1 as [|p l Hp Hl IH]; cbn [concat]; [reflexivity|].
  now rewrite (flat_app_closed _ _ _ Hp).
Qed.

Lemma marker_free_cons c p :
  marker_free (c :: p) ->
  is_lbrace c = false /\ is_rbrace c = false /\ marker_free p.
Proof.
  intros [H1 H2]. repeat split.
  - apply is_lbrace_neq. intros ->. apply H1. now left.
  - apply is_rbrace_neq. intros ->. apply H2. now left.
  - intros H. apply H1. now right.
  - intros H. apply H2. now right.
Qed.

Lemma marker_free_skip p : forall i t,
  marker_free p -> flat i (p ++ t) = flat i t.
Proof.
  induction p as [|c p IH]; intros i t H; cbn [app flat]; [reflexivity|].
  apply marker_free_cons in H. destruct H as (-> & -> & H). now apply IH.
Qed.

Lemma marker_free_flat p : marker_free p -> flat false p = true.
Proof.
  intros H. rewrite <- (app_nil_r p). now rewrite marker_free_skip.
Qed.

Lemma marker_free_app a b :
  marker_free a -> marker_free b -> marker_free (a ++ b).
Proof.
  intros [H1 H2] [H3 H4]. split; intros H; apply in_app_or in H; tauto.
Qed.

Lemma marker_free_firstn n p : marker_free p -> marker_free (firstn n p).
Proof.
  intros [H1 H2]. rewrite <- (firstn_skipn n p) in H1, H2.
  split; intros H; [apply H1|apply H2]; apply in_or_app; now left.
Qed.

Lemma marker_free_skipn n p : marker_free p -> marker_free (skipn n p).
Proof.
  intros [H1 H2]. rewrite <- (firstn_skipn n p) in H1, H2.
  split; intros H; [apply H1|apply H2]; apply in_or_app; now right.
Qed.

Lemma wrapped_skip body t :
  marker_free body ->
  flat false (lbrace :: body ++ rbrace :: t) = flat false t.
Proof.
  intros H. cbn [flat]. change (is_lbrace lbrace) with true. cbn [negb andb].
  rewrite (marker_free_skip _ _ _ H). reflexivity.
Qed.

Lemma emit_flat text merged : forall out lo,
  marker_free text -> flat false (concat out) = true ->
  flat false
    (concat (fst (fold_left (emit_step text) merged (out, lo))
             ++ [slice_from
                   (snd (fold_left (emit_step text) merged (out, lo)))
                   text]))
  = true.
Proof.
  induction merged as [|[a b] m IH]; intros out lo Ht Ho.
  - cbn [fold_left fst snd]. rewrite concat_app.
    rewrite (flat_app_closed _ _ _ Ho). cbn [concat]. rewrite app_nil_r.
    now apply marker_free_flat, marker_free_skipn.
  - cbn [fold_left emit_step]. apply IH; [assumption|].
    rewrite concat_app, (flat_app_closed _ _ _ Ho). cbn [concat].
    rewrite app_nil_r. unfold slice.
    rewrite marker_free_skip
      by now apply marker_free_firstn, marker_free_skipn.
    rewrite wrapped_skip; [reflexivity|].
    now apply marker_free_firstn, marker_free_skipn.
Qed.

Lemma brace_entities_flat nlp text :
  marker_free text -> flat false (brace_entities nlp text) = true.
Proof.
  intros H. unfold brace_entities.
  destruct (entity_spans (nlp text)) as [|s l];
    [now apply marker_free_flat|].
  pose proof (emit_flat text (merge_spans (sort_spans (s :: l))) [] 0 H
                eq_refl) as Hf.
  assert (E : forall r : list str * nat,
             (let (out, last) := r in concat (out ++ [slice_from last text]))
             = concat (fst r ++ [slice_from (snd r) text]))
    by (intros [? ?]; reflexivity).
  rewrite E. exact Hf.
Qed.

Lemma wrap_words_flat s : forall cur t,
  marker_free cur -> marker_free s ->
  flat false (wrap_words cur s ++ t) = flat false t.
Proof.
  assert (Htok : forall cur t, marker_free cur ->
                   flat false (wrap_token cur ++ t) = flat false t).
  { intros cur t H. unfold wrap_token. destruct (qualifies cur).
    - rewrite <- app_comm_cons, <- app_assoc. cbn [app].
      now apply wrapped_skip.
    - now apply marker_free_skip. }
  induction s as [|c r IH]; intros cur t Hc Hs; cbn [wrap_words].
  - now apply Htok.
  - apply marker_free_cons in Hs. destruct Hs as (Hl & Hr & Hs).
    destruct (is_word c).
    + apply IH; [|assumption]. apply marker_free_app; [assumption|].
      split; intros [E|[]]; subst c; discriminate.
    + rewrite <- app_assoc, Htok by assumption. cbn [app flat].
      rewrite Hl, Hr. apply IH; [|assumption]. split; intros [].
Qed.

Lemma acronym_sub_flat p :
  marker_free p -> flat false (acronym_sub None p) = true.
Proof.
  intros H. rewrite (acronym_sub_scan p None). cbn [word_opt].
  rewrite <- (app_nil_r (wrap_words [] p)).
  rewrite wrap_words_flat; [reflexivity| |assumption]. split; intros [].
Qed.

Lemma flat_same_markers o p :
  Forall2 same_markers o p -> forall i, flat i o = flat i p.
Proof.
  induction 1 as [|a b o p [Hl Hr] H IH]; intros i; cbn [flat]; [reflexivity|].
  now rewrite Hl, Hr, !IH.
Qed.

Lemma sentence_case_markers text :
  Forall2 same_markers (sentence_case_preserve_braces text) text.
Proof.
  rewrite sentence_case_eq. rewrite <- (concat_split_braces text) at 2.
  apply Forall2_concat, case_parts_markers.
Qed.

Lemma flat_inside_clean body t :
  flat true (body ++ rbrace :: t) = true -> ~ In rbrace body ->
  ~ In lbrace body.
Proof.
  induction body as [|c body IH]; cbn [app flat]; intros H Hn; [intros []|].
  destruct (is_lbrace c) eqn:El; [discriminate|].
  destruct (is_rbrace c) eqn:Er.
  - exfalso. apply is_rbrace_eq in Er. apply Hn. now left.
  - apply is_lbrace_neq in El. intros [E|E]; [congruence|].
    revert E. apply IH; [assumption|]. intros E. apply Hn. now right.
Qed.

(** The segments of a text with balanced markers: texts without marker
    and protected spans that are balanced themselves. *)
Lemma split_braces_flat_parts s :
  flat false s = true ->
  Forall (fun p => flat false p = true
                   /\ (is_protected p = true \/ marker_free p))
         (split_braces s).
Proof.
  induction s as [s IH] using (induction_ltof1 _ (@length ascii)).
  intros H. rewrite split_braces_eq.
  destruct (search_brace s) as [[[pre m] rest]|] eqn:E.
  - pose proof (search_brace_pre _ _ _ _ E) as Hpre.
    pose proof (search_brace_wrapped _ _ _ _ E) as Hm.
    destruct (search_brace_split _ _ _ _ E) as [Hs _]. subst s.
    destruct (flat_outside_prefix _ _ H Hpre) as [Hpre' H'].
    destruct Hm as (body & Hb & Hnb). subst m.
    assert (H'' : flat true (body ++ rbrace :: rest) = true).
    { cbn [app flat] in H'. rewrite <- app_assoc in H'. cbn [app] in H'.
      change (is_lbrace lbrace) with true in H'. exact H'. }
    assert (Hbody : marker_free body).
    { split; [|assumption]. eapply flat_inside_clean; eauto. }
    constructor; [split; [apply marker_free_flat|right]; now split|].
    constructor.
    + split.
      * rewrite <- (app_nil_r (lbrace :: body ++ [rbrace])).
        rewrite <- app_comm_cons, <- app_assoc. cbn [app].
        now rewrite wrapped_skip.
      * left. apply is_protected_shape. now exists body.
    + apply IH; [red; eapply search_brace_shorter; eauto|].
      eapply flat_inside_body; eauto.
  - constructor; [|constructor].
    assert (Hm : marker_free s)
      by (apply flat_no_pair; [assumption|now apply search_brace_none]).
    split; [now apply marker_free_flat|now right].
Qed.

Lemma flat_pass (f : str -> str) s :
  (forall p, marker_free p -> flat false (f p) = true) ->
  flat false s = true ->
  flat false
    (concat (map (fun p => if is_protected p then p else f p)
                 (split_braces s)))
  = true.
Proof.
  intros Hf H. apply flat_concat. apply split_braces_flat_parts in H.
  induction H as [|p l [Hp Hk] Hl IH]; cbn [map]; constructor; auto.
  destruct (is_protected p) eqn:E; [assumption|].
  destruct Hk as [Hk|Hk]; [congruence|now apply Hf].
Qed.

Lemma passes_keep_flat nlp title :
  flat false title = true ->
  flat false (brace_entities_preserve_existing nlp title) = true
  /\ flat false (protect_acronyms_preserve_braces title) = true
  /\ flat false (sentence_case_preserve_braces title) = true
  /\ flat false (fst (process_title nlp title)) = true.
Proof.
  intros H.
  assert (H1 : forall t, flat false t = true ->
                 flat false (brace_entities_preserve_existing nlp t) = true).
  { intros t Ht. apply flat_pass; [apply brace_entities_flat|assumption]. }
  assert (H2 : forall t, flat false t = true ->
                 flat false (protect_acronyms_preserve_braces t) = true).
  { intros t Ht. apply flat_pass; [apply acronym_sub_flat|assumption]. }
  assert (H3 : forall t, flat false (sentence_case_preserve_braces t)
                         = flat false t).
  { intros t. apply flat_same_markers, sentence_case_markers. }
  repeat split; auto.
  - now rewrite H3.
  - unfold process_title. cbn [fst]. rewrite H3. auto.
Qed.

(** X6. No nesting: when the markers of a title are balanced and not
    nested, they are so after the Entity Protector, after the Acronym
    Protector, after the Sentence Caser and in the result of
    [process_title], whatever the provider returns; no pass wraps a span
    inside another one or leaves a marker unclosed. *)
Theorem markers_stay_balanced (nlp : provider) (title : str) :
  flat false title = true ->
  flat false (brace_entities_preserve_existing nlp title) = true
  /\ flat false (protect_acronyms_preserve_braces title) = true
  /\ flat false (sentence_case_preserve_braces title) = true
  /\ flat false (fst (process_title nlp title)) = true.
Proof. apply passes_keep_flat. Qed.

Lemma markers_stay_balanced_witness :
  flat false (lit "the LORD of {IBM} and NASA") = true
  /\ fst (process_title lord_provider (lit "the LORD of {IBM} and NASA"))
     = lit "The {LORD} of {IBM} and {NASA}"
  /\ flat false
       (fst (process_title lord_provider (lit "the LORD of {IBM} and NASA")))
     = true.
Proof.
  split; [reflexivity|]. split; [reflexivity|].
  apply (markers_stay_balanced lord_provider
           (lit "the LORD of {IBM} and NASA")).
  reflexivity.
Defined.

(** ** What the Sentence Caser changes *)

(** Equal up to the case of the letters. *)
Definition same_letter (a b : ascii) : Prop := lower_char a = lower_char b.

Lemma same_or_upper_letter o s :
  Forall2 same_or_upper o s -> Forall2 same_letter o s.
Proof.
  induction 1 as [|a b o s Hab H IH]; constructor; [|assumption].
  unfold same_letter. destruct Hab as [->| ->];
    [reflexivity|apply lower_upper_char].
Qed.

Lemma same_letter_trans a b : forall c,
  Forall2 same_letter a b -> Forall2 same_letter b c ->
  Forall2 same_letter a c.
Proof.
  intros c H. revert c. induction H as [|x y a b Hxy H IH]; intros c Hc;
    inversion Hc; subst; constructor; auto.
  unfold same_letter in *. congruence.
Qed.

Lemma same_letter_refl s : Forall2 same_letter s s.
Proof. induction s; constructor; auto. reflexivity. Qed.

Lemma lower_same_letter p : Forall2 same_letter (lower p) p.
Proof.
  induction p as [|c p IH]; cbn [lower map]; constructor; [|exact IH].
  apply lower_char_idem.
Qed.

Lemma cased_same_letter (fire : bool) p :
  Forall2 same_letter
    (colon_sub (if fire then capitalize_first (lower p) else lower p)) p.
Proof.
  eapply same_letter_trans;
    [apply same_or_upper_letter, colon_sub_pointwise|].
  eapply same_letter_trans; [|apply lower_same_letter].
  destruct fire;
    [apply same_or_upper_letter, capitalize_first_pointwise
    |apply same_letter_refl].
Qed.

Lemma case_parts_same_letter parts : forall first,
  Forall2 (Forall2 same_letter) (case_parts first parts) parts.
Proof.
  induction parts as [|p ps IH]; intros first; cbn [case_parts]; [constructor|].
  destruct (is_protected p).
  - constructor; [apply same_letter_refl|apply IH].
  - destruct (first && search_letter (lower p)).
    + constructor; [apply (cased_same_letter true p)|apply IH].
    + constructor; [apply (cased_same_letter false p)|apply IH].
Qed.

Lemma same_letter_lower a b : Forall2 same_letter a b -> lower a = lower b.
Proof.
  induction 1 as [|x y a b Hxy H IH]; cbn [lower map]; [reflexivity|].
  fold (lower a) (lower b). now rewrite Hxy, IH.
Qed.

Lemma sentence_case_same_letter text :
  Forall2 same_letter (sentence_case_preserve_braces text) text.
Proof.
  rewrite sentence_case_eq. rewrite <- (concat_split_braces text) at 2.
  apply Forall2_concat, case_parts_same_letter.
Qed.

(** X7. The Sentence Caser changes the case of letters and nothing else:
    its output has the length of its input and differs from it, place by
    place, at most in the case of a character, so that both have the
    same lower-casing. *)
Theorem sentence_case_only_case (text : str) :
  Forall2 same_letter (sentence_case_preserve_braces text) text
  /\ length (sentence_case_preserve_braces text) = length text
  /\ lower (sentence_case_preserve_braces text) = lower text.
Proof.
  pose proof (sentence_case_same_letter text) as H.
  split; [exact H|]. split; [eapply Forall2_length; eauto|].
  now apply same_letter_lower.
Qed.

(** X8. The Sentence Caser is idempotent: applied to its own output, it
    returns that output. *)
Theorem sentence_case_twice (text : str) :
  sentence_case_preserve_braces (sentence_case_preserve_braces text)
  = sentence_case_preserve_braces text.
Proof. apply sentence_case_idem. Qed.

(** ** What every result of the pipeline looks like *)




(** ** The Acronym Protector applied twice *)

(** The scan of the specification meets no qualifying word; [cur] is the
    word read so far. *)
Fixpoint quiet_scan (cur : str) (s : str) : bool :=
  match s with
  | [] => negb (qualifies cur)
  | c :: r =>
      if is_word c then quiet_scan (cur ++ [c]) r
      else negb (qualifies cur) && quiet_scan [] r
  end.

Definition quiet (s : str) : Prop := quiet_scan [] s = true.

Lemma quiet_scan_fixed s : forall cur,
  quiet_scan cur s = true -> wrap_words cur s = cur ++ s.
Proof.
  induction s as [|c r IH]; intros cur; cbn [quiet_scan wrap_words].
  - rewrite negb_true_iff. intros H. unfold wrap_token.
    now rewrite H, app_nil_r.
  - destruct (is_word c).
    + intros H. rewrite (IH _ H), <- app_assoc. reflexivity.
    + rewrite andb_true_iff, negb_true_iff. intros [H1 H2].
      unfold wrap_token. rewrite H1. now rewrite (IH [] H2).
Qed.

Lemma quiet_scan_cut a c b : forall cur,
  is_word c = false ->
  quiet_scan cur (a ++ c :: b) = quiet_scan cur a && quiet_scan [] b.
Proof.
  intros cur Hc. revert cur.
  induction a as [|x a IH]; intros cur; cbn [app quiet_scan].
  - now rewrite Hc.
  - destruct (is_word x); [apply IH|]. now rewrite IH, andb_assoc.
Qed.

Lemma quiet_scan_word w : forall cur,
  forallb is_word w = true ->
  quiet_scan cur w = negb (qualifies (cur ++ w)).
Proof.
  induction w as [|c w IH]; intros cur; cbn [forallb quiet_scan].
  - now rewrite app_nil_r.
  - rewrite andb_true_iff. intros [Hc Hw]. rewrite Hc, (IH _ Hw).
    now rewrite <- app_assoc.
Qed.

(** Two texts that meet at a word boundary are scanned one after the
    other. *)
Lemma quiet_scan_app plain x :
  word_opt (hd_error (rev plain)) = false \/ word_opt (hd_error x) = false ->
  quiet_scan [] (plain ++ x) = quiet_scan [] plain && quiet_scan [] x.
Proof.
  intros [H|H].
  - destruct (rev plain) as [|c l] eqn:E;
      apply (f_equal (@rev ascii)) in E; rewrite rev_involutive in E;
      subst plain; [reflexivity|].
    cbn [rev hd_error word_opt] in *.
    rewrite <- app_assoc. cbn [app].
    rewrite !(quiet_scan_cut _ _ _ _ H). cbn [quiet_scan].
    change (qualifies []) with false. cbn [negb]. now rewrite andb_true_r.
  - destruct x as [|c b]; cbn [hd_error word_opt] in H.
    + rewrite app_nil_r. cbn [quiet_scan]. change (qualifies []) with false.
      cbn [negb]. now rewrite andb_true_r.
    + rewrite (quiet_scan_cut _ _ _ _ H). cbn [quiet_scan]. rewrite H.
      change (qualifies []) with false. reflexivity.
Qed.

(** Texts on which the Acronym Protector has nothing left to wrap. *)
Inductive settled : str -> Prop :=
| settled_plain t : no_pair t -> quiet t -> settled t
| settled_span plain m y :
    ~ In lbrace plain -> quiet plain -> wrapped m -> settled y ->
    settled (plain ++ m ++ y).

Lemma settled_segments y :
  settled y ->
  Forall (fun p => is_protected p = true \/ quiet p) (split_braces y).
Proof.
  induction 1 as [t Hn Ht|plain m y Hp Hq Hm Hy IH].
  - rewrite split_braces_eq, (no_pair_search _ Hn).
    constructor; [now right|constructor].
  - rewrite split_braces_eq, search_brace_found by assumption.
    constructor; [now right|].
    constructor; [left; now apply wrapped_protected|exact IH].
Qed.

Lemma lbrace_not_word : is_word lbrace = false.
Proof. reflexivity. Qed.

Lemma settled_close plain0 m y :
  quiet plain0 -> no_pair plain0 -> wrapped m -> settled y ->
  settled (plain0 ++ m ++ y).
Proof.
  intros Hq Hn Hm Hy. destruct (first_lbrace plain0) as [H|(q1 & q2 & -> & Hq1)].
  - now apply settled_span.
  - destruct Hm as (body & -> & Hb).
    unfold quiet in Hq. rewrite (quiet_scan_cut _ _ _ _ lbrace_not_word) in Hq.
    apply andb_true_iff in Hq. destruct Hq as [Hq _].
    assert (Hq2 : ~ In rbrace q2).
    { intros Hin. apply in_split in Hin. destruct Hin as (v & w & ->).
      apply (Hn q1 v w). reflexivity. }
    replace ((q1 ++ lbrace :: q2) ++ (lbrace :: body ++ [rbrace]) ++ y)
      with (q1 ++ (lbrace :: (q2 ++ lbrace :: body) ++ [rbrace]) ++ y).
    + apply settled_span; auto.
      exists (q2 ++ lbrace :: body). split; [reflexivity|].
      intros Hin. apply in_app_or in Hin. destruct Hin as [Hin|[Hin|Hin]];
        [auto|discriminate Hin|auto].
    + repeat (rewrite <- ?app_assoc; cbn [app]). reflexivity.
Qed.

Definition closing_settled (Z : str) : Prop :=
  Z = [] \/ exists m y, Z = m ++ y /\ wrapped m /\ settled y.

Lemma wrap_settled u : forall plain0 Z,
  quiet plain0 ->
  word_opt (hd_error (rev plain0)) = false \/ word_opt (hd_error u) = false ->
  no_pair (plain0 ++ u) -> closing_settled Z ->
  settled (plain0 ++ wrap_words [] u ++ Z).
Proof.
  induction u as [u IH] using (induction_ltof1 _ (@length ascii)).
  intros plain0 Z Hq Hb Hn HZ. destruct u as [|c r].
  - rewrite app_nil_r in Hn. cbn [wrap_words]. rewrite wrap_token_nil.
    cbn [app]. destruct HZ as [->|(m & y & -> & Hm & Hy)].
    + rewrite app_nil_r. now apply settled_plain.
    + now apply settled_close.
  - destruct (is_word c) eqn:Ec.
    + assert (Hb' : word_opt (hd_error (rev plain0)) = false).
      { destruct Hb as [Hb|Hb]; [exact Hb|].
        cbn [hd_error word_opt] in Hb. congruence. }
      rewrite wrap_words_run, <- (app_assoc (wrap_token _)).
      change ([] ++ run is_word (c :: r)) with (run is_word (c :: r)).
      pose proof (run_drop_run is_word (c :: r)) as Hu.
      pose proof (run_all is_word (c :: r)) as Hw.
      pose proof (drop_run_word_head (c :: r)) as Hrest.
      assert (Hlen : ltof _ (@length ascii) (drop_run is_word (c :: r)) (c :: r)).
      { red. cbn [drop_run]. rewrite Ec.
        pose proof (drop_run_length is_word r). simpl. lia. }
      set (w := run is_word (c :: r)) in *.
      set (rest := drop_run is_word (c :: r)) in *.
      unfold wrap_token. destruct (qualifies w) eqn:Q.
      * rewrite <- Hu in Hn. apply no_pair_app in Hn. destruct Hn as [Hn1 Hn2].
        apply no_pair_app in Hn2. destruct Hn2 as [_ Hn2].
        apply (settled_close plain0 (lbrace :: w ++ [rbrace])
                 (wrap_words [] rest ++ Z)); auto.
        -- exists w. split; [reflexivity|apply run_no_rbrace].
        -- apply (IH rest Hlen [] Z); auto. reflexivity.
      * rewrite (app_assoc plain0 w).
        apply (IH rest Hlen (plain0 ++ w) Z); auto.
        -- unfold quiet. rewrite quiet_scan_app by now left.
           rewrite Hq, (quiet_scan_word _ [] Hw). cbn [app andb].
           now rewrite Q.
        -- now rewrite <- app_assoc, Hu.
    + cbn [wrap_words]. rewrite Ec, wrap_token_nil. cbn [app].
      assert (Eq : plain0 ++ c :: wrap_words [] r ++ Z
                   = (plain0 ++ [c]) ++ wrap_words [] r ++ Z)
        by (rewrite <- app_assoc; reflexivity).
      rewrite Eq. apply (IH r); auto.
      * red. simpl. lia.
      * unfold quiet. rewrite quiet_scan_app.
        -- rewrite Hq. cbn [quiet_scan]. rewrite Ec. reflexivity.
        -- right. cbn [hd_error word_opt]. exact Ec.
      * left. rewrite rev_app_distr. cbn [rev app hd_error word_opt].
        exact Ec.
      * now rewrite <- app_assoc.
Qed.

Lemma protect_acronyms_settled x :
  settled (protect_acronyms_preserve_braces x).
Proof.
  rewrite protect_acronyms_scan.
  induction x as [x IH] using (induction_ltof1 _ (@length ascii)).
  unfold spec_protect_acronyms. rewrite split_braces_eq.
  destruct (search_brace x) as [[[pre m] rest]|] eqn:E.
  - pose proof (search_brace_pre _ _ _ _ E) as Hpre.
    pose proof (search_brace_wrapped _ _ _ _ E) as Hm.
    cbn [map concat].
    rewrite (no_pair_unprotected _ (no_lbrace_no_pair _ Hpre)).
    rewrite (wrapped_protected _ Hm).
    fold (spec_protect_acronyms rest).
    apply (wrap_settled pre [] (m ++ spec_protect_acronyms rest)).
    + reflexivity.
    + now left.
    + now apply no_lbrace_no_pair.
    + right. exists m, (spec_protect_acronyms rest). repeat split; auto.
      apply IH. red. eapply search_brace_shorter; eauto.
  - apply search_brace_none in E. cbn [map concat].
    rewrite (no_pair_unprotected _ E).
    apply (wrap_settled x [] []); [reflexivity|now left|exact E|now left].
Qed.

Lemma protect_acronyms_idem x :
  protect_acronyms_preserve_braces (protect_acronyms_preserve_braces x)
  = protect_acronyms_preserve_braces x.
Proof.
  unfold protect_acronyms_preserve_braces at 1.
  rewrite concat_map_fixed; [apply concat_split_braces|].
  pose proof (settled_segments _ (protect_acronyms_settled x)) as H.
  eapply Forall_impl; [|exact H]. intros p [Hp|Hp]; [now left|right].
  rewrite (acronym_sub_scan p None). cbn [word_opt].
  apply (quiet_scan_fixed p [] Hp).
Qed.

(** X10. The Acronym Protector is idempotent: applied to its own output,
    it wraps nothing more, also when the markers of the text are
    unbalanced. *)
Theorem protect_acronyms_twice (x : str) :
  protect_acronyms_preserve_braces (protect_acronyms_preserve_braces x)
  = protect_acronyms_preserve_braces x.
Proof. apply protect_acronyms_idem. Qed.

(** ** What the pipeline changes in a title *)

Lemma is_marker_lower c : is_marker (lower_char c) = is_marker c.
Proof. by_cases_on c. Qed.

Lemma lower_strip s : lower (strip s) = strip (lower s).
Proof.
  induction s as [|c s IH]; [reflexivity|].
  unfold strip, lower in *. cbn [filter map]. rewrite is_marker_lower.
  destruct (is_marker c); cbn [negb map]; [exact IH|now rewrite IH].
Qed.

(** Every span the provider returns with a recognized label for an
    unprotected segment of [raw] has its start at or before its end. *)
Definition spans_ordered (nlp : provider) (raw : str) : Prop :=
  Forall (fun p => is_protected p = true
                   \/ Forall ordered (entity_spans (nlp p)))
         (split_braces raw).

Lemma entities_pass_strip nlp raw :
  spans_ordered nlp raw ->
  strip (brace_entities_preserve_existing nlp raw) = strip raw.
Proof.
  intros H. unfold brace_entities_preserve_existing.
  rewrite <- (concat_split_braces raw) at 2.
  rewrite !strip_concat, map_map. f_equal.
  induction H as [|p ps Hp _ IH]; cbn [map]; [reflexivity|].
  rewrite IH. f_equal. destruct (is_protected p); [reflexivity|].
  destruct Hp as [Hp|Hp]; [discriminate|].
  now apply brace_entities_strip_ordered.
Qed.

Lemma process_title_letters nlp raw :
  spans_ordered nlp raw ->
  lower (strip (fst (process_title nlp raw))) = lower (strip raw).
Proof.
  intros H. unfold process_title. cbn [fst].
  rewrite lower_strip.
  rewrite (same_letter_lower _ _ (sentence_case_same_letter _)).
  rewrite <- lower_strip, protect_acronyms_strip.
  now rewrite entities_pass_strip.
Qed.

(** X11. On titles over U+0000..U+00FF the pipeline only inserts
    markers and changes the case of characters: when every recognized
    span of the unprotected segments of such a title has its start at or
    before its end, the result of [process_title] and the title are the
    same string once the markers are deleted and both are put in lower
    case.  (Beyond U+00FF [str.lower] is no character-by-character map,
    and the statement is not made there.) *)
Theorem process_title_keeps_letters (nlp : provider) (raw : str) :
  spans_ordered nlp raw ->
  lower (strip (fst (process_title nlp raw))) = lower (strip raw).
Proof. apply process_title_letters. Qed.

Lemma process_title_keeps_letters_witness :
  spans_ordered lord_provider (lit "the {Ring} of the LORD: a story")
  /\ fst (process_title lord_provider (lit "the {Ring} of the LORD: a story"))
     = lit "The {Ring} of the {LORD}: A story"
  /\ lower (strip (fst (process_title lord_provider
                          (lit "the {Ring} of the LORD: a story"))))
     = lower (strip (lit "the {Ring} of the LORD: a story")).
Proof.
  assert (H : spans_ordered lord_provider
                (lit "the {Ring} of the LORD: a story")).
  { unfold spans_ordered.
    change (split_braces (lit "the {Ring} of the LORD: a story"))
      with [lit "the "; lit "{Ring}"; lit " of the LORD: a story"].
    constructor; [right; constructor|].
    constructor; [left; reflexivity|].
    constructor; [right|constructor].
    change (entity_spans (lord_provider (lit " of the LORD: a story")))
      with [(8, 12)].
    constructor; [unfold ordered; cbn [fst snd]; lia|constructor]. }
  split; [exact H|]. split; [reflexivity|].
  exact (process_title_keeps_letters lord_provider
           (lit "the {Ring} of the LORD: a story") H).
Defined.

(** ** Titles made of protected spans *)

Lemma split_braces_spans ms :
  Forall wrapped ms ->
  Forall (fun p => is_protected p = true \/ p = [])
         (split_braces (concat ms)).
Proof.
  induction 1 as [|m ms Hm _ IH]; cbn [concat].
  - rewrite split_braces_nil. constructor; [now right|constructor].
  - change (m ++ concat ms) with ([] ++ m ++ concat ms).
    rewrite split_braces_eq.
    rewrite (search_brace_found [] m (concat ms) (fun F => F) Hm).
    constructor; [now right|].
    constructor; [left; now apply wrapped_protected|exact IH].
Qed.

Lemma case_parts_spans parts : forall first,
  Forall (fun p => is_protected p = true \/ p = []) parts ->
  case_parts first parts = parts.
Proof.
  induction parts as [|p ps IH]; intros first H; [reflexivity|].
  inversion H as [|? ? Hp Hps]; subst. cbn [case_parts].
  destruct Hp as [Hp| ->].
  - rewrite Hp. now rewrite IH.
  - change (is_protected []) with false. cbv iota.
    change (lower []) with (@nil ascii).
    change (search_letter []) with false. rewrite andb_false_r.
    rewrite IH by assumption. reflexivity.
Qed.

Lemma spans_title_fixed nlp ms :
  Forall wrapped ms -> entity_spans (nlp []) = [] ->
  process_title nlp (concat ms) = (concat ms, false).
Proof.
  intros Hms Hn. pose proof (split_braces_spans _ Hms) as Hs.
  assert (E1 : brace_entities_preserve_existing nlp (concat ms) = concat ms).
  { apply entities_stable_fixed. unfold entities_stable.
    eapply Forall_impl; [|exact Hs]. intros p [Hp| ->]; [now left|now right]. }
  assert (E2 : protect_acronyms_preserve_braces (concat ms) = concat ms).
  { apply acronyms_stable_fixed. unfold acronyms_stable.
    eapply Forall_impl; [|exact Hs]. intros p [Hp| ->]; [now left|right].
    rewrite (acronym_sub_scan [] None). reflexivity. }
  assert (E3 : sentence_case_preserve_braces (concat ms) = concat ms).
  { rewrite sentence_case_eq, (case_parts_spans _ true Hs).
    apply concat_split_braces. }
  unfold process_title. rewrite E1, E2, E3. f_equal.
  apply negb_false_iff, str_eqb_eq. reflexivity.
Qed.

(** X12. A title that consists of protected spans only is returned as it
    is, with the flag at false, by every provider that reports no
    recognized entity for the empty text; the empty text is what the
    three passes find before, between and after the spans. *)
Theorem protected_title_untouched (nlp : provider) (ms : list str) :
  Forall wrapped ms -> entity_spans (nlp []) = [] ->
  process_title nlp (concat ms) = (concat ms, false).
Proof. apply spans_title_fixed. Qed.

Lemma protected_title_untouched_witness :
  process_title lord_provider (lit "{the LORD}{of nasa: a 2nd story}")
  = (lit "{the LORD}{of nasa: a 2nd story}", false).
Proof.
  apply (protected_title_untouched lord_provider
           [lit "{the LORD}"; lit "{of nasa: a 2nd story}"]).
  - constructor; [|constructor; [|constructor]].
    + exists (lit "the LORD"). split; [reflexivity|].
      cbn. intuition discriminate.
    + exists (lit "of nasa: a 2nd story"). split; [reflexivity|].
      cbn. intuition discriminate.
  - reflexivity.
Defined.

(** ** The title field that the Record Rewriter matches *)

Lemma title_sub_eq nlp st c r :
  title_sub nlp st (c :: r) =
  match title_field_at (c :: r) with
  | Some (g1, g2, g3, rest) =>
      emit (fst (replace nlp st (g1, g2, g3, rest)))
           (title_sub nlp (snd (replace nlp st (g1, g2, g3, rest))) rest)
  | None => emit [c] (title_sub nlp st r)
  end.
Proof.
  funelim (title_sub nlp st (c :: r)); rewrite e; reflexivity.
Qed.

(** Group 1 of a match of a pattern piece satisfies [P]. *)
Definition heads (P : str -> Prop) (k : str -> option field) : Prop :=
  forall s g1 g2 g3 rest, k s = Some (g1, g2, g3, rest) -> P g1.

Lemma char_then_heads cls k P :
  heads P k ->
  heads (fun g => exists c g', g = c :: g' /\ cls c = true /\ P g')
        (char_then cls k).
Proof.
  intros Hk [|c r] g1 g2 g3 rest; cbn [char_then]; [discriminate|].
  destruct (cls c) eqn:Ec; [|discriminate].
  destruct (k r) as [[[[h1 h2] h3] hr]|] eqn:E; cbn [push]; [|discriminate].
  intros H; inversion H; subst. exists c, h1. repeat split; auto.
  eapply Hk; eauto.
Qed.

Lemma star_then_heads cls k P :
  heads P k ->
  heads (fun g => exists ws g', g = ws ++ g' /\ forallb cls ws = true /\ P g')
        (star_then cls k).
Proof.
  intros Hk s.
  assert (Hbase : forall t g1 g2 g3 rest, k t = Some (g1, g2, g3, rest) ->
            exists ws g', g1 = ws ++ g' /\ forallb cls ws = true /\ P g').
  { intros t g1 g2 g3 rest H. exists [], g1. repeat split. eapply Hk; eauto. }
  induction s as [|c r IH]; cbn [star_then];
    intros g1 g2 g3 rest H; [now apply (Hbase _ _ _ _ _ H)|].
  destruct (cls c) eqn:Ec; [|now apply (Hbase _ _ _ _ _ H)].
  destruct (star_then cls k r) as [[[[h1 h2] h3] hr]|] eqn:E; cbn [push] in H;
    [|now apply (Hbase _ _ _ _ _ H)].
  inversion H; subst.
  destruct (IH _ _ _ _ eq_refl) as (ws & g' & -> & Hws & Hg).
  exists (c :: ws), g'. repeat split; auto. cbn [forallb]. now rewrite Ec.
Qed.

(** The shape of group 1: the word [title] in any case, white space, the
    equals sign, white space, the opening brace. *)
Definition title_prefix (g1 : str) : Prop :=
  exists w ws1 ws2,
    g1 = w ++ ws1 ++ equals_sign :: ws2 ++ [lbrace]
    /\ lower w = lit "title"
    /\ forallb is_space ws1 = true /\ forallb is_space ws2 = true.

Lemma title_field_at_heads : heads title_prefix title_field_at.
Proof.
  intros s g1 g2 g3 rest H.
  pose proof
    (char_then_heads (ci "t") _ _ (char_then_heads (ci "i") _ _
      (char_then_heads (ci "t") _ _ (char_then_heads (ci "l") _ _
        (char_then_heads (ci "e") _ _
          (star_then_heads is_space _ _ (char_then_heads is_equals _ _
            (star_then_heads is_space _ _
              (char_then_heads is_lbrace lazy_group (fun g => g = [])
                 (fun s g1 g2 g3 rest H =>
                    proj1 (lazy_group_some s g1 g2 g3 rest H))))))))))
       s g1 g2 g3 rest H) as Hs.
  cbv beta in Hs.
  destruct Hs as (c1 & r1 & -> & E1 & c2 & r2 & -> & E2 & c3 & r3 & -> & E3
                  & c4 & r4 & -> & E4 & c5 & r5 & -> & E5
                  & ws1 & r6 & -> & Hws1 & c6 & r7 & -> & E6
                  & ws2 & r8 & -> & Hws2 & c7 & r9 & -> & E7 & ->).
  unfold ci in *. apply Ascii.eqb_eq in E1, E2, E3, E4, E5, E6, E7.
  subst c6 c7. exists [c1; c2; c3; c4; c5], ws1, ws2.
  repeat split; auto. cbn [lower map]. now rewrite E1, E2, E3, E4, E5.
Qed.

(** Groups 2 and 3 of a match of a pattern piece: no closing brace, and
    the closing brace. *)
Definition tails (k : str -> option field) : Prop :=
  forall s g1 g2 g3 rest,
    k s = Some (g1, g2, g3, rest) -> g3 = [rbrace] /\ ~ In rbrace g2.

Lemma char_then_tails cls k : tails k -> tails (char_then cls k).
Proof.
  intros Hk [|c r] g1 g2 g3 rest; cbn [char_then]; [discriminate|].
  destruct (cls c); [|discriminate].
  destruct (k r) as [[[[h1 h2] h3] hr]|] eqn:E; cbn [push]; [|discriminate].
  intros H; inversion H; subst. eapply Hk; eauto.
Qed.

Lemma star_then_tails cls k : tails k -> tails (star_then cls k).
Proof.
  intros Hk s. induction s as [|c r IH]; cbn [star_then];
    intros g1 g2 g3 rest H; [now apply (Hk _ _ _ _ _ H)|].
  destruct (cls c); [|now apply (Hk _ _ _ _ _ H)].
  destruct (star_then cls k r) as [[[[h1 h2] h3] hr]|] eqn:E; cbn [push] in H;
    [|now apply (Hk _ _ _ _ _ H)].
  inversion H; subst. eapply IH; eauto.
Qed.

Lemma title_field_at_tails : tails title_field_at.
Proof.
  unfold title_field_at.
  repeat first [apply char_then_tails | apply star_then_tails].
  intros s g1 g2 g3 rest H. now apply lazy_group_some in H.
Qed.

Lemma lazy_group_found g2 rest :
  ~ In rbrace g2 ->
  lazy_group (g2 ++ rbrace :: rest) = Some ([], g2, [rbrace], rest).
Proof.
  induction g2 as [|c g2 IH]; intros H; cbn [app lazy_group].
  - reflexivity.
  - destruct (is_rbrace c) eqn:Ec.
    + apply Ascii.eqb_eq in Ec. subst c. exfalso. apply H. now left.
    + rewrite IH; [reflexivity|]. intros F. apply H. now right.
Qed.

(** The greedy star takes a run that ends before a character outside the
    class, when the rest of the pattern matches there. *)
Lemma star_then_run cls k ws c r g1 g2 g3 rest :
  forallb cls ws = true -> cls c = false ->
  k (c :: r) = Some (g1, g2, g3, rest) ->
  star_then cls k (ws ++ c :: r) = Some (ws ++ g1, g2, g3, rest).
Proof.
  intros Hws Hc Hk. induction ws as [|x ws IH]; cbn [app star_then].
  - now rewrite Hc.
  - cbn [forallb] in Hws. apply andb_true_iff in Hws. destruct Hws as [Hx Hws].
    rewrite Hx, (IH Hws). reflexivity.
Qed.

Lemma title_field_at_found w ws1 ws2 g2 rest :
  lower w = lit "title" ->
  forallb is_space ws1 = true -> forallb is_space ws2 = true ->
  ~ In rbrace g2 ->
  title_field_at ((w ++ ws1 ++ equals_sign :: ws2 ++ [lbrace])
                  ++ g2 ++ [rbrace] ++ rest)
  = Some (w ++ ws1 ++ equals_sign :: ws2 ++ [lbrace], g2, [rbrace], rest).
Proof.
  intros Hw H1 H2 Hg.
  destruct w as [|c1 [|c2 [|c3 [|c4 [|c5 [|c6 w]]]]]]; try discriminate Hw.
  cbn [lower map] in Hw.
  change (lit "title") with ["t"; "i"; "t"; "l"; "e"]%char in Hw.
  injection Hw as E1 E2 E3 E4 E5.
  unfold title_field_at. cbn [app char_then]. unfold ci.
  rewrite E1, E2, E3, E4, E5. cbn [Ascii.eqb Bool.eqb]. cbn [push].
  repeat (progress (rewrite <- ?app_assoc; cbn [app])).
  rewrite (star_then_run is_space _ ws1 equals_sign
             (ws2 ++ lbrace :: g2 ++ rbrace :: rest)
             (equals_sign :: ws2 ++ [lbrace]) g2 [rbrace] rest H1 eq_refl).
  - reflexivity.
  - cbn [char_then]. change (is_equals equals_sign) with true. cbv iota.
    rewrite (star_then_run is_space _ ws2 lbrace (g2 ++ rbrace :: rest)
               [lbrace] g2 [rbrace] rest H2 eq_refl).
    + reflexivity.
    + cbn [char_then]. change (is_lbrace lbrace) with true. cbv iota.
      now rewrite (lazy_group_found g2 rest Hg).
Qed.

Lemma title_field_at_iff s g1 g2 g3 rest :
  title_field_at s = Some (g1, g2, g3, rest)
  <-> s = g1 ++ g2 ++ g3 ++ rest /\ title_prefix g1
      /\ g3 = [rbrace] /\ ~ In rbrace g2.
Proof.
  split.
  - intros H. split; [now apply title_field_at_cuts|].
    split; [eapply title_field_at_heads; eauto|].
    eapply title_field_at_tails; eauto.
  - intros (-> & (w & ws1 & ws2 & -> & Hw & H1 & H2) & -> & Hg).
    now apply title_field_at_found.
Qed.

(** X13. What [_TITLE_FIELD_RE] matches at a position, and with which
    groups: the text there is cut into group 1, group 2, the closing
    brace and a remainder exactly when group 1 is the word [title] in any
    case, white space, the equals sign, white space and the opening
    brace, and group 2 holds no closing brace; so group 2 always ends at
    the first closing brace after the opening one. *)
Theorem title_field_match (s g1 g2 g3 rest : str) :
  title_field_at s = Some (g1, g2, g3, rest)
  <-> s = g1 ++ g2 ++ g3 ++ rest /\ title_prefix g1
      /\ g3 = [rbrace] /\ ~ In rbrace g2.
Proof. apply title_field_at_iff. Qed.

Lemma title_field_match_witness :
  title_field_at (lit "TiTle  = {The {NASA} mission}, year")
  = Some (lit "TiTle  = {", lit "The {NASA", lit "}", lit " mission}, year").
Proof.
  apply (proj2 (title_field_match
                  (lit "TiTle  = {The {NASA} mission}, year")
                  (lit "TiTle  = {") (lit "The {NASA") (lit "}")
                  (lit " mission}, year"))).
  split; [reflexivity|]. split.
  - exists (lit "TiTle"), (lit "  "), (lit " "). repeat split; reflexivity.
  - split; [reflexivity|]. cbn. intuition discriminate.
Defined.

Lemma no_rbrace_no_pair g : ~ In rbrace g -> no_pair g.
Proof.
  intros H u v w E. apply H. rewrite E. apply in_or_app. right.
  right. apply in_or_app. right. now left.
Qed.

Lemma content_single_segment nlp s g1 g2 g3 rest :
  title_field_at s = Some (g1, g2, g3, rest) ->
  split_braces g2 = [g2]
  /\ brace_entities_preserve_existing nlp g2 = brace_entities nlp g2.
Proof.
  intros H. destruct (title_field_at_tails _ _ _ _ _ H) as [_ Hg].
  pose proof (no_rbrace_no_pair _ Hg) as Hn.
  assert (E : split_braces g2 = [g2])
    by (rewrite split_braces_eq; now rewrite (no_pair_search _ Hn)).
  split; [exact E|]. unfold brace_entities_preserve_existing.
  rewrite E. cbn [map concat]. rewrite (no_pair_unprotected _ Hn).
  apply app_nil_r.
Qed.

(** X14. The content that the Record Rewriter hands to the pipeline never
    shows a protected span to the entity pass: group 2 of a match holds no
    closing brace, so [split_braces] returns it as one segment and
    [brace_entities_preserve_existing] is [brace_entities] on the whole
    content, opening braces included. *)
Theorem title_content_one_segment (nlp : provider) (s g1 g2 g3 rest : str) :
  title_field_at s = Some (g1, g2, g3, rest) ->
  split_braces g2 = [g2]
  /\ brace_entities_preserve_existing nlp g2 = brace_entities nlp g2.
Proof. apply content_single_segment. Qed.

Lemma title_content_one_segment_witness :
  title_field_at (lit "title = {The {NASA} mission}, year")
  = Some (lit "title = {", lit "The {NASA", lit "}", lit " mission}, year")
  /\ split_braces (lit "The {NASA") = [lit "The {NASA"]
  /\ brace_entities_preserve_existing lord_provider (lit "The {NASA")
     = brace_entities lord_provider (lit "The {NASA").
Proof.
  split; [reflexivity|].
  apply (title_content_one_segment lord_provider
           (lit "title = {The {NASA} mission}, year")
           (lit "title = {") (lit "The {NASA") (lit "}")
           (lit " mission}, year")).
  reflexivity.
Defined.

(** ** The substitution of the Record Rewriter *)

Lemma replace_text nlp st g1 g2 g3 rest :
  fst (replace nlp st (g1, g2, g3, rest))
  = g1 ++ fst (process_title nlp g2) ++ g3.
Proof. reflexivity. Qed.

Lemma replace_total nlp st m : fst (snd (replace nlp st m)) = fst st + 1.
Proof. destruct m as [[[g1 g2] g3] rest]. reflexivity. Qed.

Lemma replace_changed nlp st g1 g2 g3 rest :
  (snd (snd (replace nlp st (g1, g2, g3, rest))) = snd st
   /\ fst (process_title nlp g2) = g2)
  \/ snd (snd (replace nlp st (g1, g2, g3, rest))) = snd st + 1.
Proof.
  unfold replace, process_title. cbv zeta iota.
  destruct (str_eqb _ g2) eqn:E; cbn [negb fst snd].
  - left. split; [reflexivity|]. now apply str_eqb_eq.
  - now right.
Qed.

Lemma title_sub_counters nlp s : forall st,
  fst st <= fst (snd (title_sub nlp st s))
  /\ snd st <= snd (snd (title_sub nlp st s))
  /\ snd (snd (title_sub nlp st s)) - snd st
     <= fst (snd (title_sub nlp st s)) - fst st
  /\ (snd (snd (title_sub nlp st s)) = snd st ->
      fst (title_sub nlp st s) = s).
Proof.
  induction s as [s IH] using (induction_ltof1 _ (@length ascii)).
  intros st. destruct s as [|c r].
  - change (title_sub nlp st []) with (@nil ascii, st). cbn [fst snd].
    repeat split; auto; lia.
  - rewrite title_sub_eq.
    destruct (title_field_at (c :: r)) as [[[[g1 g2] g3] rest]|] eqn:E.
    + pose proof (title_field_at_shorter _ _ _ _ _ E) as Hlen.
      pose proof (title_field_at_cuts _ _ _ _ _ E) as Hcut.
      destruct (IH rest Hlen (snd (replace nlp st (g1, g2, g3, rest))))
        as (I1 & I2 & I3 & I4).
      pose proof (replace_total nlp st (g1, g2, g3, rest)) as Ht.
      unfold emit. cbn [fst snd].
      destruct (replace_changed nlp st g1 g2 g3 rest) as [[Hc Hp]|Hc].
      * repeat split; try lia. intros Hs. rewrite I4 by lia.
        rewrite replace_text, Hp, Hcut, <- !app_assoc. reflexivity.
      * repeat split; try lia.
    + destruct (IH r (Nat.lt_succ_diag_r _) st) as (I1 & I2 & I3 & I4).
      unfold emit. cbn [fst snd]. repeat split; auto.
      intros Hs. now rewrite (I4 Hs).
Qed.

(** X15. The counters of [clean_file]: [changed] never exceeds [total],
    and when [changed] is zero the text that is written is the text that
    was read. *)
Theorem clean_text_counters (nlp : provider) (text : str) :
  snd (snd (clean_text nlp text)) <= fst (snd (clean_text nlp text))
  /\ (snd (snd (clean_text nlp text)) = 0 ->
      fst (clean_text nlp text) = text).
Proof.
  unfold clean_text.
  destruct (title_sub_counters nlp text (0, 0)) as (_ & _ & H3 & H4).
  cbn [fst snd] in *. split; [lia|exact H4].
Qed.

Lemma clean_text_counters_witness :
  snd (clean_text no_entities (lit "@misc{k, title = {A story}}")) = (1, 0)
  /\ fst (clean_text no_entities (lit "@misc{k, title = {A story}}"))
     = lit "@misc{k, title = {A story}}".
Proof.
  split; [reflexivity|].
  apply (proj2 (clean_text_counters no_entities
                  (lit "@misc{k, title = {A story}}"))).
  reflexivity.
Defined.

Lemma title_sub_total nlp1 nlp2 s : forall st1 st2,
  fst st1 = fst st2 ->
  fst (snd (title_sub nlp1 st1 s)) = fst (snd (title_sub nlp2 st2 s)).
Proof.
  induction s as [s IH] using (induction_ltof1 _ (@length ascii)).
  intros st1 st2 H. destruct s as [|c r].
  - exact H.
  - rewrite !title_sub_eq.
    destruct (title_field_at (c :: r)) as [[[[g1 g2] g3] rest]|] eqn:E.
    + unfold emit. cbn [fst snd].
      apply (IH rest (title_field_at_shorter _ _ _ _ _ E)).
      rewrite !replace_total. now rewrite H.
    + unfold emit. cbn [fst snd]. now apply (IH r (Nat.lt_succ_diag_r _)).
Qed.

(** X16. The counter [total] depends on the text only: two providers give
    the same number of titles for the same text, since the matches of the
    substitution are found in the text that was read and not in what the
    callback returns. *)
Theorem clean_text_total_any_provider (nlp1 nlp2 : provider) (text : str) :
  fst (snd (clean_text nlp1 text)) = fst (snd (clean_text nlp2 text)).
Proof. now apply title_sub_total. Qed.

Lemma title_prefix_equals g1 : title_prefix g1 -> In equals_sign g1.
Proof.
  intros (w & ws1 & ws2 & -> & _). apply in_or_app. right.
  apply in_or_app. right. now left.
Qed.

Lemma title_sub_no_field nlp s : forall st,
  ~ In rbrace s \/ ~ In equals_sign s -> title_sub nlp st s = (s, st).
Proof.
  induction s as [|c r IH]; intros st H; [reflexivity|].
  rewrite title_sub_eq.
  destruct (title_field_at (c :: r)) as [[[[g1 g2] g3] rest]|] eqn:E.
  - exfalso. apply title_field_at_iff in E.
    destruct E as (Hs & Hp & -> & _). rewrite Hs in H.
    destruct H as [H|H]; apply H.
    + apply in_or_app. right. apply in_or_app. right. now left.
    + apply in_or_app. left. now apply title_prefix_equals.
  - rewrite IH; [reflexivity|].
    destruct H as [H|H]; [left|right]; intros F; apply H; now right.
Qed.

(** X17. A text without closing brace, or without equals sign, holds no
    title field: it is written back unchanged and both counters are
    zero, whatever the provider. *)
Theorem clean_text_no_field (nlp : provider) (text : str) :
  ~ In rbrace text \/ ~ In equals_sign text ->
  clean_text nlp text = (text, (0, 0)).
Proof. apply title_sub_no_field. Qed.

Lemma clean_text_no_field_witness :
  clean_text lord_provider (lit "@comment{the Title of the LORD: a story")
  = (lit "@comment{the Title of the LORD: a story", (0, 0)).
Proof.
  apply (clean_text_no_field lord_provider
           (lit "@comment{the Title of the LORD: a story")).
  left. cbn. intuition discriminate.
Defined.

(** The provider's spans with a recognized label have their start at or
    before their end, on every text. *)
Definition provider_ordered (nlp : provider) : Prop :=
  forall p, Forall ordered (entity_spans (nlp p)).

Lemma provider_spans_ordered nlp raw :
  provider_ordered nlp -> spans_ordered nlp raw.
Proof.
  intros H. unfold spans_ordered. apply Forall_forall. intros p _.
  right. apply H.
Qed.

Lemma title_sub_letters nlp s : forall st,
  provider_ordered nlp ->
  lower (strip (fst (title_sub nlp st s))) = lower (strip s).
Proof.
  induction s as [s IH] using (induction_ltof1 _ (@length ascii)).
  intros st H. destruct s as [|c r]; [reflexivity|].
  rewrite title_sub_eq.
  destruct (title_field_at (c :: r)) as [[[[g1 g2] g3] rest]|] eqn:E.
  - pose proof (title_field_at_shorter _ _ _ _ _ E) as Hlen.
    rewrite (title_field_at_cuts _ _ _ _ _ E).
    unfold emit. cbn [fst]. rewrite replace_text.
    rewrite !strip_app, !lower_app.
    rewrite (IH rest Hlen _ H).
    rewrite (process_title_letters nlp g2 (provider_spans_ordered _ _ H)).
    now rewrite <- !app_assoc.
  - unfold emit. cbn [fst].
    change (c :: r) with ([c] ++ r).
    rewrite !strip_app, !lower_app.
    now rewrite (IH r (Nat.lt_succ_diag_r _) _ H).
Qed.

Lemma find_lord_ordered s : forall i,
  Forall ordered (entity_spans (find_lord i s)).
Proof.
  induction s as [|c r IH]; intros i; cbn [find_lord]; [constructor|].
  unfold entity_spans in *. rewrite filter_app, map_app.
  apply Forall_app. split; [|apply IH].
  destruct (startswith _ _); [|constructor].
  constructor; [|constructor]. unfold ordered. cbn [fst snd start_char end_char].
  lia.
Qed.

(** X18. On texts over U+0000..U+00FF the Record Rewriter only inserts
    markers and changes the case of characters, in the whole file: for a
    provider whose recognized spans have their start at or before their
    end, the text that is written and the text that was read are the
    same string once the markers are deleted and both are put in lower
    case.  (Beyond U+00FF [str.lower] is no character-by-character map,
    and the statement is not made there.) *)
Theorem clean_text_keeps_letters (nlp : provider) (text : str) :
  provider_ordered nlp ->
  lower (strip (fst (clean_text nlp text))) = lower (strip text).
Proof. apply title_sub_letters. Qed.

Lemma clean_text_keeps_letters_witness :
  provider_ordered lord_provider
  /\ lower (strip (fst (clean_text lord_provider
       (lit "@book{k, Title = {the LORD of NASA: a STORY}, year = {1954}}"))))
     = lower (strip
       (lit "@book{k, Title = {the LORD of NASA: a STORY}, year = {1954}}")).
Proof.
  assert (H : provider_ordered lord_provider)
    by (intros p; apply find_lord_ordered).
  split; [exact H|].
  exact (clean_text_keeps_letters lord_provider
    (lit "@book{k, Title = {the LORD of NASA: a STORY}, year = {1954}}") H).
Defined.

(** A second run of the Record Rewriter is not the identity on the result
    of the first: the content of the field ends at the first closing
    brace, so the protected span of the first run is cut and its word is
    wrapped once more. *)
Example clean_text_second_run :
  fst (clean_text no_entities (lit "title = {the NASA mission}"))
  = lit "title = {The {NASA} mission}"
  /\ fst (clean_text no_entities (lit "title = {The {NASA} mission}"))
     = lit "title = {The {{NASA}} mission}".
Proof. split; reflexivity. Qed.

(** * Protected segments through the three passes *)

(** Every opening marker of [o] is followed, somewhere in [o], by a
    closing one. *)
Fixpoint closed (o : str) : bool :=
  match o with
  | [] => true
  | c :: r => (negb (is_lbrace c) || existsb is_rbrace r) && closed r
  end.

(** How a pass treats the segments [parts] of a title: [outs] are the
    pieces it emits, one per segment, and [segs] are the segments of its
    output.  A protected segment is emitted as it is and is again a
    segment of the output, at top level: no marker the pass inserts
    encloses it.  The piece of any other segment is split on its own. *)
Inductive pieces : list str -> list str -> list str -> Prop :=
| pieces_nil : pieces [] [] []
| pieces_kept p parts outs segs :
    is_protected p = true -> pieces parts outs segs ->
    pieces (p :: parts) (p :: outs) (p :: segs)
| pieces_new p o parts outs segs :
    is_protected p = false -> pieces parts outs segs ->
    pieces (p :: parts) (o :: outs) (split_braces o ++ segs).

(** A pass keeps the protection of every title: what it returns is the
    concatenation of the pieces, and the segments of what it returns are
    the protected segments of the title, verbatim and at top level,
    between the segments of the other pieces. *)
Definition keeps_protected (pass : str -> str) : Prop :=
  forall title, exists outs,
    pass title = concat outs
    /\ pieces (split_braces title) outs (split_braces (pass title)).

Lemma existsb_rbrace_app a b :
  existsb is_rbrace b = true -> existsb is_rbrace (a ++ b) = true.
Proof. intros H. rewrite existsb_app, H. apply orb_true_r. Qed.

Lemma closed_app a b :
  closed a = true -> closed b = true -> closed (a ++ b) = true.
Proof.
  intros Ha Hb. induction a as [|c a IH]; cbn [app closed] in *; [exact Hb|].
  apply andb_true_iff in Ha. destruct Ha as [Hc Ha].
  rewrite (IH Ha), andb_true_r. apply orb_true_iff in Hc.
  destruct Hc as [Hc|Hc]; [now rewrite Hc|].
  rewrite existsb_app, Hc. apply orb_true_r.
Qed.

Lemma closed_suffix a b : closed (a ++ b) = true -> closed b = true.
Proof.
  induction a as [|c a IH]; cbn [app closed]; [auto|].
  intros H. apply andb_true_iff in H. now apply IH.
Qed.

Lemma closed_plain a : ~ In lbrace a -> closed a = true.
Proof.
  induction a as [|c a IH]; intros H; cbn [closed]; [reflexivity|].
  rewrite IH by (intros F; apply H; now right).
  destruct (is_lbrace c) eqn:E; [|reflexivity].
  apply Ascii.eqb_eq in E. subst c. exfalso. apply H. now left.
Qed.

Lemma closed_concat l :
  Forall (fun x => closed x = true) l -> closed (concat l) = true.
Proof.
  induction 1 as [|x l Hx _ IH]; cbn [concat]; [reflexivity|].
  now apply closed_app.
Qed.

(** A text that ends with the closing marker is closed, whatever stands
    before the marker. *)
Lemma closed_snoc x : closed (x ++ [rbrace]) = true.
Proof.
  induction x as [|c x IH]; cbn [app closed]; [reflexivity|].
  rewrite IH, andb_true_r, existsb_app. cbn [existsb].
  change (is_rbrace rbrace) with true. cbn [orb].
  rewrite !orb_true_r. reflexivity.
Qed.

Lemma closed_wrap x : closed (lbrace :: x ++ [rbrace]) = true.
Proof.
  cbn [closed]. rewrite closed_snoc, andb_true_r, existsb_app.
  cbn [existsb]. change (is_rbrace rbrace) with true. cbn [orb].
  rewrite !orb_true_r. reflexivity.
Qed.

Lemma existsb_rbrace_split b :
  existsb is_rbrace b = true -> exists v w, b = v ++ rbrace :: w.
Proof.
  intros H. apply existsb_exists in H. destruct H as (x & Hin & Hx).
  apply Ascii.eqb_eq in Hx. subst x. now apply in_split.
Qed.

Lemma closed_no_pair o : closed o = true -> no_pair o -> ~ In lbrace o.
Proof.
  intros Hc Hn Hin. apply in_split in Hin. destruct Hin as (a & b & ->).
  apply closed_suffix in Hc. cbn [closed] in Hc.
  change (is_lbrace lbrace) with true in Hc. cbn [negb orb] in Hc.
  apply andb_true_iff in Hc. destruct Hc as [Hc _].
  destruct (existsb_rbrace_split _ Hc) as (v & w & ->).
  now apply (Hn a v w).
Qed.

(** After a closed text, a protected span is found as a segment of its
    own. *)
Lemma split_after_closed o : forall m y,
  closed o = true -> wrapped m ->
  split_braces (o ++ m ++ y) = split_braces o ++ m :: split_braces y.
Proof.
  induction o as [o IH] using (induction_ltof1 _ (@length ascii)).
  intros m y Hc Hm. rewrite (split_braces_eq o).
  destruct (search_brace o) as [[[pre m'] rest]|] eqn:E.
  - destruct (search_brace_split _ _ _ _ E) as [Ho _].
    pose proof (search_brace_pre _ _ _ _ E) as Hpre.
    pose proof (search_brace_wrapped _ _ _ _ E) as Hm'.
    assert (Hr : closed rest = true).
    { rewrite Ho in Hc. now apply closed_suffix, closed_suffix in Hc. }
    assert (Eo : o ++ m ++ y = pre ++ m' ++ rest ++ m ++ y)
      by (rewrite Ho, <- !app_assoc; reflexivity).
    rewrite Eo, split_braces_eq, (search_brace_found _ _ _ Hpre Hm').
    rewrite (IH rest (search_brace_shorter _ _ _ _ E) m y Hr Hm).
    reflexivity.
  - pose proof (closed_no_pair _ Hc (search_brace_none _ E)) as Hp.
    rewrite split_braces_eq, (search_brace_found _ _ _ Hp Hm).
    reflexivity.
Qed.

(** The pieces of a pass that copies the protected segments and emits a
    closed text for every segment without opening marker. *)
Lemma pieces_of_outs parts : forall outs,
  alternates parts ->
  Forall2 (fun p o => if is_protected p then o = p
                      else ~ In lbrace p -> closed o = true) parts outs ->
  pieces parts outs (split_braces (concat outs)).
Proof.
  intros outs H. revert outs.
  induction H as [u Hu|pre m l Hpre Hm Hl IH]; intros outs HF.
  - inversion HF as [|? o ? outs' _ HF']; subst. inversion HF'; subst.
    cbn [concat]. rewrite app_nil_r, <- (app_nil_r (split_braces o)).
    apply pieces_new; [now apply no_pair_unprotected|constructor].
  - inversion HF as [|? o ? outs1 Ho HF1]; subst.
    inversion HF1 as [|? om ? outs2 Hom HF2]; subst.
    rewrite (no_pair_unprotected _ (no_lbrace_no_pair _ Hpre)) in Ho.
    rewrite (wrapped_protected _ Hm) in Hom. subst om.
    cbn [concat]. rewrite (split_after_closed o m _ (Ho Hpre) Hm).
    apply pieces_new; [now apply no_pair_unprotected, no_lbrace_no_pair|].
    apply pieces_kept; [now apply wrapped_protected|now apply IH].
Qed.

Lemma not_in_firstn {A} (x : A) n l : ~ In x l -> ~ In x (firstn n l).
Proof.
  intros H F. apply H. rewrite <- (firstn_skipn n l).
  apply in_or_app. now left.
Qed.

Lemma not_in_skipn {A} (x : A) n l : ~ In x l -> ~ In x (skipn n l).
Proof.
  intros H F. apply H. rewrite <- (firstn_skipn n l).
  apply in_or_app. now right.
Qed.

Lemma emit_closed text merged : forall out lo,
  ~ In lbrace text -> Forall (fun x => closed x = true) out ->
  Forall (fun x => closed x = true)
         (fst (fold_left (emit_step text) merged (out, lo))).
Proof.
  induction merged as [|[a b] m IH]; intros out lo Ht Ho; [exact Ho|].
  cbn [fold_left emit_step]. apply IH; [assumption|].
  apply Forall_app. split; [assumption|].
  constructor; [|constructor; [apply closed_wrap|constructor]].
  apply closed_plain. unfold slice. now apply not_in_firstn, not_in_skipn.
Qed.

(** On a text without opening marker the Entity Protector inserts
    markers in pairs only, so its output is closed. *)
Lemma brace_entities_closed nlp text :
  ~ In lbrace text -> closed (brace_entities nlp text) = true.
Proof.
  intros H. unfold brace_entities.
  destruct (entity_spans (nlp text)) as [|s l]; [now apply closed_plain|].
  pose proof (emit_closed text (merge_spans (sort_spans (s :: l))) [] 0 H
                (Forall_nil _)) as Hf.
  assert (E : forall r : list str * nat,
             (let (out, last) := r in concat (out ++ [slice_from last text]))
             = concat (fst r ++ [slice_from (snd r) text]))
    by (intros [? ?]; reflexivity).
  rewrite E. apply closed_concat, Forall_app. split; [exact Hf|].
  constructor; [|constructor]. apply closed_plain.
  unfold slice_from. now apply not_in_skipn.
Qed.

Lemma wrap_token_closed w : ~ In lbrace w -> closed (wrap_token w) = true.
Proof.
  intros H. unfold wrap_token.
  destruct (qualifies w); [apply closed_wrap|now apply closed_plain].
Qed.

Lemma wrap_words_closed s : forall cur,
  ~ In lbrace cur -> ~ In lbrace s -> closed (wrap_words cur s) = true.
Proof.
  induction s as [|c r IH]; intros cur Hcur Hs; cbn [wrap_words].
  - now apply wrap_token_closed.
  - assert (Hc : c <> lbrace) by (intros ->; apply Hs; now left).
    assert (Hr : ~ In lbrace r) by (intros F; apply Hs; now right).
    destruct (is_word c).
    + apply IH; [|assumption]. intros F. apply in_app_or in F.
      destruct F as [F|[F|[]]]; [auto|congruence].
    + apply closed_app; [now apply wrap_token_closed|].
      change (c :: wrap_words [] r) with ([c] ++ wrap_words [] r).
      apply closed_app; [|apply IH; auto].
      apply closed_plain. intros [F|[]]. congruence.
Qed.

(** The same for the Acronym Protector. *)
Lemma acronym_sub_closed p :
  ~ In lbrace p -> closed (acronym_sub None p) = true.
Proof.
  intros H. rewrite (acronym_sub_scan p None). cbn [word_opt].
  apply wrap_words_closed; auto.
Qed.

Lemma same_markers_no_lbrace o p :
  Forall2 same_markers o p -> ~ In lbrace p -> ~ In lbrace o.
Proof.
  induction 1 as [|a b o p [Hab _] H IH]; intros Hp; [auto|].
  intros [F|F].
  - subst a. change (is_lbrace lbrace) with true in Hab.
    symmetry in Hab. apply Ascii.eqb_eq in Hab. subst b. apply Hp. now left.
  - apply IH; [|assumption]. intros G. apply Hp. now right.
Qed.

Lemma map_pieces (f : str -> str) parts :
  (forall p, ~ In lbrace p -> closed (f p) = true) ->
  Forall2 (fun p o => if is_protected p then o = p
                      else ~ In lbrace p -> closed o = true)
          parts (map (fun p => if is_protected p then p else f p) parts).
Proof.
  intros Hf. induction parts as [|p ps IH]; cbn [map]; constructor;
    [|assumption].
  destruct (is_protected p); [reflexivity|apply Hf].
Qed.

Lemma case_parts_pieces parts : forall first,
  Forall2 (fun p o => if is_protected p then o = p
                      else ~ In lbrace p -> closed o = true)
          parts (case_parts first parts).
Proof.
  induction parts as [|p ps IH]; intros first; cbn [case_parts];
    [constructor|].
  destruct (is_protected p) eqn:E.
  - constructor; [now rewrite E|apply IH].
  - destruct (first && search_letter (lower p));
      (constructor; [rewrite E; intros Hp; apply closed_plain|apply IH]).
    + exact (same_markers_no_lbrace _ _ (proj1 (cased_segment true p)) Hp).
    + exact (same_markers_no_lbrace _ _ (proj1 (cased_segment false p)) Hp).
Qed.

Lemma pieces_keep_member parts outs segs m :
  pieces parts outs segs -> In m parts -> is_protected m = true ->
  In m segs.
Proof.
  induction 1 as [|p parts outs segs Hp H IH|p o parts outs segs Hp H IH];
    intros Hin Hm.
  - destruct Hin.
  - destruct Hin as [->|Hin]; [now left|right; auto].
  - apply in_or_app. right. destruct Hin as [->|Hin]; [congruence|auto].
Qed.

Lemma entity_pass_keeps nlp :
  keeps_protected (brace_entities_preserve_existing nlp).
Proof.
  intros title. eexists. split; [reflexivity|].
  unfold brace_entities_preserve_existing.
  apply pieces_of_outs; [apply split_braces_alt|].
  apply map_pieces, brace_entities_closed.
Qed.

Lemma acronym_pass_keeps : keeps_protected protect_acronyms_preserve_braces.
Proof.
  intros title. eexists. split; [reflexivity|].
  unfold protect_acronyms_preserve_braces.
  apply pieces_of_outs; [apply split_braces_alt|].
  apply map_pieces, acronym_sub_closed.
Qed.

Lemma caser_keeps : keeps_protected sentence_case_preserve_braces.
Proof.
  intros title. exists (case_parts true (split_braces title)).
  split; [apply sentence_case_eq|]. rewrite sentence_case_eq.
  apply pieces_of_outs; [apply split_braces_alt|apply case_parts_pieces].
Qed.

Lemma keeps_member pass title m :
  keeps_protected pass ->
  In m (split_braces title) -> is_protected m = true ->
  In m (split_braces (pass title)).
Proof.
  intros H Hin Hm. destruct (H title) as (outs & _ & Hp).
  eapply pieces_keep_member; eauto.
Qed.

(** C3. Pre-existing protection is preserved by every pass.  For every
    title, the Entity Protector, the Acronym Protector and the Sentence
    Caser each return the concatenation of one piece per segment in
    which every protected segment is the segment itself, so nothing
    inside it is re-cased or wrapped, and that segment is again a
    segment at top level of what the pass returns: the markers the pass
    inserts never enclose it in a second pair.  Hence every protected
    segment of a title is a protected segment of the result of the whole
    pipeline. *)
Theorem protected_segments_verbatim (nlp : provider) :
  keeps_protected (brace_entities_preserve_existing nlp)
  /\ keeps_protected protect_acronyms_preserve_braces
  /\ keeps_protected sentence_case_preserve_braces
  /\ forall title m,
       In m (split_braces title) -> is_protected m = true ->
       In m (split_braces (fst (process_title nlp title))).
Proof.
  split; [apply entity_pass_keeps|].
  split; [apply acronym_pass_keeps|].
  split; [apply caser_keeps|].
  intros title m Hin Hm. unfold process_title. cbn [fst].
  apply (keeps_member _ _ _ caser_keeps); [|exact Hm].
  apply (keeps_member _ _ _ acronym_pass_keeps); [|exact Hm].
  now apply (keeps_member _ _ _ (entity_pass_keeps nlp)).
Qed.

(** The markers that a pass adds around a neighbouring span of
    characters stay outside the protected segments, also when a closing
    marker stands alone before them. *)
Example protected_segments_ex :
  brace_entities_preserve_existing (fixed_spans [(0, 3)]) (lit "a} {NASA} b")
  = lit "{a} }{NASA}{ b}"
  /\ split_braces (lit "{a} }{NASA}{ b}")
     = [[]; lit "{a}"; lit " }"; lit "{NASA}"; []; lit "{ b}"; []].
Proof. split; reflexivity. Qed.

Lemma protected_segments_verbatim_witness :
  fst (process_title lord_provider (lit "the {nasa rover} of the LORD"))
  = lit "The {nasa rover} of the {LORD}"
  /\ In (lit "{nasa rover}")
        (split_braces
           (fst (process_title lord_provider
                   (lit "the {nasa rover} of the LORD")))).
Proof.
  split; [reflexivity|].
  apply (proj2 (proj2 (proj2 (protected_segments_verbatim lord_provider)))).
  - change (split_braces (lit "the {nasa rover} of the LORD"))
      with [lit "the "; lit "{nasa rover}"; lit " of the LORD"].
    right. now left.
  - reflexivity.
Defined.

(** A pass that put a second pair of markers around every protected
    segment would not keep the protection: the segment would no longer
    be a segment of its output. *)
Definition nest_protected (title : str) : str :=
  concat (map (fun p => if is_protected p then lbrace :: p ++ [rbrace] else p)
              (split_braces title)).

Example nesting_is_not_kept : ~ keeps_protected nest_protected.
Proof.
  intros H. destruct (H (lit "{A}")) as (outs & _ & Hp).
  change (split_braces (lit "{A}")) with [[]; lit "{A}"; []] in Hp.
  change (split_braces (nest_protected (lit "{A}")))
    with [[]; lit "{{A}"; lit "}"] in Hp.
  assert (Hin : In (lit "{A}") [[]; lit "{{A}"; lit "}"]).
  { eapply pieces_keep_member; [exact Hp| |reflexivity]. right. now left. }
  destruct Hin as [F|[F|[F|[]]]]; discriminate F.
Qed.

(** * The first-letter rule of the Sentence Caser *)

(** [str.isalpha] on one character below U+0100: [A-Za-z], U+00AA,
    U+00B5, U+00BA, U+00C0..U+00D6, U+00D8..U+00F6 and U+00F8..U+00FF. *)
Definition is_alpha (c : ascii) : bool :=
  is_letter c || (code c =? 170) || (code c =? 181) || (code c =? 186)
  || between 192 214 c || between 216 246 c || between 248 255 c.

(** No character of [q] is alphabetic. *)
Definition no_alpha (q : str) : Prop := Forall (fun x => is_alpha x = false) q.

Lemma lower_char_not_alpha c : is_alpha c = false -> lower_char c = c.
Proof. by_cases_on c. Qed.

Lemma not_alpha_not_letter c : is_alpha c = false -> is_letter c = false.
Proof. by_cases_on c. Qed.

Lemma no_alpha_lower q : no_alpha q -> lower q = q.
Proof.
  induction 1 as [|x q Hx _ IH]; cbn [lower map]; [reflexivity|].
  fold (lower q). now rewrite (lower_char_not_alpha _ Hx), IH.
Qed.

Lemma no_alpha_no_letter q :
  no_alpha q -> Forall (fun x => is_letter x = false) q.
Proof. apply Forall_impl, not_alpha_not_letter. Qed.

Lemma no_letter_search q :
  Forall (fun x => is_letter x = false) q -> search_letter q = false.
Proof.
  induction 1 as [|x q Hx _ IH]; cbn [search_letter existsb]; [reflexivity|].
  fold (search_letter q). now rewrite Hx, IH.
Qed.

Lemma star_letter_no_letter cls r :
  Forall (fun x => is_letter x = false) r -> star_letter cls r = None.
Proof.
  intros H. destruct (star_letter cls r) as [k|] eqn:E; [|reflexivity].
  destruct (star_letter_some _ _ _ E) as (u & c & v & -> & _ & _ & Hc).
  apply Forall_app in H. destruct H as [_ H].
  inversion H; subst. congruence.
Qed.

(** The colon rule finds nothing in a text without a letter of
    [A-Za-z]. *)
Lemma colon_sub_no_letter q :
  Forall (fun x => is_letter x = false) q -> colon_sub q = q.
Proof.
  induction 1 as [|c r Hc Hr IH]; [reflexivity|].
  rewrite colon_sub_nomatch, IH; [reflexivity|].
  cbn [colon_letter_at]. destruct (is_colon c); [|reflexivity].
  now apply star_letter_no_letter.
Qed.

(** The segments before the first alphabetic character of a title come
    out as they are, and the first-letter rule is not spent on them. *)
Lemma case_rest_no_alpha before :
  Forall (fun q => is_protected q = true \/ no_alpha q) before ->
  case_rest before = before /\ Forall no_first_letter before.
Proof.
  induction 1 as [|q before Hq _ [IH1 IH2]]; cbn [case_rest map];
    [split; [reflexivity|constructor]|].
  fold (case_rest before). rewrite IH1. split.
  - f_equal. destruct (is_protected q); [reflexivity|].
    destruct Hq as [Hq|Hq]; [discriminate|].
    rewrite (no_alpha_lower _ Hq).
    now apply colon_sub_no_letter, no_alpha_no_letter.
  - constructor; [|assumption]. destruct Hq as [Hq|Hq]; [now left|right].
    now apply no_letter_search, no_alpha_no_letter.
Qed.

Lemma first_digit_split pre :
  existsb is_09 pre = true ->
  exists pre1 d pre2,
    pre = pre1 ++ d :: pre2 /\ existsb is_09 pre1 = false /\ is_09 d = true.
Proof.
  induction pre as [|x pre IH]; cbn [existsb]; [discriminate|].
  destruct (is_09 x) eqn:Ex.
  - intros _. exists [], x, pre. repeat split; auto.
  - cbn [orb]. intros H. destruct (IH H) as (pre1 & d & pre2 & -> & H1 & Hd).
    exists (x :: pre1), d, pre2. repeat split; auto.
    cbn [existsb]. now rewrite Ex.
Qed.

Lemma no_alpha_no_digit_alnum pre :
  no_alpha pre -> existsb is_09 pre = false ->
  Forall (fun x => is_alnum x = false) pre.
Proof.
  induction 1 as [|x pre Hx _ IH]; cbn [existsb]; [constructor|].
  intros H. apply orb_false_iff in H. destruct H as [Hd Hp].
  constructor; [|auto]. unfold is_alnum.
  now rewrite (not_alpha_not_letter _ Hx), Hd.
Qed.

Lemma digit_alnum d : is_09 d = true -> is_alnum d = true.
Proof. intros H. unfold is_alnum. rewrite H. apply orb_true_r. Qed.

Lemma digit_not_letter d : is_09 d = true -> is_letter d = false.
Proof. by_cases_on d. Qed.

Lemma letter_alpha c : is_letter c = true -> is_alpha c = true.
Proof. by_cases_on c. Qed.

(** The segment on which the first-letter rule is spent, read from its
    first alphabetic character. *)
Lemma first_letter_segment pre c rest :
  no_alpha pre -> is_letter c = true ->
  colon_sub (capitalize_first (lower (pre ++ c :: rest)))
  = if existsb is_09 pre then colon_sub (lower (pre ++ c :: rest))
    else pre ++ upper_char (lower_char c) :: colon_sub (lower rest).
Proof.
  intros Hpre Hc. destruct (existsb is_09 pre) eqn:Ed.
  - destruct (first_digit_split _ Ed) as (pre1 & d & pre2 & -> & H1 & Hd).
    apply Forall_app in Hpre. destruct Hpre as [Hp1 _].
    rewrite <- app_assoc. cbn [app].
    rewrite lower_app. cbn [lower map]. fold (lower (pre2 ++ c :: rest)).
    rewrite capitalize_first_app.
    + now rewrite lower_char_letter, (digit_not_letter _ Hd).
    + now apply lower_non_alnum, no_alpha_no_digit_alnum.
    + rewrite lower_char_alnum. now apply digit_alnum.
  - rewrite first_segment_cased, Hc, (no_alpha_lower _ Hpre);
      [reflexivity|now apply no_alpha_no_digit_alnum|now apply letter_alnum].
Qed.

Lemma first_letter_text text before p after pre c rest :
  split_braces text = before ++ p :: after ->
  Forall (fun q => is_protected q = true \/ no_alpha q) before ->
  is_protected p = false ->
  p = pre ++ c :: rest ->
  no_alpha pre -> is_letter c = true ->
  sentence_case_preserve_braces text
  = concat before
    ++ (if existsb is_09 pre then colon_sub (lower p)
        else pre ++ upper_char (lower_char c) :: colon_sub (lower rest))
    ++ concat (case_rest after).
Proof.
  intros Hs Hb Hp -> Hpre Hc. rewrite sentence_case_eq, Hs.
  destruct (case_rest_no_alpha _ Hb) as [Eb Hn].
  destruct (case_parts_before _ Hn) as [E1 E2].
  rewrite case_parts_app, E1, E2, Eb. cbn [case_parts].
  assert (Hl : search_letter (pre ++ c :: rest) = true).
  { unfold search_letter. rewrite existsb_app. cbn [existsb].
    rewrite Hc. cbn [orb]. apply orb_true_r. }
  rewrite Hp, search_letter_lower, Hl. cbn [andb].
  rewrite case_parts_false, concat_app. cbn [concat].
  now rewrite first_letter_segment.
Qed.







(** Left out of C4: a first alphabetic character outside [A-Za-z].  The
    title of U+00E9, t, u, d, e comes out with a capital [T] behind the
    small U+00E9. *)
Example first_letter_outside_ascii :
  sentence_case_preserve_braces ["233"; "t"; "u"; "d"; "e"]%char
  = ["233"; "T"; "u"; "d"; "e"]%char.
Proof. reflexivity. Qed.

(** * The colon rule of the Sentence Caser across segments *)

Lemma alpha_not_lbrace c : is_alpha c = true -> c <> lbrace.
Proof. by_cases_on c. Qed.

Lemma alpha_lower_not_colon c :
  is_alpha c = true -> is_colon (lower_char c) = false.
Proof. by_cases_on c. Qed.

Lemma space_not_alpha c : is_space c = true -> is_alpha c = false.
Proof. by_cases_on c. Qed.

Lemma space_not_09 c : is_space c = true -> is_09 c = false.
Proof. by_cases_on c. Qed.

Lemma spaces_no_alpha ws : forallb is_space ws = true -> no_alpha ws.
Proof.
  intros H. apply forallb_Forall_true in H. eapply Forall_impl; [|exact H].
  apply space_not_alpha.
Qed.

Lemma spaces_no_09 ws : forallb is_space ws = true -> existsb is_09 ws = false.
Proof.
  induction ws as [|x ws IH]; cbn [forallb existsb]; [reflexivity|].
  rewrite andb_true_iff. intros [Hx Hws].
  now rewrite (space_not_09 _ Hx), IH.
Qed.

Lemma opens_unprotected ws c v :
  forallb is_space ws = true -> is_alpha c = true ->
  is_protected (ws ++ c :: v) = false.
Proof.
  intros Hws Hc. destruct (is_protected (ws ++ c :: v)) eqn:E; [|reflexivity].
  apply is_protected_shape in E. destruct E as [body E].
  destruct ws as [|x ws]; simpl in E; inversion E; subst.
  - now apply alpha_not_lbrace in Hc.
  - discriminate Hws.
Qed.

(** A letter that opens a segment behind white space is out of reach of
    the colon rule: once the first-letter rule is spent it comes out in
    lower case, whatever the segments before it end with. *)
Lemma letter_behind_spans text front B after ws c v :
  split_braces text = front ++ B :: after ->
  B = ws ++ c :: v ->
  forallb is_space ws = true -> is_alpha c = true ->
  Exists (fun q => is_protected q = false /\ search_letter q = true) front ->
  exists x v' y,
    sentence_case_preserve_braces text
    = x ++ (ws ++ lower_char c :: v') ++ y
    /\ length x = length (concat front)
    /\ length v' = length v /\ length y = length (concat after).
Proof.
  intros Hs -> Hws Hc Hex. rewrite sentence_case_eq, Hs, case_parts_app.
  rewrite (flag_after_spent _ _ Hex), case_parts_false. cbn [case_rest map].
  rewrite (opens_unprotected ws c v Hws Hc), concat_app. cbn [concat].
  rewrite lower_app, (@lower_spaces ws Hws). cbn [lower map]. fold (lower v).
  assert (Hcol : Forall (fun x => is_colon x = false) (ws ++ [lower_char c])).
  { apply Forall_app. split.
    - apply forallb_Forall_true in Hws. eapply Forall_impl; [|exact Hws].
      apply space_not_colon.
    - constructor; [|constructor]. now apply alpha_lower_not_colon. }
  change (ws ++ lower_char c :: lower v)
    with (ws ++ [lower_char c] ++ lower v).
  rewrite (app_assoc ws [lower_char c] (lower v)).
  rewrite (colon_sub_skip _ (lower v) Hcol), <- (app_assoc ws). cbn [app].
  eexists _, (colon_sub (lower v)), _. split; [reflexivity|].
  repeat split.
  - apply case_parts_length.
  - rewrite (Forall2_length (colon_sub_pointwise _)). apply length_map.
  - fold (case_rest after). rewrite <- case_parts_false.
    apply case_parts_length.
Qed.

(** When no segment before it holds an alphabetic character, the letter
    is the first of the title and the first-letter rule upper-cases
    it. *)
Lemma letter_behind_spans_first text front B after ws c v :
  split_braces text = front ++ B :: after ->
  B = ws ++ c :: v ->
  forallb is_space ws = true -> is_letter c = true ->
  Forall (fun q => is_protected q = true \/ no_alpha q) front ->
  exists v' y,
    sentence_case_preserve_braces text
    = concat front ++ (ws ++ upper_char (lower_char c) :: v') ++ y
    /\ length v' = length v /\ length y = length (concat after).
Proof.
  intros Hs HB Hws Hc Hf.
  pose proof (first_letter_text text front B after ws c v Hs Hf
                (eq_trans (f_equal is_protected HB)
                   (opens_unprotected ws c v Hws (letter_alpha _ Hc)))
                HB (spaces_no_alpha _ Hws) Hc) as E.
  rewrite (spaces_no_09 _ Hws) in E.
  eexists (colon_sub (lower v)), _. split; [exact E|]. split.
  - rewrite (Forall2_length (colon_sub_pointwise _)). apply length_map.
  - rewrite <- case_parts_false. apply case_parts_length.
Qed.

Lemma front_assoc {A} (before : list A) a mid b after :
  before ++ a :: mid ++ b :: after = (before ++ a :: mid) ++ b :: after.
Proof. rewrite <- app_assoc. reflexivity. Qed.

(** The second half of the colon rule read without condition: a letter
    that follows, after a protected span, a segment ending in a colon
    and white space comes out in lower case. *)
Definition letter_after_span_lower (text : str) : Prop :=
  forall before A P B after u ws1 ws2 c v,
    split_braces text = before ++ A :: P :: B :: after ->
    A = u ++ colon :: ws1 -> forallb is_space ws1 = true ->
    is_protected P = true ->
    B = ws2 ++ c :: v -> forallb is_space ws2 = true -> is_letter c = true ->
    exists x v' y,
      sentence_case_preserve_braces text
      = x ++ (ws2 ++ lower_char c :: v') ++ y
      /\ length x = length (concat (before ++ [A; P]))
      /\ length v' = length v /\ length y = length (concat after).

(** C7, as stated, fails when no unprotected segment up to the colon
    holds a letter: the letter after the protected span is then the
    first letter of the title and the first-letter rule upper-cases it. *)
Lemma colon_then_first_letter :
  sentence_case_preserve_braces (lit "{NASA}: {Mars} mission")
  = lit "{NASA}: {Mars} Mission"
  /\ ~ letter_after_span_lower (lit "{NASA}: {Mars} mission").
Proof.
  split; [reflexivity|]. intros H.
  destruct (H [[]; lit "{NASA}"] (lit ": ") (lit "{Mars}") (lit " mission") []
              [] (lit " ") (lit " ") "m"%char (lit "ission"))
    as (x & v' & y & E & Hx & _); try reflexivity.
  do 14 (destruct x as [|? x]; [discriminate Hx|]).
  destruct x; [|discriminate Hx].
  vm_compute in E. discriminate E.
Qed.

(** C7, amended.  In every unprotected segment, every letter of
    [A-Za-z] that follows a colon and optional white space comes out in
    upper case.  When the colon ends one segment and a letter opens a
    later segment, behind one protected span or several, the colon rule
    does not reach that letter.  It comes out in lower case whenever an
    unprotected segment before its own holds a letter of [A-Za-z], that
    is whenever the first-letter rule has been spent; and it comes out
    in upper case, by the first-letter rule, when it is a letter of
    [A-Za-z] and no unprotected segment before its own holds an
    alphabetic character. *)
Theorem colon_rule_segment_local :
  (forall text before p after u ws c v,
      split_braces text = before ++ p :: after ->
      is_protected p = false ->
      p = u ++ colon :: ws ++ c :: v ->
      forallb is_space ws = true -> is_letter c = true ->
      exists x u' v' y,
        sentence_case_preserve_braces text
        = x ++ (u' ++ colon :: ws ++ upper_char (lower_char c) :: v') ++ y
        /\ length x = length (concat before) /\ length u' = length u
        /\ length v' = length v /\ length y = length (concat after))
  /\ (forall text before A mid B after u ws1 ws2 c v,
         split_braces text = before ++ A :: mid ++ B :: after ->
         A = u ++ colon :: ws1 -> forallb is_space ws1 = true ->
         B = ws2 ++ c :: v -> forallb is_space ws2 = true ->
         is_alpha c = true ->
         Exists (fun q => is_protected q = false /\ search_letter q = true)
                (before ++ A :: mid) ->
         exists x v' y,
           sentence_case_preserve_braces text
           = x ++ (ws2 ++ lower_char c :: v') ++ y
           /\ length x = length (concat (before ++ A :: mid))
           /\ length v' = length v /\ length y = length (concat after))
  /\ (forall text before A mid B after u ws1 ws2 c v,
         split_braces text = before ++ A :: mid ++ B :: after ->
         A = u ++ colon :: ws1 -> forallb is_space ws1 = true ->
         B = ws2 ++ c :: v -> forallb is_space ws2 = true ->
         is_letter c = true ->
         Forall (fun q => is_protected q = true \/ no_alpha q)
                (before ++ A :: mid) ->
         exists v' y,
           sentence_case_preserve_braces text
           = concat (before ++ A :: mid)
             ++ (ws2 ++ upper_char (lower_char c) :: v') ++ y
           /\ length v' = length v /\ length y = length (concat after)).
Proof.
  split; [|split].
  - intros. eapply colon_rule_inside; eauto.
  - intros text before A mid B after u ws1 ws2 c v Hs _ _ HB Hws Hc Hex.
    rewrite front_assoc in Hs.
    exact (letter_behind_spans text _ B after ws2 c v Hs HB Hws Hc Hex).
  - intros text before A mid B after u ws1 ws2 c v Hs _ _ HB Hws Hc Hf.
    rewrite front_assoc in Hs.
    exact (letter_behind_spans_first text _ B after ws2 c v Hs HB Hws Hc Hf).
Qed.

Lemma colon_rule_segment_local_witness :
  (exists x u' v' y,
      sentence_case_preserve_braces (lit "a tale: the end")
      = x ++ (u' ++ colon :: lit " " ++ "T"%char :: v') ++ y
      /\ length x = 0 /\ length u' = 6 /\ length v' = 6 /\ length y = 0)
  /\ (exists x v' y,
         sentence_case_preserve_braces (lit "foo: {A}{B} baz")
         = x ++ (lit " " ++ "b"%char :: v') ++ y
         /\ length x = 11 /\ length v' = 2 /\ length y = 0)
  /\ (exists v' y,
         sentence_case_preserve_braces (lit "{NASA}: {Mars} mission")
         = lit "{NASA}: {Mars}" ++ (lit " " ++ "M"%char :: v') ++ y
         /\ length v' = 6 /\ length y = 0).
Proof.
  split; [|split].
  - apply (proj1 colon_rule_segment_local
             (lit "a tale: the end") [] (lit "a tale: the end") []
             (lit "a tale") (lit " ") "t"%char (lit "he end"));
      reflexivity.
  - apply (proj1 (proj2 colon_rule_segment_local)
             (lit "foo: {A}{B} baz") [] (lit "foo: ")
             [lit "{A}"; []; lit "{B}"] (lit " baz") []
             (lit "foo") (lit " ") (lit " ") "b"%char (lit "az"));
      try reflexivity.
    constructor. split; reflexivity.
  - apply (proj2 (proj2 colon_rule_segment_local)
             (lit "{NASA}: {Mars} mission") [[]; lit "{NASA}"] (lit ": ")
             [lit "{Mars}"] (lit " mission") []
             [] (lit " ") (lit " ") "m"%char (lit "ission"));
      try reflexivity.
    constructor; [right; constructor|].
    constructor; [left; reflexivity|].
    constructor; [right; repeat constructor|].
    constructor; [left; reflexivity|constructor].
Defined.

(** Left out of C7: a letter outside [A-Za-z] behind a colon.  In the
    title [a: ] followed by U+00E9, t, e the letter U+00E9 stays
    small. *)
Example colon_letter_outside_ascii :
  sentence_case_preserve_braces (lit "a: " ++ ["233"; "t"; "e"]%char)
  = lit "A: " ++ ["233"; "t"; "e"]%char.
Proof. reflexivity. Qed.

(** * The pipeline raises no exception *)

Lemma acronym_sub_e_eq prev c r :
  acronym_sub_e prev (c :: r) =
  match acronym_token_at prev (c :: r) with
  | Some (S k) =>
      join_e (repl_e [Some (c :: firstn k r); Some (c :: firstn k r)])
             (acronym_sub_e (Some (last (firstn k r) c)) (skipn k r))
  | _ => join_e (ret [c]) (acronym_sub_e (Some c) r)
  end.
Proof.
  funelim (acronym_sub_e prev (c :: r)); rewrite e; reflexivity.
Qed.

Lemma colon_sub_e_eq c r :
  colon_sub_e (c :: r) =
  match colon_letter_at (c :: r) with
  | Some k =>
      join_e (upper_group_e [Some (c :: firstn (S k) r);
                             Some (c :: firstn k r);
                             Some (firstn 1 (skipn k r))])
             (colon_sub_e (skipn (S k) r))
  | None => join_e (ret [c]) (colon_sub_e r)
  end.
Proof.
  funelim (colon_sub_e (c :: r)); rewrite e; reflexivity.
Qed.

(** Group 1 of [_ACRONYM_TOKEN_RE] takes part in every match, so [repl]
    always finds a string. *)
Lemma repl_e_ret m0 tok : repl_e [m0; Some tok] = ret (repl tok).
Proof.
  unfold repl_e, repl. cbn [group nth_error bind ret].
  destruct (fullmatch_caps tok || search_digit tok); reflexivity.
Qed.

(** Both groups of the two patterns of the Sentence Caser take part in
    every match. *)
Lemma upper_group_e_ret m0 g1 g2 :
  upper_group_e [m0; Some g1; Some g2] = ret (g1 ++ map upper_char g2).
Proof. reflexivity. Qed.

Lemma acronym_sub_e_ret s : forall prev,
  acronym_sub_e prev s = ret (acronym_sub prev s).
Proof.
  induction s as [s IH] using (induction_ltof1 _ (@length ascii)).
  intros prev. destruct s as [|c r]; [reflexivity|].
  rewrite acronym_sub_e_eq, acronym_sub_eq.
  destruct (acronym_token_at prev (c :: r)) as [[|k]|].
  - rewrite (IH r (Nat.lt_succ_diag_r _)). reflexivity.
  - rewrite repl_e_ret, IH; [reflexivity|].
    red. cbn [length]. rewrite length_skipn. lia.
  - rewrite (IH r (Nat.lt_succ_diag_r _)). reflexivity.
Qed.

Lemma colon_sub_e_ret s : colon_sub_e s = ret (colon_sub s).
Proof.
  induction s as [s IH] using (induction_ltof1 _ (@length ascii)).
  destruct s as [|c r]; [reflexivity|].
  rewrite colon_sub_e_eq, colon_sub_eq.
  destruct (colon_letter_at (c :: r)) as [k|].
  - rewrite upper_group_e_ret, IH.
    + unfold join_e. cbn [bind ret]. now rewrite <- app_assoc.
    + red. cbn [length]. rewrite length_skipn. lia.
  - rewrite (IH r (Nat.lt_succ_diag_r _)). reflexivity.
Qed.

Lemma capitalize_first_e_ret s :
  capitalize_first_e s = ret (capitalize_first s).
Proof.
  unfold capitalize_first_e, capitalize_first.
  destruct (star_letter _ s) as [k|]; [|reflexivity].
  rewrite upper_group_e_ret. cbn [bind ret]. now rewrite <- app_assoc.
Qed.

(** The index [merged[-1]] is read on a list that is not empty: the
    guard [not merged] comes first, and the assignment is reached only
    when the guard has read the index. *)
Lemma merge_step_e_ret merged s :
  merge_step_e (ret merged) s = ret (merge_step merged s).
Proof.
  unfold merge_step_e, merge_step. destruct s as [a b]. cbn [bind ret].
  destruct (rev merged) as [|[c d] l] eqn:Er.
  - apply (f_equal (@rev span)) in Er. rewrite rev_involutive in Er.
    subst merged. reflexivity.
  - destruct merged as [|x m]; [discriminate Er|].
    unfold starts_new_e, last_e. rewrite Er. cbn [bind ret snd].
    destruct (d <? a); cbn [bind ret]; reflexivity.
Qed.

Lemma merge_spans_e_ret spans : forall acc,
  fold_left merge_step_e spans (ret acc)
  = ret (fold_left merge_step spans acc).
Proof.
  induction spans as [|s spans IH]; intros acc; cbn [fold_left];
    [reflexivity|].
  now rewrite merge_step_e_ret, IH.
Qed.

Lemma brace_entities_e_ret (nlp_e : provider_e) ents text :
  nlp_e text = ret ents ->
  brace_entities_e nlp_e text = ret (brace_entities (fun _ => ents) text).
Proof.
  intros H. unfold brace_entities_e, brace_entities. rewrite H.
  cbn [bind ret]. destruct (entity_spans ents) as [|s l]; [reflexivity|].
  unfold merge_spans_e, merge_spans. rewrite merge_spans_e_ret.
  cbn [bind ret].
  destruct (fold_left (emit_step text) _ _) as [out lo]. reflexivity.
Qed.

Lemma map_e_ret {A B} (f : A -> exc B) (g : A -> B) l :
  (forall x, f x = ret (g x)) -> map_e f l = ret (map g l).
Proof.
  intros H. induction l as [|x l IH]; cbn [map_e map]; [reflexivity|].
  now rewrite H, IH.
Qed.

Lemma case_step_e_ret st p :
  case_step_e (ret st) p = ret (case_step st p).
Proof.
  unfold case_step_e, case_step. destruct st as [out first].
  cbn [bind ret]. destruct (is_protected p); [reflexivity|].
  destruct (first && search_letter (lower p)).
  - rewrite capitalize_first_e_ret. cbn [bind ret].
    now rewrite colon_sub_e_ret.
  - now rewrite colon_sub_e_ret.
Qed.

Lemma case_fold_e_ret parts : forall st,
  fold_left case_step_e parts (ret st) = ret (fold_left case_step parts st).
Proof.
  induction parts as [|p ps IH]; intros st; cbn [fold_left]; [reflexivity|].
  now rewrite case_step_e_ret, IH.
Qed.

Lemma sentence_case_e_ret text :
  sentence_case_preserve_braces_e text
  = ret (sentence_case_preserve_braces text).
Proof.
  unfold sentence_case_preserve_braces_e, sentence_case_preserve_braces.
  now rewrite case_fold_e_ret.
Qed.

Lemma protect_acronyms_e_ret chunk :
  protect_acronyms_preserve_braces_e chunk
  = ret (protect_acronyms_preserve_braces chunk).
Proof.
  unfold protect_acronyms_preserve_braces_e, protect_acronyms_preserve_braces.
  rewrite (map_e_ret _ (fun p => if is_protected p then p
                                 else acronym_sub None p)); [reflexivity|].
  intros p. destruct (is_protected p); [reflexivity|].
  apply acronym_sub_e_ret.
Qed.

(** A provider that raises on no text, and the entities it returns. *)
Definition returns (nlp_e : provider_e) : Prop :=
  forall text, exists ents, nlp_e text = ret ents.

Definition returned (nlp_e : provider_e) : provider :=
  fun text => match nlp_e text with inr ents => ents | inl _ => [] end.

Lemma entities_pass_e_ret nlp_e title :
  returns nlp_e ->
  brace_entities_preserve_existing_e nlp_e title
  = ret (brace_entities_preserve_existing (returned nlp_e) title).
Proof.
  intros H.
  unfold brace_entities_preserve_existing_e, brace_entities_preserve_existing.
  rewrite (map_e_ret _ (fun p => if is_protected p then p
                                 else brace_entities (returned nlp_e) p));
    [reflexivity|].
  intros p. destruct (is_protected p); [reflexivity|].
  destruct (H p) as [ents E]. rewrite (brace_entities_e_ret _ _ _ E).
  unfold brace_entities, returned. now rewrite E.
Qed.

Lemma process_title_e_ret nlp_e raw :
  returns nlp_e ->
  process_title_e nlp_e raw = ret (process_title (returned nlp_e) raw).
Proof.
  intros H. unfold process_title_e, process_title.
  rewrite (entities_pass_e_ret _ _ H). cbn [bind ret].
  rewrite protect_acronyms_e_ret. cbn [bind ret].
  rewrite sentence_case_e_ret. reflexivity.
Qed.

(** C8. The pipeline is total and its flag says whether the title has
    changed.  In the pipeline with its exceptions written out, and for a
    provider that raises on no text, [process_title] raises on no title:
    it returns a string and a flag, the flag is [true] exactly when the
    string differs from the title, and what it returns is what the
    pipeline without exceptions computes.  On the empty title, for which
    a provider that keeps its contract has no span to return, the result
    is the empty string with the flag [false]. *)
Theorem process_title_total (nlp_e : provider_e) :
  returns nlp_e ->
  (forall raw, exists out changed,
      process_title_e nlp_e raw = ret (out, changed)
      /\ (changed = true <-> out <> raw))
  /\ (forall raw,
        process_title_e nlp_e raw = ret (process_title (returned nlp_e) raw))
  /\ (Forall (valid_span []) (returned nlp_e []) ->
      process_title_e nlp_e [] = ret ([], false)).
Proof.
  intros H. split; [|split].
  - intros raw. rewrite (process_title_e_ret _ _ H). unfold process_title.
    set (out := sentence_case_preserve_braces _).
    exists out, (negb (str_eqb out raw)). split; [reflexivity|].
    rewrite negb_true_iff, <- not_true_iff_false, str_eqb_eq. tauto.
  - intros raw. now apply process_title_e_ret.
  - intros Hv. rewrite (process_title_e_ret _ _ H). f_equal.
    apply process_title_nil. now apply valid_span_empty.
Qed.

Lemma process_title_total_witness :
  returns (fun text => ret (lord_provider text))
  /\ process_title_e (fun text => ret (lord_provider text))
       (lit "the LORD of NASA")
     = ret (lit "The {LORD} of {NASA}", true)
  /\ process_title_e (fun text => ret (lord_provider text)) []
     = ret ([], false).
Proof.
  assert (H : returns (fun text => ret (lord_provider text)))
    by (intros text; now exists (lord_provider text)).
  split; [exact H|]. split.
  - exact (proj1 (proj2 (process_title_total _ H)) (lit "the LORD of NASA")).
  - apply (proj2 (proj2 (process_title_total _ H))). constructor.
Defined.
